(** * scripts/extract_html.py: a shallow embedding and its properties

    The extractor turns Messenger HTML exports into flat rows.  This file
    embeds its functions in Rocq and proves the properties its
    specification states about them.

    Conventions of the embedding.
    - A Python [str] is a [list ascii]; a character is a code point below
      256.  Whitespace, digits and case mapping are Python's on that range.
    - A Python [int] is a [Z]; a [dict] is a [gmap]; [None] is [None].
    - A function that can raise returns a [result]; [try]/[except] is a
      [match] on it.
    - What BeautifulSoup, the file system, the hash function and the random
      source return is a parameter of the section that uses it. *)

From Stdlib Require Import ZArith Lia List Ascii String Bool Sorted Permutation.
From stdpp Require Import base list gmap strings.
Import ListNotations.
Local Open Scope Z_scope.

(** ** Python strings *)

Definition str := list ascii.

(** A string literal of the source. *)
Definition lit (s : string) : str := list_ascii_of_string s.

Definition ord (c : ascii) : N := N_of_ascii c.

Definition between (lo hi n : N) : bool := ((lo <=? n) && (n <=? hi))%N.

(** [str.isspace] on one character: TAB..CR, FS..US, space, NEL, NBSP. *)
Definition isspace (c : ascii) : bool :=
  between 9 13 (ord c) || between 28 32 (ord c)
  || (ord c =? 133)%N || (ord c =? 160)%N.

(** Decimal digits below 256 are the ASCII ones. *)
Definition isdigit (c : ascii) : bool := between 48 57 (ord c).

(** [str.lower] on one character: A-Z and the Latin-1 capitals
    (all of U+00C0..U+00DE but the multiplication sign). *)
Definition lower_char (c : ascii) : ascii :=
  if between 65 90 (ord c)
     || (between 192 222 (ord c) && negb (ord c =? 215)%N)
  then ascii_of_N (ord c + 32) else c.

(** [str.upper] on one character whose capital is below 256: a-z and the
    Latin-1 small letters U+00E0..U+00FE but the division sign.  (The
    capitals of U+00B5, U+00DF and U+00FF are not below 256; the source
    calls [upper] on the letters of "am" and "pm" only.) *)
Definition upper_char (c : ascii) : ascii :=
  if between 97 122 (ord c)
     || (between 224 254 (ord c) && negb (ord c =? 247)%N)
  then ascii_of_N (ord c - 32) else c.

Definition lower (s : str) : str := map lower_char s.
Definition upper (s : str) : str := map upper_char s.

(** [bool(s)] of a string. *)
Definition truthy (s : str) : bool :=
  match s with [] => false | _ :: _ => true end.

Fixpoint lstrip (s : str) : str :=
  match s with
  | c :: s' => if isspace c then lstrip s' else s
  | [] => []
  end.

Definition rstrip (s : str) : str := rev (lstrip (rev s)).

(** [s.strip()] *)
Definition strip (s : str) : str := rstrip (lstrip s).

(** [s.split()]: the maximal runs of characters that are not whitespace.
    [cur] is the run being read, last character first. *)
Fixpoint split_go (cur : str) (s : str) : list str :=
  match s with
  | [] => match cur with [] => [] | _ => [rev cur] end
  | c :: s' =>
      if isspace c
      then match cur with
           | [] => split_go [] s'
           | _ => rev cur :: split_go [] s'
           end
      else split_go (c :: cur) s'
  end.

Definition split (s : str) : list str := split_go [] s.

(** [sep.join(parts)] *)
Fixpoint join (sep : str) (parts : list str) : str :=
  match parts with
  | [] => []
  | [p] => p
  | p :: ps => p ++ sep ++ join sep ps
  end.

(** The value of a string of decimal digits, most significant first. *)
Definition digit_val (c : ascii) : Z := Z.of_N (ord c) - 48.

Definition int_of_digits (s : str) : Z :=
  fold_left (fun acc c => 10 * acc + digit_val c) s 0.

(** Code-point order on strings, and the order it induces on lists. *)
Section Lexicographic.
Context {A : Type} (lt : A -> A -> bool).

(** Python compares sequences at the first position where they differ
    (found with [==]); a proper prefix is smaller. *)
Fixpoint lex_lt (eqb : A -> A -> bool) (a b : list A) : bool :=
  match a, b with
  | [], [] => false
  | [], _ :: _ => true
  | _ :: _, [] => false
  | x :: a', y :: b' => if eqb x y then lex_lt eqb a' b' else lt x y
  end.
End Lexicographic.

Definition char_lt (a b : ascii) : bool := (ord a <? ord b)%N.
Definition char_eqb (a b : ascii) : bool := (ord a =? ord b)%N.
Definition str_lt : str -> str -> bool := lex_lt char_lt char_eqb.
Definition str_eqb (a b : str) : bool := bool_decide (a = b).

(** ** Exceptions *)

Inductive exn :=
| ValueError
| OSError.

Inductive result (A : Type) :=
| Ok (a : A)
| Raise (e : exn).
Arguments Ok {A} a.
Arguments Raise {A} e.

Global Instance result_ret : MRet result := fun A a => Ok a.

Global Instance result_bind : MBind result := fun A B f r =>
  match r with
  | Ok a => f a
  | Raise e => Raise e
  end.

(** [int(s)]: whitespace around the digits is ignored; anything else
    than digits is refused.  (Signs and underscores, which [int] also
    reads, are left out: the program converts groups of digits.) *)
Definition int (s : str) : result Z :=
  let s := strip s in
  if truthy s && forallb isdigit s then Ok (int_of_digits s)
  else Raise ValueError.

(** ** Regular expressions ([re])

    The three patterns of the program use character classes, literals,
    sequencing, alternation, greedy repetition of one class, capturing
    groups and the end anchor.  The matcher is the backtracking one of
    [re]: alternatives in order, repetitions longest first. *)

Inductive cls :=
| CSpace                      (* \s *)
| CDigit                      (* \d *)
| CRange (lo hi : ascii)      (* [lo-hi] *)
| CChar (c : ascii).          (* a literal character *)

Inductive regex :=
| Eps
| Atom (c : cls)
| Cat (r1 r2 : regex)
| Alt (r1 r2 : regex)
| Rep (min : nat) (c : cls)   (* c{min,}, greedy *)
| Group (r : regex)           (* ( r ) *)
| Eol.                        (* $ without MULTILINE *)

(** [ic] is the IGNORECASE flag: a literal then matches both of its
    cases.  Classes and ranges of digits have no case. *)
Definition cls_match (ic : bool) (c : cls) (x : ascii) : bool :=
  match c with
  | CSpace => isspace x
  | CDigit => isdigit x
  | CRange lo hi => between (ord lo) (ord hi) (ord x)
  | CChar y =>
      if ic then char_eqb (lower_char x) (lower_char y) else char_eqb x y
  end.

Section Matcher.
Context {R : Type}.
Variable ic : bool.

(** Greedy [c{min,}] followed by [k]: take one more character while it
    is in the class, and fall back to stopping here when what follows
    fails and [min] characters have been taken. *)
Fixpoint rep_match (c : cls) (min : nat) (s : str)
    (k : str -> option R) : option R :=
  let stop := match min with O => k s | S _ => None end in
  match s with
  | x :: s' =>
      if cls_match ic c x
      then match rep_match c (Nat.pred min) s' k with
           | Some r => Some r
           | None => stop
           end
      else stop
  | [] => stop
  end.

(** [rmatch r s g k]: match [r] at the start of [s], with the groups [g]
    captured so far, then continue with [k] on what remains. *)
Fixpoint rmatch (r : regex) (s : str) (g : list str)
    (k : str -> list str -> option R) : option R :=
  match r with
  | Eps => k s g
  | Atom c =>
      match s with
      | x :: s' => if cls_match ic c x then k s' g else None
      | [] => None
      end
  | Cat r1 r2 => rmatch r1 s g (fun s' g' => rmatch r2 s' g' k)
  | Alt r1 r2 =>
      match rmatch r1 s g k with
      | Some x => Some x
      | None => rmatch r2 s g k
      end
  | Rep min c => rep_match c min s (fun s' => k s' g)
  | Group r1 =>
      rmatch r1 s g
        (fun s' g' => k s' (g' ++ [take (length s - length s') s]))
  | Eol =>
      match s with
      | [] => k s g
      | [x] => if char_eqb x "010" then k s g else None
      | _ => None
      end
  end.
End Matcher.

(** [pattern.match(s)]: the groups of the first match at the start of [s]
    and what is left of [s] after it. *)
Definition re_match (ic : bool) (r : regex) (s : str)
  : option (list str * str) :=
  rmatch ic r s [] (fun rest g => Some (g, rest)).

(** [re.sub(pattern, repl, s)] for a pattern that matches no empty
    string: scan left to right; at a position where the pattern matches,
    emit [repl groups] and resume after the match; elsewhere copy the
    character.  [skip] counts the characters of the current match still
    to be passed over. *)
Fixpoint sub_go (ic : bool) (r : regex) (repl : list str -> str)
    (skip : nat) (s : str) : str :=
  match s with
  | [] => []
  | x :: s' =>
      match skip with
      | S n => sub_go ic r repl n s'
      | O =>
          match re_match ic r s with
          | Some (g, rest) =>
              match (length s - length rest)%nat with
              | S n => repl g ++ sub_go ic r repl n s'
              | O => x :: sub_go ic r repl O s'
              end
          | None => x :: sub_go ic r repl O s'
          end
      end
  end.

Definition re_sub (ic : bool) (r : regex) (repl : list str -> str)
    (s : str) : str :=
  sub_go ic r repl O s.

(** ** [datetime]

    A naive [datetime] is its fields.  The format of the program has no
    fraction of a second, so the microsecond is always 0 and is left out. *)

Record datetime := {
  dt_year : Z;
  dt_month : Z;
  dt_day : Z;
  dt_hour : Z;
  dt_minute : Z;
  dt_second : Z
}.

Definition _is_leap (year : Z) : bool :=
  (year mod 4 =? 0) && (negb (year mod 100 =? 0) || (year mod 400 =? 0)).

Definition _DAYS_IN_MONTH : list Z :=
  [-1; 31; 28; 31; 30; 31; 30; 31; 31; 30; 31; 30; 31].

Definition _days_in_month (year month : Z) : Z :=
  if (month =? 2) && _is_leap year then 29
  else nth (Z.to_nat month) _DAYS_IN_MONTH 0.

Definition in_range (lo hi x : Z) : bool := (lo <=? x) && (x <=? hi).

(** [datetime(year, month, day, hour, minute, second)]: the constructor
    checks the date fields, then the time fields. *)
Definition datetime_new (year month day hour minute second : Z)
  : result datetime :=
  if negb (in_range 1 9999 year) then Raise ValueError
  else if negb (in_range 1 12 month) then Raise ValueError
  else if negb (in_range 1 (_days_in_month year month) day)
  then Raise ValueError
  else if negb (in_range 0 23 hour) then Raise ValueError
  else if negb (in_range 0 59 minute) then Raise ValueError
  else if negb (in_range 0 59 second) then Raise ValueError
  else Ok {| dt_year := year; dt_month := month; dt_day := day;
             dt_hour := hour; dt_minute := minute; dt_second := second |}.

(** [datetime.min] *)
Definition datetime_min : datetime :=
  {| dt_year := 1; dt_month := 1; dt_day := 1;
     dt_hour := 0; dt_minute := 0; dt_second := 0 |}.

Definition dt_fields (d : datetime) : list Z :=
  [dt_year d; dt_month d; dt_day d; dt_hour d; dt_minute d; dt_second d].

(** [a < b] and [a == b] on naive datetimes compare the fields in order. *)
Definition dt_lt (a b : datetime) : bool :=
  lex_lt Z.ltb Z.eqb (dt_fields a) (dt_fields b).

Definition dt_eqb (a b : datetime) : bool :=
  bool_decide (dt_fields a = dt_fields b).

(** ** [datetime.strptime]

    [_strptime] turns the format into a regular expression (a run of
    whitespace into [\s+], a directive into its group, anything else into
    itself), compiles it with IGNORECASE, matches it at the start of the
    data, refuses data left over, converts the groups and calls the
    constructor.  The directives below are those of [_TS_FORMAT], with the
    names of the C locale. *)

Definition chars (s : str) : regex :=
  foldr (fun c r => Cat (Atom (CChar c)) r) Eps s.

Definition one_of (words : list str) : regex :=
  match words with
  | [] => Eps
  | w :: ws => fold_left (fun r v => Alt r (chars v)) ws (chars w)
  end.

Definition a_month : list str :=
  map lit ["jan"; "feb"; "mar"; "apr"; "may"; "jun";
           "jul"; "aug"; "sep"; "oct"; "nov"; "dec"]%string.

Definition am_pm : list str := map lit ["am"; "pm"]%string.

Definition rng (lo hi : ascii) : regex := Atom (CRange lo hi).
Definition chr (c : ascii) : regex := Atom (CChar c).
Definition digit : regex := Atom CDigit.

Definition directive (d : ascii) : result regex :=
  if char_eqb d "b" then Ok (Group (one_of a_month))
  else if char_eqb d "d" then
    (* 3[0-1]|[1-2]\d|0[1-9]|[1-9]| [1-9] *)
    Ok (Group (Alt (Cat (chr "3") (rng "0" "1"))
              (Alt (Cat (rng "1" "2") digit)
              (Alt (Cat (chr "0") (rng "1" "9"))
              (Alt (rng "1" "9")
                   (Cat (chr " ") (rng "1" "9")))))))
  else if char_eqb d "Y" then
    (* \d\d\d\d *)
    Ok (Group (Cat digit (Cat digit (Cat digit digit))))
  else if char_eqb d "I" then
    (* 1[0-2]|0[1-9]|[1-9] *)
    Ok (Group (Alt (Cat (chr "1") (rng "0" "2"))
              (Alt (Cat (chr "0") (rng "1" "9"))
                   (rng "1" "9"))))
  else if char_eqb d "M" then
    (* [0-5]\d|\d *)
    Ok (Group (Alt (Cat (rng "0" "5") digit) digit))
  else if char_eqb d "S" then
    (* 6[0-1]|[0-5]\d|\d *)
    Ok (Group (Alt (Cat (chr "6") (rng "0" "1"))
              (Alt (Cat (rng "0" "5") digit) digit)))
  else if char_eqb d "p" then Ok (Group (one_of am_pm))
  else Raise ValueError.

(** [in_ws]: the previous character of the format was whitespace, and
    the [\s+] of its run is already there. *)
Fixpoint pattern_go (in_ws : bool) (format : str) : result regex :=
  match format with
  | [] => Ok Eps
  | c :: rest =>
      if char_eqb c "%" then
        match rest with
        | d :: rest' =>
            r ← directive d;
            p ← pattern_go false rest';
            Ok (Cat r p)
        | [] => Raise ValueError
        end
      else if isspace c then
        if in_ws then pattern_go true rest
        else p ← pattern_go true rest; Ok (Cat (Rep 1 CSpace) p)
      else p ← pattern_go false rest; Ok (Cat (chr c) p)
  end.

Definition pattern (format : str) : result regex := pattern_go false format.

(** The position of [x] in [l], as [list.index] counts it. *)
Fixpoint index_of (x : str) (l : list str) : option Z :=
  match l with
  | [] => None
  | y :: l' =>
      if str_eqb x y then Some 0
      else match index_of x l' with
           | Some i => Some (i + 1)
           | None => None
           end
  end.

(** The groups of [_TS_FORMAT] are, in order, b d Y I M S p. *)
Definition convert (g : list str) : result datetime :=
  match g with
  | [gb; gd; gY; gI; gM; gS; gp] =>
      match index_of (lower gb) ([] :: a_month) with
      | None => Raise ValueError
      | Some month =>
          day ← int gd;
          year ← int gY;
          hour ← int gI;
          let ampm := lower gp in
          let hour :=
            if str_eqb ampm (nth 0 am_pm [])
            then (if hour =? 12 then 0 else hour)
            else if str_eqb ampm (nth 1 am_pm [])
                 then (if negb (hour =? 12) then hour + 12 else hour)
                 else hour in
          minute ← int gM;
          second ← int gS;
          datetime_new year month day hour minute second
      end
  | _ => Raise ValueError
  end.

Definition strptime (data_string format : str) : result datetime :=
  format_regex ← pattern format;
  match re_match true format_regex data_string with
  | None => Raise ValueError            (* does not match format *)
  | Some (g, rest) =>
      if truthy rest then Raise ValueError   (* unconverted data remains *)
      else convert g
  end.

(** ** Timestamp Normalizer *)

Definition _TS_FORMAT : str := lit "%b %d, %Y %I:%M:%S %p".

(** [\s+(am|pm)\s*$] *)
Definition meridiem_re : regex :=
  Cat (Rep 1 CSpace)
      (Cat (Group (Alt (chars (lit "am")) (chars (lit "pm"))))
           (Cat (Rep 0 CSpace) Eol)).

(** [lambda m: " " + m.group(1).upper()] *)
Definition meridiem_upper (g : list str) : str :=
  lit " " ++ upper (nth 0 g []).

Definition _safe_parse_timestamp (raw : str) : result (option datetime) :=
  let raw := strip raw in
  if negb (truthy raw) then Ok None
  else
    let raw := join (lit " ") (split raw) in
    let raw := re_sub true meridiem_re meridiem_upper raw in
    match strptime raw _TS_FORMAT with
    | Ok d => Ok (Some d)
    | Raise _ => Ok None
    end.

(** ** HTML parsing + extraction *)

Record ParsedMessage := {
  sender_name : str;
  text : str;
  timestamp : option datetime;
  has_image : bool;
  image_count : Z;
  has_link : bool;
  link_count : Z
}.

(** What the BeautifulSoup queries of the program return on a document.
    The tree itself is not modelled: a message body is seen through the
    three queries made on it. *)
Record BodyView := {
  (** [body.select("img")], one entry per image *)
  body_imgs : list unit;
  (** [body.select("a[href]")]; each entry tells whether
      [a.select_one("img") is not None] *)
  body_links : list bool;
  (** [body.get_text("\n", strip=True)] once the reactions, the images
      with their wrapping anchors and the link targets are removed *)
  body_text : str
}.

Record SectionView := {
  (** [section.select_one("h2")] and its [get_text(strip=True)] *)
  sec_h2 : option str;
  (** [section.select_one("div._a6-p")] *)
  sec_body : option BodyView;
  (** [section.select_one("footer ._a72d")] and its [get_text(strip=True)] *)
  sec_footer : option str
}.

Record DocumentView := {
  (** [soup.select_one("header h1")] and its [get_text(strip=True)] *)
  doc_h1 : option str;
  (** [soup.select("main section._a6-g")] *)
  doc_sections : list SectionView
}.

Definition NL : ascii := "010"%char.

(** [\n{3,}] *)
Definition blank_lines_re : regex := Rep 3 (CChar NL).

Definition _extract_message_text_and_meta (section : SectionView)
  : str * bool * Z * bool * Z :=
  match sec_body section with
  | None => ([], false, 0, false, 0)
  | Some body =>
      let imgs := body_imgs body in
      let image_count := Z.of_nat (length imgs) in
      let has_image := 0 <? image_count in
      let all_links := body_links body in
      let link_count :=
        fold_left (fun (n : Z) (wraps_img : bool) =>
                     if wraps_img then n else n + 1)
                  all_links 0 in
      let has_link := 0 <? link_count in
      let text := body_text body in
      let text := strip (re_sub false blank_lines_re (fun _ => [NL; NL]) text) in
      (text, has_image, image_count, has_link, link_count)
  end.

(** One pass of the loop over the message sections. *)
Definition parse_section (section : SectionView) : result ParsedMessage :=
  let sender_name := default [] (sec_h2 section) in
  let '(text, has_image, image_count, has_link, link_count) :=
    _extract_message_text_and_meta section in
  let ts_raw := default [] (sec_footer section) in
  ts ← _safe_parse_timestamp ts_raw;
  Ok {| sender_name := sender_name; text := text; timestamp := ts;
        has_image := has_image; image_count := image_count;
        has_link := has_link; link_count := link_count |}.

Fixpoint parse_sections (sections : list SectionView)
  : result (list ParsedMessage) :=
  match sections with
  | [] => Ok []
  | section :: rest =>
      m ← parse_section section;
      ms ← parse_sections rest;
      Ok (m :: ms)
  end.

(** ** Paths and the file system *)

(** A path is the list of its parts. *)
Definition Path := list str.

(** [PurePath.__lt__] compares the parts. *)
Definition path_lt : Path -> Path -> bool := lex_lt str_lt str_eqb.

(** [path.parent] *)
Definition parent (p : Path) : Path := removelast p.

(** [p] and its ancestors, the nearest to the root first; the empty path
    (the directory the parts are relative to) is left out. *)
Definition lineage (p : Path) : list Path :=
  map (fun n => take n p) (seq 1 (length p)).

Record Row := {
  row_conversation_id : str;
  row_msg_id : Z;
  row_role : str;
  row_text : str;
  row_has_image : Z;
  row_image_count : Z;
  row_has_link : Z;
  row_link_count : Z;
  row_is_media_only : Z
}.

(** What a file holds.  The encodings of [json] and [csv] are not
    modelled: a file is seen as what was written to it.
    - [IdMapJson m]: the JSON text of a dict of strings, what
      [json.dumps] makes of the ID map [m] and [json.loads] reads back
      as [m].
    - [CsvTable table]: the text [csv.DictWriter] writes in
      [save_to_csv]: the header line with the names of [fieldnames],
      then a line for each row of [table], its fields in that order.
      It starts with the name of the first column, so it is no JSON
      text.
    - [NotJson]: any other text that is no JSON text.
    The ID map of the extractor is a dict of strings here.  A file with
    JSON of another kind in it (a list, a number, a dict with a value
    that is not a string), which [json.loads] would read, has no
    counterpart among these contents.  Every string of the model can be
    encoded in UTF-8, so writing a file fails only where the file
    system refuses it. *)
Inductive Content :=
| IdMapJson (m : gmap str str)
| CsvTable (table : list Row)
| NotJson.

(** What [print] is given. *)
Inductive Message :=
| MsgFound (n : Z)
| MsgErrorProcessing (fp : Path) (e : exn)
| MsgExtracted (total_messages : Z) (conversations : Z)
| MsgNoMessages
| MsgSaved (n : Z) (output_path : Path).

(** The trace of a run. *)
Inductive Event :=
| Printed (m : Message)
| Resolved (thread_key conversation_id : str)
| Parsing (fp : Path)
| Wrote (p : Path).

Record World := {
  dirs : gset Path;
  files : gmap Path Content;
  (** how many identifiers the random source has given out *)
  drawn : nat;
  trace : list Event
}.

Definition emit (e : Event) (w : World) : World :=
  {| dirs := dirs w; files := files w; drawn := drawn w;
     trace := trace w ++ [e] |}.

Definition print (m : Message) (w : World) : World := emit (Printed m) w.

(** [p.mkdir(parents=True, exist_ok=True)]: fails when [p] or one of its
    ancestors is a file, and makes the missing directories otherwise. *)
Definition mkdir_parents (p : Path) (w : World) : result World :=
  if existsb (fun a => bool_decide (is_Some (files w !! a))) (lineage p)
  then Raise OSError
  else Ok {| dirs := dirs w ∪ list_to_set (lineage p); files := files w;
             drawn := drawn w; trace := trace w |}.

(** Opening [p] for writing and writing [c]: fails on a directory. *)
Definition write_file (p : Path) (c : Content) (w : World) : result World :=
  if bool_decide (p ∈ dirs w) then Raise OSError
  else Ok (emit (Wrote p)
             {| dirs := dirs w; files := <[p := c]> (files w);
                drawn := drawn w; trace := trace w |}).

(** ** Dataset extraction *)

(** [sorted(l)] and [l.sort()]: a stable sort that compares with [<]
    only.  An element goes after those that are not greater than it. *)
Fixpoint insert_sorted {A} (lt : A -> A -> bool) (x : A) (l : list A)
  : list A :=
  match l with
  | [] => [x]
  | y :: l' => if lt x y then x :: l else y :: insert_sorted lt x l'
  end.

Definition sorted {A} (lt : A -> A -> bool) (l : list A) : list A :=
  fold_left (fun acc x => insert_sorted lt x acc) l [].

(** [d.setdefault(k, []).append(v)] on a dict kept in insertion order. *)
Fixpoint setdefault_append {V} (k : str) (v : V) (d : list (str * list V))
  : list (str * list V) :=
  match d with
  | [] => [(k, [v])]
  | (k', vs) :: d' =>
      if str_eqb k k' then (k', vs ++ [v]) :: d'
      else (k', vs) :: setdefault_append k v d'
  end.

(** [read_text] raises on a directory; [json.loads] raises
    [JSONDecodeError], a [ValueError], on a text that is no JSON text. *)
Definition load_id_map (path : Path) (w : World) : result (gmap str str) :=
  if bool_decide (is_Some (files w !! path) ∨ path ∈ dirs w) then
    match files w !! path with
    | Some (IdMapJson m) => Ok m
    | Some (CsvTable _) | Some NotJson => Raise ValueError
    | None => Raise OSError
    end
  else Ok ∅.

Definition save_id_map (path : Path) (id_map : gmap str str) (w : World)
  : result World :=
  w ← mkdir_parents (parent path) w;
  write_file path (IdMapJson id_map) w.

Definition infer_role (sender_name customer_name : str) : str :=
  if truthy sender_name && truthy customer_name
     && str_eqb (lower (strip sender_name)) (lower (strip customer_name))
  then lit "customer"
  else lit "assistant".

Record MessengerHTMLExtractor := {
  id_map_path : Path;
  id_map : gmap str str;
  rows : list Row
}.

Definition __init__ (id_map_path : Path) (w : World)
  : result MessengerHTMLExtractor :=
  m ← load_id_map id_map_path w;
  Ok {| id_map_path := id_map_path; id_map := m; rows := [] |}.

(** [(m.timestamp is None, m.timestamp or datetime.min)] *)
Definition sort_key (m : ParsedMessage) : bool * datetime :=
  (bool_decide (timestamp m = None), default datetime_min (timestamp m)).

(** [<] on these pairs: on the first components when they differ, on the
    second ones otherwise; [False < True]. *)
Definition key_lt (a b : bool * datetime) : bool :=
  if eqb (fst a) (fst b)
  then (if dt_eqb (snd a) (snd b) then false else dt_lt (snd a) (snd b))
  else negb (fst a) && fst b.

Definition int_of_bool (b : bool) : Z := if b then 1 else 0.

Definition make_row (conversation_id customer_name_final : str)
    (msg_index : Z) (m : ParsedMessage) : Row :=
  let role := infer_role (sender_name m) customer_name_final in
  let text_clean := strip (text m) in
  let is_media_only :=
    int_of_bool (negb (truthy text_clean) && (has_image m || has_link m)) in
  {| row_conversation_id := conversation_id;
     row_msg_id := msg_index;
     row_role := role;
     row_text := text_clean;
     row_has_image := int_of_bool (has_image m);
     row_image_count := image_count m;
     row_has_link := int_of_bool (has_link m);
     row_link_count := link_count m;
     row_is_media_only := is_media_only |}.

(** [enumerate(l, start)] *)
Fixpoint enumerate {A} (start : Z) (l : list A) : list (Z * A) :=
  match l with
  | [] => []
  | x :: l' => (start, x) :: enumerate (start + 1) l'
  end.

Definition fieldnames : list str :=
  map lit ["conversation_id"; "msg_id"; "role"; "text"; "has_image";
           "image_count"; "has_link"; "link_count"; "is_media_only"]%string.

Section Run.

(** The surroundings of a run: what [rglob("message_*.html")] finds under
    a directory, the SHA-256 digest of a document's resolved folder, the
    document BeautifulSoup makes of a file (or the exception reading it
    raises), and the identifiers [uuid4] gives, in the order of the
    calls. *)
Variable rglob_message_html : Path -> list Path.
Variable folder_digest : Path -> str.
Variable soup : Path -> result DocumentView.
Variable uuid4 : nat -> str.

Definition parse_messenger_html (html_path : Path)
  : result (str * list ParsedMessage) :=
  doc ← soup html_path;
  let customer_name := default [] (doc_h1 doc) in
  messages ← parse_sections (doc_sections doc);
  Ok (customer_name, messages).

Definition find_message_htmls (input_dir : Path) : list Path :=
  sorted path_lt
    (List.filter (fun fp => negb (bool_decide (lit "photos" ∈ fp)))
                 (rglob_message_html input_dir)).

Definition thread_key_for_file (html_path : Path) : str :=
  folder_digest html_path.

Definition get_or_create_conversation_id (id_map : gmap str str)
    (thread_key : str) (w : World) : str * gmap str str * World :=
  match id_map !! thread_key with
  | Some cid => (cid, id_map, w)
  | None =>
      let cid := uuid4 (drawn w) in
      (cid, <[thread_key := cid]> id_map,
       {| dirs := dirs w; files := files w; drawn := S (drawn w);
          trace := trace w |})
  end.

(** The body of the loop over a thread's documents. *)
Definition parse_step (acc : str * list ParsedMessage * World) (fp : Path)
  : str * list ParsedMessage * World :=
  let '(customer_name_final, all_msgs, w) := acc in
  let w := emit (Parsing fp) w in
  match parse_messenger_html fp with
  | Raise e => (customer_name_final, all_msgs, print (MsgErrorProcessing fp e) w)
  | Ok (customer_name, msgs) =>
      let customer_name_final :=
        if truthy customer_name && negb (truthy customer_name_final)
        then customer_name else customer_name_final in
      (customer_name_final, all_msgs ++ msgs, w)
  end.

(** The messages of a thread in their final order. *)
Definition order_messages (all_msgs : list ParsedMessage)
  : list ParsedMessage :=
  if existsb (fun m => negb (bool_decide (timestamp m = None))) all_msgs
  then sorted (fun a b => key_lt (sort_key a) (sort_key b)) all_msgs
  else all_msgs.

(** The body of the loop over the threads.  The state is the extractor,
    the world and [total_messages]. *)
Definition process_thread
    (st : MessengerHTMLExtractor * World * Z) (thread : str * list Path)
  : MessengerHTMLExtractor * World * Z :=
  let '(self, w, total_messages) := st in
  let '(thread_key, files) := thread in
  let '(conversation_id, id_map', w) :=
    get_or_create_conversation_id (id_map self) thread_key w in
  let w := emit (Resolved thread_key conversation_id) w in
  let '(customer_name_final, all_msgs, w) :=
    fold_left parse_step (sorted path_lt files) ([], [], w) in
  let all_msgs := order_messages all_msgs in
  let new_rows :=
    map (fun '(msg_index, m) =>
           make_row conversation_id customer_name_final msg_index m)
        (enumerate 1 all_msgs) in
  ({| id_map_path := id_map_path self; id_map := id_map';
      rows := rows self ++ new_rows |},
   w, total_messages + Z.of_nat (length new_rows)).

(** [threads], as [process_directory] builds it. *)
Definition group_threads (html_files : list Path) : list (str * list Path) :=
  fold_left (fun threads hp =>
               setdefault_append (thread_key_for_file hp) hp threads)
            html_files [].

(** [process_directory] up to the point where the ID map is saved. *)
Definition process_threads (self : MessengerHTMLExtractor)
    (input_dir : Path) (w : World)
  : list (str * list Path) * (MessengerHTMLExtractor * World * Z) :=
  let html_files := find_message_htmls input_dir in
  let w := print (MsgFound (Z.of_nat (length html_files))) w in
  let threads := group_threads html_files in
  (threads,
   fold_left process_thread
     (sorted (fun x y => str_lt (fst x) (fst y)) threads) (self, w, 0)).

Definition process_directory (self : MessengerHTMLExtractor)
    (input_dir : Path) (w : World)
  : result (MessengerHTMLExtractor * World) :=
  let '(threads, (self, w, total_messages)) :=
    process_threads self input_dir w in
  w ← save_id_map (id_map_path self) (id_map self) w;
  Ok (self,
      print (MsgExtracted total_messages (Z.of_nat (length threads))) w).

Definition save_to_csv (self : MessengerHTMLExtractor) (output_path : Path)
    (w : World) : result World :=
  match rows self with
  | [] => Ok (print MsgNoMessages w)
  | _ :: _ =>
      w ← mkdir_parents (parent output_path) w;
      w ← write_file output_path (CsvTable (rows self)) w;
      Ok (print (MsgSaved (Z.of_nat (length (rows self))) output_path) w)
  end.

End Run.

(** * Notions of the specification *)

(** ** Timestamps as they are written

    A [Stamp] is a reading of the twelve-hour clock on a day of the
    calendar; [written t s] says that [s] writes it in the fixed format
    [month-abbrev day, 4-digit-year hour:minute:second meridiem], with
    any case of the letters and any whitespace where the format has a
    space. *)

Record Stamp := {
  st_month : Z;
  st_day : Z;
  st_year : Z;
  st_hour : Z;
  st_minute : Z;
  st_second : Z;
  st_pm : bool
}.

Definition valid_stamp (t : Stamp) : Prop :=
  1 <= st_year t <= 9999 /\ 1 <= st_month t <= 12
  /\ 1 <= st_day t <= _days_in_month (st_year t) (st_month t)
  /\ 1 <= st_hour t <= 12
  /\ 0 <= st_minute t <= 59 /\ 0 <= st_second t <= 59.

(** Midnight is 12 AM and noon is 12 PM. *)
Definition hour24 (t : Stamp) : Z :=
  st_hour t mod 12 + (if st_pm t then 12 else 0).

Definition stamp_datetime (t : Stamp) : datetime :=
  {| dt_year := st_year t; dt_month := st_month t; dt_day := st_day t;
     dt_hour := hour24 t; dt_minute := st_minute t;
     dt_second := st_second t |}.

(** The number of the day in the proleptic Gregorian calendar, 1 for
    January 1 of year 1. *)
Definition _days_before_year (year : Z) : Z :=
  let y := year - 1 in y * 365 + y / 4 - y / 100 + y / 400.

Definition _DAYS_BEFORE_MONTH : list Z :=
  [-1; 0; 31; 59; 90; 120; 151; 181; 212; 243; 273; 304; 334].

Definition _days_before_month (year month : Z) : Z :=
  nth (Z.to_nat month) _DAYS_BEFORE_MONTH 0
  + (if (2 <? month) && _is_leap year then 1 else 0).

Definition _ymd2ord (year month day : Z) : Z :=
  _days_before_year year + _days_before_month year month + day.

(** The instant a datetime denotes, in seconds from the start of day 0;
    the instant of a stamp is that of its datetime. *)
Definition dt_instant (d : datetime) : Z :=
  ((_ymd2ord (dt_year d) (dt_month d) (dt_day d) * 24 + dt_hour d) * 60
   + dt_minute d) * 60 + dt_second d.

Definition instant (t : Stamp) : Z := dt_instant (stamp_datetime t).

(** A datetime the constructor accepts. *)
Definition valid_datetime (d : datetime) : Prop :=
  1 <= dt_year d <= 9999 /\ 1 <= dt_month d <= 12
  /\ 1 <= dt_day d <= _days_in_month (dt_year d) (dt_month d)
  /\ 0 <= dt_hour d <= 23
  /\ 0 <= dt_minute d <= 59 /\ 0 <= dt_second d <= 59.

Definition blank (w : str) : Prop := forallb isspace w = true.

Definition gap (w : str) : Prop := w <> [] /\ blank w.

(** A token has no whitespace in it. *)
Definition token (s : str) : Prop :=
  forallb (fun c => negb (isspace c)) s = true.

(** [s] is [v] in decimal, on [lo] to [hi] digits. *)
Definition numeral (lo hi : nat) (v : Z) (s : str) : Prop :=
  (lo <= length s <= hi)%nat /\ forallb isdigit s = true
  /\ int_of_digits s = v.

Definition month_abbrev (m : Z) (s : str) : Prop :=
  1 <= m <= 12 /\ lower s = nth (Z.to_nat m) ([] :: a_month) [].

Definition meridiem (pm : bool) (s : str) : Prop :=
  lower s = nth (if pm then 1 else 0)%nat am_pm [].

Inductive written (t : Stamp) : str -> Prop :=
| Written mon dd yyyy hh mm ss mer w0 w1 w2 w3 w4 w5 :
    month_abbrev (st_month t) mon ->
    numeral 1 2 (st_day t) dd ->
    numeral 4 4 (st_year t) yyyy ->
    numeral 1 2 (st_hour t) hh ->
    numeral 1 2 (st_minute t) mm ->
    numeral 1 2 (st_second t) ss ->
    meridiem (st_pm t) mer ->
    blank w0 -> gap w1 -> gap w2 -> gap w3 -> gap w4 -> blank w5 ->
    written t (w0 ++ mon ++ w1 ++ dd ++ lit "," ++ w2 ++ yyyy ++ w3
               ++ hh ++ lit ":" ++ mm ++ lit ":" ++ ss ++ w4 ++ mer ++ w5).

(** A string is in the fixed format when it writes a stamp that exists. *)
Definition fixed_format (s : str) : Prop :=
  exists t, valid_stamp t /\ written t s.

(** What [_safe_parse_timestamp] hands to [strptime]: the input with its
    whitespace collapsed and its trailing meridiem in capitals. *)
Definition normalized (raw : str) : str :=
  re_sub true meridiem_re meridiem_upper
         (join (lit " ") (split (strip raw))).

(** ** The language of a regular expression

    [accepts ic r w rest g]: [r] matches [w] when [rest] follows, and its
    groups are then [g]. *)

Inductive accepts (ic : bool) : regex -> str -> str -> list str -> Prop :=
| acc_eps rest : accepts ic Eps [] rest []
| acc_atom c x rest :
    cls_match ic c x = true -> accepts ic (Atom c) [x] rest []
| acc_cat r1 r2 w1 w2 rest g1 g2 :
    accepts ic r1 w1 (w2 ++ rest) g1 -> accepts ic r2 w2 rest g2 ->
    accepts ic (Cat r1 r2) (w1 ++ w2) rest (g1 ++ g2)
| acc_alt_l r1 r2 w rest g :
    accepts ic r1 w rest g -> accepts ic (Alt r1 r2) w rest g
| acc_alt_r r1 r2 w rest g :
    accepts ic r2 w rest g -> accepts ic (Alt r1 r2) w rest g
| acc_rep min c w rest :
    forallb (cls_match ic c) w = true -> (min <= length w)%nat ->
    accepts ic (Rep min c) w rest []
| acc_group r w rest g :
    accepts ic r w rest g -> accepts ic (Group r) w rest (g ++ [w])
| acc_eol rest :
    rest = [] \/ rest = [NL] -> accepts ic Eol [] rest [].

(** The group of a directive of [_TS_FORMAT]. *)
Definition re_of (d : ascii) : regex :=
  match directive d with
  | Ok r => r
  | Raise _ => Eps
  end.

Definition spaces : regex := Rep 1 CSpace.

(** [_TS_FORMAT] as a regular expression. *)
Definition ts_regex : regex :=
  Cat (re_of "b") (Cat spaces
  (Cat (re_of "d") (Cat (chr ",") (Cat spaces
  (Cat (re_of "Y") (Cat spaces
  (Cat (re_of "I") (Cat (chr ":")
  (Cat (re_of "M") (Cat (chr ":")
  (Cat (re_of "S") (Cat spaces
  (Cat (re_of "p") Eps))))))))))))).

(** What is inside the group of a directive. *)
Definition inner (r : regex) : regex :=
  match r with
  | Group r' => r'
  | _ => r
  end.

(** A timestamp with one space at each gap. *)
Definition canonical (mon dd yyyy hh mm ss mer : str) : str :=
  mon ++ " "%char :: dd ++ ","%char :: " "%char :: yyyy ++ " "%char
  :: hh ++ ":"%char :: mm ++ ":"%char :: ss ++ " "%char :: mer.

(** ** Lines of a text *)

(** [s.split("\n")] *)
Fixpoint lines_go (cur : str) (s : str) : list str :=
  match s with
  | [] => [rev cur]
  | c :: s' =>
      if char_eqb c NL then rev cur :: lines_go [] s'
      else lines_go (c :: cur) s'
  end.

Definition lines (s : str) : list str := lines_go [] s.

(** [re.sub(r"\n{3,}", "\n\n", text)] *)
Definition collapse_newlines (text : str) : str :=
  re_sub false blank_lines_re (fun _ => [NL; NL]) text.

(** The text a message body yields, from what [get_text] returns. *)
Definition clean_text (body_text : str) : str :=
  strip (collapse_newlines body_text).

Definition starts_nl (s : str) : bool :=
  match s with c :: _ => char_eqb c NL | [] => false end.

Definition ends_nl (s : str) : bool := starts_nl (rev s).

Definition starts_space (s : str) : bool :=
  match s with c :: _ => isspace c | [] => false end.

Definition ends_space (s : str) : bool := starts_space (rev s).

(** ** Stable sorting *)

Section Stable.
Context {A : Type} (lt : A -> A -> bool).

(** [a] and [b] tie when neither is smaller. *)
Definition ties (a b : A) : bool := negb (lt a b) && negb (lt b a).

(** [l'] is [l] sorted, the elements that tie in the order of [l]. *)
(** [a] is not greater than [b]. *)
Definition not_gt (a b : A) : Prop := lt b a = false.

Definition stable_sort_of (l l' : list A) : Prop :=
  l' ≡ₚ l
  /\ StronglySorted not_gt l'
  /\ forall x, List.filter (ties x) l' = List.filter (ties x) l.

End Stable.

(** ** The role as the specification words it

    Two labels are equal under case-insensitive comparison when their
    lower-case forms are the same string. *)

Definition role_as_specified (sender_name customer_name : str) : str :=
  if bool_decide (sender_name <> [] /\ customer_name <> []
                  /\ lower sender_name = lower customer_name)
  then lit "customer" else lit "assistant".

(** ** Orders *)

(** A decidable strict total order, with the equality test that goes
    with it. *)
Class StrictOrderB {A : Type} (lt eqb : A -> A -> bool) := {
  eqb_eq : forall x y, eqb x y = true <-> x = y;
  ltb_irrefl : forall x, lt x x = false;
  ltb_trans : forall x y z, lt x y = true -> lt y z = true -> lt x z = true;
  ltb_total : forall x y, lt x y = true \/ x = y \/ lt y x = true
}.

(** ** Threads *)

Definition add_trace (es : list Event) (w : World) : World :=
  {| dirs := dirs w; files := files w; drawn := drawn w;
     trace := trace w ++ es |}.

(** The message order of one thread: by [sort_key]. *)
Definition msg_lt (a b : ParsedMessage) : bool :=
  key_lt (sort_key a) (sort_key b).

Definition dated (m : ParsedMessage) : bool :=
  negb (bool_decide (timestamp m = None)).

Section RunSpec.
Variable rglob_message_html : Path -> list Path.
Variable folder_digest : Path -> str.
Variable soup : Path -> result DocumentView.
Variable uuid4 : nat -> str.

(** The messages and the title a document contributes: none when it
    cannot be parsed. *)
Definition messages_of (fp : Path) : list ParsedMessage :=
  match parse_messenger_html soup fp with
  | Ok (_, msgs) => msgs
  | Raise _ => []
  end.

Definition customer_of (fp : Path) : str :=
  match parse_messenger_html soup fp with
  | Ok (customer_name, _) => customer_name
  | Raise _ => []
  end.

(** The concatenation of the messages of a thread's documents, the
    documents in the order of their paths. *)
Definition thread_messages (files : list Path) : list ParsedMessage :=
  flat_map messages_of (sorted path_lt files).

(** The first title that is not empty. *)
Definition thread_customer (files : list Path) : str :=
  default [] (head (List.filter truthy (map customer_of (sorted path_lt files)))).

(** What parsing one document leaves in the trace. *)
Definition parse_events (fp : Path) : list Event :=
  Parsing fp ::
  match parse_messenger_html soup fp with
  | Raise e => [Printed (MsgErrorProcessing fp e)]
  | Ok _ => []
  end.

(** What processing one thread leaves in the trace. *)
Definition thread_events (conversation_id : str)
    (thread : str * list Path) : list Event :=
  Resolved thread.1 conversation_id
  :: flat_map parse_events (sorted path_lt thread.2).

(** The identifier a thread gets: the stored one, or the next one of the
    random source. *)
Definition resolved_id (id_map : gmap str str) (w : World) (key : str) : str :=
  default (uuid4 (drawn w)) (id_map !! key).

(** The rows of a thread, given its conversation identifier. *)
Definition thread_rows (conversation_id : str) (files : list Path)
  : list Row :=
  map (fun '(msg_index, m) =>
         make_row conversation_id (thread_customer files) msg_index m)
      (enumerate 1 (order_messages (thread_messages files))).

(** The state after the loop over the threads [ts]. *)
Definition after_threads (ts : list (str * list Path))
    (st : MessengerHTMLExtractor * World * Z)
  : MessengerHTMLExtractor * World * Z :=
  fold_left (process_thread soup uuid4) ts st.

(** The threads of a run, in the order they are processed. *)
Definition run_threads (input_dir : Path) : list (str * list Path) :=
  sorted (fun x y => str_lt (fst x) (fst y))
    (group_threads folder_digest
       (find_message_htmls rglob_message_html input_dir)).

(** The extractor at the end of the loop over the threads. *)
Definition run_extractor (self : MessengerHTMLExtractor) (input_dir : Path)
    (w : World) : MessengerHTMLExtractor :=
  (process_threads rglob_message_html folder_digest soup uuid4
     self input_dir w).2.1.1.

Definition run_world (self : MessengerHTMLExtractor) (input_dir : Path)
    (w : World) : World :=
  (process_threads rglob_message_html folder_digest soup uuid4
     self input_dir w).2.1.2.

(** The rows of one thread of a run: its identifier is the one the ID
    map holds for its key at the end. *)
Definition run_block (self : MessengerHTMLExtractor) (input_dir : Path)
    (w : World) (thread : str * list Path) : list Row :=
  thread_rows (default ([] : str) (id_map (run_extractor self input_dir w) !! thread.1))
              thread.2.

End RunSpec.

(** The media-only flag of a row is as the specification says. *)
Definition media_only_ok (r : Row) : Prop :=
  row_is_media_only r = 1
  <-> row_text r = [] /\ (row_has_image r = 1 \/ row_has_link r = 1).

(** [1, 2, ..., k] *)
Definition one_to (k : nat) : list Z := map Z.of_nat (seq 1 k).

(** ** A small export, for examples

    Two folders under [data]: the thread of Alice in two documents whose
    messages interleave in time, and a thread whose only document cannot
    be read.  A third document lies in an attachment folder. *)

Definition sample_path (parts : list string) : Path := map lit parts.

Definition alice_1 : Path := sample_path ["data"; "alice"; "message_1.html"].
Definition alice_2 : Path := sample_path ["data"; "alice"; "message_2.html"].
Definition carol_1 : Path := sample_path ["data"; "carol"; "message_1.html"].
Definition photo_1 : Path :=
  sample_path ["data"; "alice"; "photos"; "message_9.html"].

Definition sample_rglob (input_dir : Path) : list Path :=
  [carol_1; alice_2; photo_1; alice_1].

(** A stand-in for the digest: the folder itself, its parts joined. *)
Definition sample_digest (fp : Path) : str := join (lit "/") (parent fp).

Definition sample_section (sender body stamp : string) : SectionView :=
  {| sec_h2 := Some (lit sender);
     sec_body := Some {| body_imgs := []; body_links := [];
                         body_text := lit body |};
     sec_footer := Some (lit stamp) |}.

(** A message that is an image and nothing else. *)
Definition image_section (sender stamp : string) : SectionView :=
  {| sec_h2 := Some (lit sender);
     sec_body := Some {| body_imgs := [tt]; body_links := [true];
                         body_text := [] |};
     sec_footer := Some (lit stamp) |}.

Definition sample_soup (fp : Path) : result DocumentView :=
  if bool_decide (fp = alice_1) then
    Ok {| doc_h1 := Some (lit "Alice");
          doc_sections :=
            [sample_section "Alice" "hello" "Jan 11, 2026 9:02:58 pm";
             sample_section "Shop" "price?" "Jan 11, 2026  9:10:00 PM";
             image_section "alice" "Jan 12, 2026 12:00:01 am"] |}
  else if bool_decide (fp = alice_2) then
    Ok {| doc_h1 := None;
          doc_sections :=
            [sample_section "Shop" "hi" "Jan 11, 2026 9:05:00 pm";
             sample_section "Alice" "thanks" "Jan 11, 2026 11:59:59 pm";
             sample_section "Shop" "note" "someday"] |}
  else Raise OSError.

Definition sample_uuid4 (n : nat) : str :=
  lit "uuid-" ++ [ascii_of_nat (48 + n)].

Definition sample_world : World :=
  {| dirs := ∅; files := ∅; drawn := 0; trace := [] |}.

Definition sample_id_map_path : Path :=
  sample_path ["out"; "conversation_id_map.json"].

Definition sample_extractor : MessengerHTMLExtractor :=
  {| id_map_path := sample_id_map_path;
     id_map := {[ lit "data/alice" := lit "known-alice" ]};
     rows := [] |}.

Definition sample_run : result (MessengerHTMLExtractor * World) :=
  process_directory sample_rglob sample_digest sample_soup sample_uuid4
    sample_extractor (sample_path ["data"]) sample_world.

Definition sample_result : MessengerHTMLExtractor * World :=
  match sample_run with
  | Ok r => r
  | Raise _ => (sample_extractor, sample_world)
  end.

(** Two timestamps. *)
(** Nine in the evening, and a second to midnight of the same day. *)
Definition stamp_evening : Stamp :=
  {| st_month := 1; st_day := 11; st_year := 2026;
     st_hour := 9; st_minute := 2; st_second := 58; st_pm := true |}.

Definition stamp_midnight : Stamp :=
  {| st_month := 1; st_day := 11; st_year := 2026;
     st_hour := 11; st_minute := 59; st_second := 59; st_pm := true |}.


(** ** The command line *)

(** [path.exists()] *)
Definition path_exists (p : Path) (w : World) : bool :=
  bool_decide (is_Some (files w !! p) ∨ p ∈ dirs w).

(** The arguments of a run, as paths. *)
Record Args := {
  args_input_dir : Path;
  args_output : Path;
  args_id_map : Path
}.

Definition default_output : Path :=
  map lit ["data"; "data_processed"; "cleaned_messages.csv"]%string.

Definition default_id_map : Path :=
  map lit ["data"; "data_processed"; "conversation_id_map.json"]%string.

(** [parser.parse_args()]: [--input_dir] is required, the two others
    have defaults. *)
Definition parse_args (input_dir : Path) (output id_map : option Path)
  : Args :=
  {| args_input_dir := input_dir;
     args_output := default default_output output;
     args_id_map := default default_id_map id_map |}.

(** What [main] prints itself. *)
Inductive MainMessage :=
| MsgInputMissing (input_dir : Path)
| MsgExtractedRows (n : Z).

Section Main.
Variable rglob_message_html : Path -> list Path.
Variable folder_digest : Path -> str.
Variable soup : Path -> result DocumentView.
Variable uuid4 : nat -> str.

(** [main] returns its exit code.  The lines it prints itself are given
    beside the world: the first one is all a run prints when the input
    directory is missing, the second one comes after all that the
    extractor prints. *)
Definition main (args : Args) (w : World)
  : result (Z * World * list MainMessage) :=
  let input_dir := args_input_dir args in
  let output_path := args_output args in
  let id_map_path := args_id_map args in
  if negb (path_exists input_dir w)
  then Ok (2, w, [MsgInputMissing input_dir])
  else
    extractor ← __init__ id_map_path w;
    '(extractor, w) ← process_directory rglob_message_html folder_digest
                        soup uuid4 extractor input_dir w;
    w ← save_to_csv extractor output_path w;
    Ok (0, w,
        match rows extractor with
        | [] => []
        | _ :: _ => [MsgExtractedRows (Z.of_nat (length (rows extractor)))]
        end).

End Main.

(** Whether a call has returned. *)
Definition is_ok {A} (r : result A) : bool :=
  match r with Ok _ => true | Raise _ => false end.

(** ** The messages of a document *)

(** A message comes from a section: its sender is the heading, its
    timestamp what the footer parses to, the rest what the body
    yields. *)
Definition message_of_section (section : SectionView) (m : ParsedMessage)
  : Prop :=
  sender_name m = default [] (sec_h2 section)
  /\ _safe_parse_timestamp (default [] (sec_footer section))
     = Ok (timestamp m)
  /\ (text m, has_image m, image_count m, has_link m, link_count m)
     = _extract_message_text_and_meta section.

(** [get_text(strip=True)] strips each string of an element and joins
    those that are not empty: what it returns has no whitespace around
    it.  The title of a document and the senders of its sections are
    such texts. *)
Definition labels_trimmed (doc : DocumentView) : Prop :=
  (forall title, doc_h1 doc = Some title -> strip title = title)
  /\ forall section sender,
       section ∈ doc_sections doc -> sec_h2 section = Some sender ->
       strip sender = sender.

(** ** What a row carries of its message *)

Definition row_payload (r : Row) : str * Z * Z * Z * Z :=
  (row_text r, row_has_image r, row_image_count r, row_has_link r,
   row_link_count r).

Definition message_payload (m : ParsedMessage) : str * Z * Z * Z * Z :=
  (strip (text m), int_of_bool (has_image m), image_count m,
   int_of_bool (has_link m), link_count m).

(** Another export: the folder of Bob, and a random source that never
    repeats itself. *)
Definition bob_1 : Path := sample_path ["data"; "bob"; "message_1.html"].

Definition counting_uuid4 (n : nat) : str := lit "uuid-" ++ repeat "x"%char n.

Definition two_threads_rglob (input_dir : Path) : list Path :=
  [bob_1; alice_1; alice_2].

Definition two_threads_soup (fp : Path) : result DocumentView :=
  if bool_decide (fp = bob_1) then
    Ok {| doc_h1 := Some (lit "Bob");
          doc_sections :=
            [sample_section "Bob" "ok" "Feb 1, 2026 10:00:00 am"] |}
  else sample_soup fp.

(** A search that finds an attachment and nothing else. *)
Definition photos_rglob (input_dir : Path) : list Path := [photo_1].

Definition fresh_extractor : MessengerHTMLExtractor :=
  {| id_map_path := sample_id_map_path; id_map := ∅; rows := [] |}.

Definition two_threads_run : result (MessengerHTMLExtractor * World) :=
  process_directory two_threads_rglob sample_digest two_threads_soup
    counting_uuid4 fresh_extractor (sample_path ["data"]) sample_world.

Definition two_threads_result : MessengerHTMLExtractor * World :=
  match two_threads_run with
  | Ok r => r
  | Raise _ => (fresh_extractor, sample_world)
  end.

(** A run from the command line, with the default output paths, in a
    world where the input directory exists. *)
Definition data_world : World :=
  {| dirs := {[ sample_path ["data"] ]}; files := ∅; drawn := 0;
     trace := [] |}.

Definition sample_main : result (Z * World * list MainMessage) :=
  main two_threads_rglob sample_digest two_threads_soup counting_uuid4
    (parse_args (sample_path ["data"]) None None) data_world.

Definition sample_main_result : Z * World * list MainMessage :=
  match sample_main with
  | Ok r => r
  | Raise _ => (1, data_world, [])
  end.



(** * Proofs *)

(** ** Characters *)

Lemma char_eqb_eq (a b : ascii) : char_eqb a b = true <-> a = b.
Proof.
  unfold char_eqb, ord. rewrite N.eqb_eq. split; [|congruence].
  intros H. rewrite <- (ascii_N_embedding a), <- (ascii_N_embedding b).
  congruence.
Qed.

Lemma char_eqb_refl (a : ascii) : char_eqb a a = true.
Proof. now apply char_eqb_eq. Qed.

Lemma char_eqb_neq (a b : ascii) : char_eqb a b = false <-> a <> b.
Proof.
  rewrite <- char_eqb_eq. destruct (char_eqb a b); split; congruence.
Qed.

Lemma str_eqb_eq (a b : str) : str_eqb a b = true <-> a = b.
Proof. unfold str_eqb. apply bool_decide_eq_true. Qed.

(** ** [strip] *)

Lemma lstrip_starts s : starts_space (lstrip s) = false.
Proof.
  induction s as [|c s IH]; simpl; [done|].
  destruct (isspace c) eqn:E; simpl; auto.
Qed.

Lemma lstrip_fixed s : starts_space s = false -> lstrip s = s.
Proof. destruct s as [|c s]; simpl; [done|]. now intros ->. Qed.

Lemma lstrip_blank w s : blank w -> lstrip (w ++ s) = lstrip s.
Proof.
  unfold blank. induction w as [|c w IH]; simpl; [done|].
  intros [-> H]%andb_prop. auto.
Qed.

Lemma lstrip_suffix s : exists w, blank w /\ s = w ++ lstrip s.
Proof.
  induction s as [|c s (w & Hw & IH)]; simpl.
  - exists []. done.
  - destruct (isspace c) eqn:E.
    + exists (c :: w). split; [unfold blank; simpl; now rewrite E|].
      simpl. congruence.
    + exists []. done.
Qed.

(** What [lstrip] keeps ends as its argument does, unless nothing is
    kept. *)
Lemma lstrip_rev_starts s :
  lstrip s <> [] -> starts_space (rev (lstrip s)) = starts_space (rev s).
Proof.
  destruct (lstrip_suffix s) as (w & Hw & E). intros Hne.
  rewrite E at 2. rewrite rev_app_distr.
  destruct (rev (lstrip s)) as [|c r] eqn:Er; [|done].
  apply (f_equal (@rev _)) in Er. rewrite rev_involutive in Er. done.
Qed.

Lemma strip_starts s : starts_space (strip s) = false.
Proof.
  unfold strip, rstrip.
  destruct (lstrip (rev (lstrip s))) as [|c r] eqn:E; [done|].
  assert (Hne : lstrip (rev (lstrip s)) <> []) by (rewrite E; done).
  pose proof (lstrip_rev_starts _ Hne) as H.
  rewrite rev_involutive, lstrip_starts in H. now rewrite <- E.
Qed.

Lemma strip_ends s : ends_space (strip s) = false.
Proof.
  unfold ends_space, strip, rstrip. rewrite rev_involutive.
  apply lstrip_starts.
Qed.

Lemma strip_fixed s :
  starts_space s = false -> ends_space s = false -> strip s = s.
Proof.
  intros H1 H2. unfold strip, rstrip. rewrite (lstrip_fixed s H1).
  rewrite (lstrip_fixed (rev s) H2). apply rev_involutive.
Qed.

Lemma strip_idem s : strip (strip s) = strip s.
Proof. apply strip_fixed; [apply strip_starts | apply strip_ends]. Qed.

(** ** Role inference *)

Lemma truthy_true (s : str) : truthy s = true <-> s <> [].
Proof. destruct s; simpl; split; congruence. Qed.

Lemma lit_customer_assistant : lit "customer" <> lit "assistant".
Proof. discriminate. Qed.

Lemma infer_role_customer s c :
  infer_role s c = lit "customer"
  <-> s <> [] /\ c <> [] /\ lower (strip s) = lower (strip c).
Proof.
  unfold infer_role.
  destruct (truthy s && truthy c
            && str_eqb (lower (strip s)) (lower (strip c))) eqn:E.
  - apply andb_prop in E as [[Hs Hc]%andb_prop He].
    apply truthy_true in Hs, Hc. apply str_eqb_eq in He. tauto.
  - split; [intros H; symmetry in H; now apply lit_customer_assistant in H|].
    intros (Hs & Hc & He).
    apply truthy_true in Hs, Hc. apply str_eqb_eq in He.
    rewrite Hs, Hc, He in E. discriminate.
Qed.

Lemma infer_role_cases s c :
  infer_role s c = lit "customer" \/ infer_role s c = lit "assistant".
Proof. unfold infer_role. destruct (_ && _); auto. Qed.

(** On labels without whitespace around them, as [get_text(strip=True)]
    gives them, the role is the one the specification words. *)
Lemma infer_role_trimmed s c :
  strip s = s -> strip c = c -> infer_role s c = role_as_specified s c.
Proof.
  intros Hs Hc. unfold role_as_specified.
  destruct (infer_role_cases s c) as [H|H]; rewrite H.
  - apply infer_role_customer in H. rewrite Hs, Hc in H.
    now rewrite bool_decide_eq_true_2.
  - rewrite bool_decide_eq_false_2; [done|].
    intros H'. assert (Hr : infer_role s c = lit "customer").
    { apply infer_role_customer. now rewrite Hs, Hc. }
    rewrite H in Hr. symmetry in Hr. now apply lit_customer_assistant in Hr.
Qed.

(** [infer_role] trims both labels before it compares them: a label
    with whitespace around it, which [get_text(strip=True)] never
    gives, would match the customer name it is equal to once trimmed. *)
Lemma infer_role_trims_before_comparing :
  infer_role (lit "jane doe ") (lit "Jane Doe") = lit "customer"
  /\ role_as_specified (lit "jane doe ") (lit "Jane Doe") = lit "assistant".
Proof. split; vm_compute; reflexivity. Qed.

(** The role for any two labels: "customer" if and only if both are
    non-empty and equal after trimming and lower-casing, "assistant" in
    every other case. *)
Lemma infer_role_customer_iff :
  (forall sender customer,
      (infer_role sender customer = lit "customer"
       <-> sender <> [] /\ customer <> []
           /\ lower (strip sender) = lower (strip customer))
      /\ (infer_role sender customer <> lit "customer"
          <-> infer_role sender customer = lit "assistant"))
  /\ infer_role (lit "jane doe") (lit "Jane Doe") = lit "customer"
  /\ infer_role (lit "Support Team") (lit "Jane Doe") = lit "assistant".
Proof.
  split; [|split; vm_compute; reflexivity].
  intros s c. split; [apply infer_role_customer|].
  destruct (infer_role_cases s c) as [H|H]; rewrite H; split; done.
Qed.

(** ** Substitution *)

Lemma sub_go_skip ic r repl n s :
  sub_go ic r repl n s = sub_go ic r repl O (drop n s).
Proof.
  revert n. induction s as [|x s IH]; intros [|n]; try reflexivity.
  simpl sub_go at 1. rewrite IH. reflexivity.
Qed.

Lemma sub_go_here ic r repl x s :
  sub_go ic r repl O (x :: s)
  = match re_match ic r (x :: s) with
    | Some (g, rest) =>
        match (length (x :: s) - length rest)%nat with
        | S n => repl g ++ sub_go ic r repl n s
        | O => x :: sub_go ic r repl O s
        end
    | None => x :: sub_go ic r repl O s
    end.
Proof. reflexivity. Qed.

(** ** Runs of newlines *)

Lemma rep_newlines {R} (f : str -> R) n min q :
  starts_nl q = false ->
  rep_match false (CChar NL) min (repeat NL n ++ q) (fun s' => Some (f s'))
  = if (min <=? n)%nat then Some (f q) else None.
Proof.
  intros Hq. revert min. induction n as [|n IH]; intros min.
  - simpl repeat. simpl app.
    destruct q as [|x q]; simpl.
    + now destruct min.
    + simpl in Hq. rewrite Hq. now destruct min.
  - cbn [repeat app rep_match cls_match].
    rewrite char_eqb_refl, IH.
    destruct min as [|min]; simpl; [reflexivity|].
    now destruct (min <=? n)%nat.
Qed.

Lemma match_newlines n q :
  starts_nl q = false ->
  re_match false blank_lines_re (repeat NL n ++ q)
  = if (3 <=? n)%nat then Some ([], q) else None.
Proof.
  intros Hq. unfold re_match, blank_lines_re. simpl rmatch.
  now rewrite (rep_newlines (fun s' => ([], s'))).
Qed.

Lemma collapse_other c s :
  char_eqb c NL = false ->
  collapse_newlines (c :: s) = c :: collapse_newlines s.
Proof.
  intros Hc. unfold collapse_newlines, re_sub. rewrite sub_go_here.
  change (c :: s) with (repeat NL 0 ++ c :: s).
  rewrite match_newlines by exact Hc. reflexivity.
Qed.

Lemma collapse_run n q :
  starts_nl q = false ->
  collapse_newlines (repeat NL n ++ q)
  = repeat NL (Nat.min n 2) ++ collapse_newlines q.
Proof.
  intros Hq.
  assert (Hstep : forall m,
            collapse_newlines (repeat NL (S m) ++ q)
            = if (3 <=? S m)%nat then [NL; NL] ++ collapse_newlines q
              else NL :: collapse_newlines (repeat NL m ++ q)).
  { intros m. unfold collapse_newlines, re_sub.
    change (repeat NL (S m) ++ q) with (NL :: (repeat NL m ++ q)) at 1.
    rewrite sub_go_here.
    change (NL :: (repeat NL m ++ q)) with (repeat NL (S m) ++ q).
    rewrite match_newlines by exact Hq.
    destruct (3 <=? S m)%nat; [|reflexivity].
    rewrite length_app, repeat_length.
    replace (S m + length q - length q)%nat with (S m) by lia.
    rewrite sub_go_skip, drop_app_length'; [reflexivity|].
    now rewrite repeat_length. }
  destruct n as [|[|[|n]]].
  - reflexivity.
  - rewrite Hstep. reflexivity.
  - rewrite !Hstep. reflexivity.
  - rewrite Hstep. reflexivity.
Qed.

Lemma nl_run_split s :
  exists n q, s = repeat NL n ++ q /\ starts_nl q = false.
Proof.
  induction s as [|c s (n & q & -> & Hq)].
  - exists O, []. done.
  - destruct (char_eqb c NL) eqn:E.
    + apply char_eqb_eq in E as ->. exists (S n), q. done.
    + exists O, (c :: repeat NL n ++ q). done.
Qed.

Lemma ends_nl_app a b : b <> [] -> ends_nl (a ++ b) = ends_nl b.
Proof.
  intros Hb. unfold ends_nl. rewrite rev_app_distr.
  destruct (rev b) as [|x r] eqn:E; [|done].
  apply (f_equal (@rev _)) in E. rewrite rev_involutive in E. done.
Qed.

Lemma ends_nl_repeat n : ends_nl (repeat NL (S n)) = true.
Proof.
  unfold ends_nl. rewrite rev_repeat. simpl. apply char_eqb_refl.
Qed.

(** Collapsing goes through a concatenation that cuts no run of
    newlines in two. *)
Lemma collapse_app p t :
  ends_nl p && starts_nl t = false ->
  collapse_newlines (p ++ t) = collapse_newlines p ++ collapse_newlines t.
Proof.
  remember (length p) as k eqn:Hk. revert p Hk.
  induction k as [k IH] using lt_wf_ind. intros p Hk Hcut.
  destruct (nl_run_split p) as (n & q & -> & Hq).
  destruct q as [|c q].
  - rewrite app_nil_r in *. destruct n as [|n]; [reflexivity|].
    rewrite ends_nl_repeat in Hcut. simpl in Hcut.
    rewrite collapse_run by exact Hcut.
    pose proof (collapse_run (S n) [] eq_refl) as E.
    rewrite app_nil_r in E. rewrite E.
    change (collapse_newlines []) with (@nil ascii).
    now rewrite app_nil_r.
  - simpl in Hq. rewrite <- app_assoc.
    rewrite !collapse_run by exact Hq.
    rewrite <- app_assoc. f_equal.
    rewrite <- app_comm_cons, !collapse_other by exact Hq.
    rewrite <- app_comm_cons. f_equal.
    apply (IH (length q)); [|reflexivity|].
    + subst k. rewrite length_app. simpl. lia.
    + destruct q as [|c' q]; [reflexivity|].
      rewrite <- Hcut. f_equal.
      replace (repeat NL n ++ c :: c' :: q)
        with ((repeat NL n ++ [c]) ++ c' :: q) by now rewrite <- app_assoc.
      now rewrite ends_nl_app.
Qed.

Lemma extract_text section body :
  sec_body section = Some body ->
  (_extract_message_text_and_meta section).1.1.1.1
  = clean_text (body_text body).
Proof.
  intros H. unfold _extract_message_text_and_meta. rewrite H. reflexivity.
Qed.

(** C8, as stated, fails: between "a" and "b" the body has a run of
    exactly two blank lines, and the text of the message has one. *)
Lemma two_blank_lines_become_one :
  lines (lit "a" ++ [NL; NL; NL] ++ lit "b") = [lit "a"; []; []; lit "b"]
  /\ lines (_extract_message_text_and_meta
             {| sec_h2 := None;
                sec_body :=
                  Some {| body_imgs := []; body_links := [];
                          body_text := lit "a" ++ [NL; NL; NL] ++ lit "b" |};
                sec_footer := None |}).1.1.1.1
     = [lit "a"; []; lit "b"].
Proof. split; vm_compute; reflexivity. Qed.

(** C8, amended: in the text of a message, any run of 3 or more
    consecutive newline characters (2 or more consecutive blank lines) is
    collapsed to exactly two newline characters (one blank line), a run
    of one or two newline characters (at most one blank line) is left
    unchanged, and whitespace at both ends of the result is trimmed. *)
Theorem message_text_newline_runs section body :
  sec_body section = Some body ->
  let text := (_extract_message_text_and_meta section).1.1.1.1 in
  text = strip (collapse_newlines (body_text body))
  /\ starts_space text = false /\ ends_space text = false
  /\ forall p n q,
      body_text body = p ++ repeat NL n ++ q ->
      ends_nl p = false -> starts_nl q = false ->
      collapse_newlines (body_text body)
      = collapse_newlines p ++ repeat NL (Nat.min n 2)
        ++ collapse_newlines q.
Proof.
  intros H text. subst text. rewrite (extract_text _ _ H).
  unfold clean_text. split; [reflexivity|].
  split; [apply strip_starts|]. split; [apply strip_ends|].
  intros p n q -> Hp Hq.
  rewrite collapse_app by (now rewrite Hp).
  now rewrite collapse_run.
Qed.

Lemma message_text_newline_runs_witness :
  (_extract_message_text_and_meta
     {| sec_h2 := None;
        sec_body :=
          Some {| body_imgs := []; body_links := [];
                  body_text := lit "see" ++ repeat NL 5 ++ lit "you " |};
        sec_footer := None |}).1.1.1.1
  = lit "see" ++ [NL; NL] ++ lit "you".
Proof.
  destruct (message_text_newline_runs
              {| sec_h2 := None;
                 sec_body :=
                   Some {| body_imgs := []; body_links := [];
                           body_text :=
                             lit "see" ++ repeat NL 5 ++ lit "you " |};
                 sec_footer := None |} _ eq_refl) as (-> & _ & _ & E).
  rewrite (E (lit "see") 5%nat (lit "you ") eq_refl eq_refl eq_refl).
  vm_compute. reflexivity.
Defined.

(** ** Orders on sequences *)

Section LexOrder.
Context {A : Type} (lt eqb : A -> A -> bool) `{!StrictOrderB lt eqb}.

Lemma eqb_refl x : eqb x x = true.
Proof. now apply eqb_eq. Qed.

Lemma eqb_false_lt x y : eqb x y = false -> lt x y = false -> lt y x = true.
Proof.
  intros He Hl. destruct (ltb_total (lt:=lt) x y) as [H|[H|H]]; [congruence| |done].
  apply eqb_eq in H. congruence.
Qed.

Lemma ltb_asym x y : lt x y = true -> lt y x = false.
Proof.
  intros H. destruct (lt y x) eqn:E; [|done].
  pose proof (ltb_trans _ _ _ H E) as H'. now rewrite ltb_irrefl in H'.
Qed.

Lemma lex_lt_irrefl l : lex_lt lt eqb l l = false.
Proof. induction l as [|x l IH]; simpl; [done|]. now rewrite eqb_refl. Qed.

Lemma lex_lt_trans a b c :
  lex_lt lt eqb a b = true -> lex_lt lt eqb b c = true ->
  lex_lt lt eqb a c = true.
Proof.
  revert b c. induction a as [|x a IH]; intros [|y b] [|z c]; simpl; try done.
  destruct (eqb x y) eqn:Exy.
  - apply eqb_eq in Exy as ->. destruct (eqb y z); [apply IH | auto].
  - destruct (eqb y z) eqn:Eyz.
    + apply eqb_eq in Eyz as <-. now rewrite Exy.
    + intros Hxy Hyz. pose proof (ltb_trans _ _ _ Hxy Hyz) as Hxz.
      destruct (eqb x z) eqn:Exz; [|done].
      apply eqb_eq in Exz as ->. now rewrite ltb_irrefl in Hxz.
Qed.

Lemma lex_lt_total a b :
  lex_lt lt eqb a b = true \/ a = b \/ lex_lt lt eqb b a = true.
Proof.
  revert b. induction a as [|x a IH]; intros [|y b]; simpl; auto.
  destruct (eqb x y) eqn:Exy.
  - apply eqb_eq in Exy as ->. rewrite eqb_refl.
    destruct (IH b) as [H|[->|H]]; auto.
  - destruct (eqb y x) eqn:Eyx.
    { apply eqb_eq in Eyx as ->. now rewrite eqb_refl in Exy. }
    destruct (ltb_total (lt:=lt) x y) as [H|[H|H]]; auto.
    apply eqb_eq in H. congruence.
Qed.

End LexOrder.

Global Instance lex_strict {A} (lt eqb : A -> A -> bool)
    `{!StrictOrderB lt eqb} `{!EqDecision A} :
  StrictOrderB (lex_lt lt eqb) (fun a b => bool_decide (a = b)).
Proof.
  split.
  - intros x y. apply bool_decide_eq_true.
  - apply lex_lt_irrefl; done.
  - apply lex_lt_trans; done.
  - apply lex_lt_total; done.
Qed.

Global Instance char_strict : StrictOrderB char_lt char_eqb.
Proof.
  split.
  - apply char_eqb_eq.
  - intros x. unfold char_lt. apply N.ltb_irrefl.
  - unfold char_lt. intros x y z H1%N.ltb_lt H2%N.ltb_lt.
    apply N.ltb_lt. lia.
  - intros x y. unfold char_lt.
    destruct (N.lt_trichotomy (ord x) (ord y)) as [H|[H|H]].
    + left. now apply N.ltb_lt.
    + right; left. apply char_eqb_eq. unfold char_eqb. now apply N.eqb_eq.
    + right; right. now apply N.ltb_lt.
Qed.

Global Instance str_strict : StrictOrderB str_lt str_eqb.
Proof. unfold str_lt, str_eqb. apply _. Qed.

Global Instance path_strict :
  StrictOrderB path_lt (fun a b => bool_decide (a = b)).
Proof. unfold path_lt. apply _. Qed.

Global Instance Z_strict : StrictOrderB Z.ltb Z.eqb.
Proof.
  split.
  - apply Z.eqb_eq.
  - apply Z.ltb_irrefl.
  - intros x y z H1%Z.ltb_lt H2%Z.ltb_lt. apply Z.ltb_lt. lia.
  - intros x y. rewrite !Z.ltb_lt. lia.
Qed.

(** ** Stable sorting *)

Lemma filter_none {A} (f : A -> bool) l :
  (forall z, In z l -> f z = false) -> List.filter f l = [].
Proof.
  induction l as [|y l IH]; simpl; [done|]. intros H.
  rewrite (H y) by now left. apply IH. intros z Hz. apply H. now right.
Qed.

Section Sorting.
Context {A : Type} (lt : A -> A -> bool).

(** [lt] is a strict weak order: it is asymmetric, and [not lt] is
    transitive. *)
Hypothesis lt_asym : forall a b, lt a b = true -> lt b a = false.
Hypothesis lt_negtrans :
  forall a b c, lt a b = false -> lt b c = false -> lt a c = false.

Lemma lt_irrefl a : lt a a = false.
Proof using lt_asym.
  destruct (lt a a) eqn:E; [|done]. pose proof (lt_asym _ _ E). congruence.
Qed.

Lemma insert_sorted_perm x l : insert_sorted lt x l ≡ₚ x :: l.
Proof.
  induction l as [|y l IH]; simpl; [done|].
  destruct (lt x y); [done|]. rewrite IH. apply Permutation_swap.
Qed.

Lemma sorted_from_perm l acc :
  fold_left (fun acc x => insert_sorted lt x acc) l acc ≡ₚ acc ++ l.
Proof.
  revert acc. induction l as [|x l IH]; intros acc; simpl.
  - now rewrite app_nil_r.
  - rewrite IH, insert_sorted_perm. simpl. apply Permutation_middle.
Qed.

Lemma sorted_perm l : sorted lt l ≡ₚ l.
Proof. unfold sorted. now rewrite sorted_from_perm. Qed.

Lemma insert_sorted_sorted x l :
  StronglySorted (not_gt lt) l -> StronglySorted (not_gt lt) (insert_sorted lt x l).
Proof.
  induction 1 as [|y l Hl IH Hy]; simpl.
  - repeat constructor.
  - destruct (lt x y) eqn:E.
    + constructor; [now constructor|].
      constructor; [now apply lt_asym|].
      eapply Forall_impl; [exact Hy|]. simpl. intros z Hz.
      destruct (lt z x) eqn:Ezx; [|done].
      apply lt_asym in Ezx.
      (* x < y and not (z < y) give x < z *)
      destruct (lt x z) eqn:Exz; [now apply lt_asym in Exz|].
      pose proof (lt_negtrans _ _ _ Exz Hz). congruence.
    + constructor; [exact IH|].
      rewrite insert_sorted_perm. constructor; [exact E|exact Hy].
Qed.

Lemma sorted_from_sorted l acc :
  StronglySorted (not_gt lt) acc ->
  StronglySorted (not_gt lt) (fold_left (fun acc x => insert_sorted lt x acc) l acc).
Proof.
  revert acc. induction l as [|x l IH]; intros acc Hacc; simpl; [done|].
  apply IH. now apply insert_sorted_sorted.
Qed.

Lemma sorted_sorted l : StronglySorted (not_gt lt) (sorted lt l).
Proof. apply sorted_from_sorted. constructor. Qed.

Lemma ties_trans k x y :
  ties lt k x = true -> ties lt x y = true -> ties lt k y = true.
Proof.
  unfold ties. rewrite !andb_true_iff, !negb_true_iff.
  intros [H1 H2] [H3 H4]. split; eauto.
Qed.

Lemma ties_sym x y : ties lt x y = ties lt y x.
Proof. unfold ties. apply andb_comm. Qed.

(** An element is put after those that tie with it. *)
Lemma insert_sorted_filter k x l :
  StronglySorted (not_gt lt) l ->
  List.filter (ties lt k) (insert_sorted lt x l)
  = List.filter (ties lt k) l ++ (if ties lt k x then [x] else []).
Proof.
  induction 1 as [|y l Hl IH Hy]; simpl; [done|].
  destruct (lt x y) eqn:E; simpl.
  - destruct (ties lt k x) eqn:Ekx; [|now rewrite app_nil_r].
    (* nothing from y on ties with x *)
    assert (Hnone : List.filter (ties lt k) (y :: l) = []).
    { apply filter_none. intros z Hz.
      destruct (ties lt k z) eqn:Ekz; [|done].
      rewrite ties_sym in Ekx. pose proof (ties_trans _ _ _ Ekx Ekz) as Hxz.
      unfold ties in Hxz. apply andb_prop in Hxz as [Hxz _].
      apply negb_true_iff in Hxz.
      assert (Hyz : lt z y = false).
      { destruct Hz as [<-|Hz]; [apply lt_irrefl|].
        rewrite Forall_forall in Hy. apply Hy.
        now apply list_elem_of_In. }
      pose proof (lt_negtrans _ _ _ Hxz Hyz). congruence. }
    simpl in Hnone. now rewrite Hnone.
  - rewrite IH. now destruct (ties lt k y).
Qed.

Lemma sorted_from_filter k l acc :
  StronglySorted (not_gt lt) acc ->
  List.filter (ties lt k)
    (fold_left (fun acc x => insert_sorted lt x acc) l acc)
  = List.filter (ties lt k) acc ++ List.filter (ties lt k) l.
Proof.
  revert acc. induction l as [|x l IH]; intros acc Hacc; simpl.
  - now rewrite app_nil_r.
  - rewrite IH by now apply insert_sorted_sorted.
    rewrite insert_sorted_filter by done.
    rewrite <- app_assoc. now destruct (ties lt k x).
Qed.

Lemma sorted_stable l : stable_sort_of lt l (sorted lt l).
Proof.
  split; [apply sorted_perm|]. split; [apply sorted_sorted|].
  intros k. unfold sorted. rewrite sorted_from_filter by constructor.
  reflexivity.
Qed.

End Sorting.

(** ** The order of messages *)

Lemma strict_negtrans {A} (lt eqb : A -> A -> bool) `{!StrictOrderB lt eqb}
    a b c :
  lt a b = false -> lt b c = false -> lt a c = false.
Proof.
  intros Hab Hbc. destruct (lt a c) eqn:Hac; [|done].
  destruct (ltb_total (lt:=lt) a b) as [H|[->|H]]; [congruence|congruence|].
  destruct (ltb_total (lt:=lt) b c) as [H'|[<-|H']]; [congruence| |].
  - apply (ltb_asym lt eqb) in H. congruence.
  - pose proof (ltb_trans _ _ _ H' H) as Hca.
    apply (ltb_asym lt eqb) in Hca. congruence.
Qed.

Lemma dt_fields_inj a b : dt_fields a = dt_fields b -> a = b.
Proof. destruct a, b. unfold dt_fields. simpl. congruence. Qed.

Lemma dt_eqb_eq a b : dt_eqb a b = true <-> a = b.
Proof.
  unfold dt_eqb. rewrite bool_decide_eq_true. split; [apply dt_fields_inj|].
  congruence.
Qed.

Lemma dt_lt_asym a b : dt_lt a b = true -> dt_lt b a = false.
Proof. unfold dt_lt. apply (ltb_asym _ (fun a b => bool_decide (a = b))). Qed.

Lemma dt_lt_negtrans a b c :
  dt_lt a b = false -> dt_lt b c = false -> dt_lt a c = false.
Proof.
  unfold dt_lt. apply (strict_negtrans _ (fun a b => bool_decide (a = b))).
Qed.

Lemma dt_lt_irrefl a : dt_lt a a = false.
Proof. unfold dt_lt. apply lex_lt_irrefl. apply _. Qed.

Lemma dt_lt_total a b : dt_lt a b = true \/ a = b \/ dt_lt b a = true.
Proof.
  unfold dt_lt.
  destruct (lex_lt_total Z.ltb Z.eqb (dt_fields a) (dt_fields b))
    as [H|[H|H]]; auto.
  right; left. now apply dt_fields_inj.
Qed.

(** On keys, [<] compares the flags and then the datetimes. *)
Lemma key_lt_spec a b :
  key_lt a b
  = if eqb a.1 b.1 then dt_lt a.2 b.2 else negb a.1 && b.1.
Proof.
  unfold key_lt. destruct (eqb a.1 b.1); [|done].
  destruct (dt_eqb a.2 b.2) eqn:E; [|done].
  apply dt_eqb_eq in E as ->. now rewrite dt_lt_irrefl.
Qed.

Lemma key_lt_asym a b : key_lt a b = true -> key_lt b a = false.
Proof.
  rewrite !key_lt_spec. destruct a as [[] da], b as [[] db]; simpl;
    try done; apply dt_lt_asym.
Qed.

Lemma key_lt_negtrans a b c :
  key_lt a b = false -> key_lt b c = false -> key_lt a c = false.
Proof.
  rewrite !key_lt_spec.
  destruct a as [[] da], b as [[] db], c as [[] dc]; simpl;
    try done; apply dt_lt_negtrans.
Qed.

Lemma msg_lt_asym a b : msg_lt a b = true -> msg_lt b a = false.
Proof. apply key_lt_asym. Qed.

Lemma msg_lt_negtrans a b c :
  msg_lt a b = false -> msg_lt b c = false -> msg_lt a c = false.
Proof. apply key_lt_negtrans. Qed.

(** A dated message is before an undated one. *)
Lemma msg_lt_dated_undated a b :
  dated a = true -> dated b = false -> msg_lt a b = true.
Proof.
  unfold dated, msg_lt, sort_key. rewrite key_lt_spec. simpl.
  intros ->%negb_true_iff ->%negb_false_iff. reflexivity.
Qed.

(** Two undated messages tie. *)
Lemma msg_lt_undated a b :
  dated a = false -> dated b = false -> msg_lt a b = false.
Proof.
  unfold dated, msg_lt, sort_key. rewrite key_lt_spec. simpl.
  intros Ha%negb_false_iff Hb%negb_false_iff. rewrite Ha, Hb. simpl.
  apply bool_decide_eq_true in Ha, Hb. rewrite Ha, Hb. apply dt_lt_irrefl.
Qed.

(** Between dated messages the order is that of the timestamps. *)
Lemma msg_lt_dated a b da db :
  timestamp a = Some da -> timestamp b = Some db ->
  msg_lt a b = dt_lt da db.
Proof.
  unfold msg_lt, sort_key. rewrite key_lt_spec. simpl. now intros -> ->.
Qed.

(** In a sorted list the dated messages come first. *)
Lemma sorted_dated_first l :
  StronglySorted (not_gt msg_lt) l ->
  l = List.filter dated l ++ List.filter (fun m => negb (dated m)) l.
Proof.
  induction 1 as [|x l Hl IH Hx]; simpl; [done|].
  destruct (dated x) eqn:Ex; simpl; [now rewrite <- IH|].
  assert (Hall : forall z, In z l -> dated z = false).
  { intros z Hz. destruct (dated z) eqn:Ez; [|done].
    rewrite Forall_forall in Hx. apply list_elem_of_In, Hx in Hz.
    unfold not_gt in Hz. now rewrite msg_lt_dated_undated in Hz. }
  rewrite (filter_none dated l Hall). simpl. f_equal.
  clear -Hall. induction l as [|y l IH]; simpl; [done|].
  rewrite (Hall y) by now left. simpl. f_equal. apply IH.
  intros z Hz. apply Hall. now right.
Qed.

Lemma order_messages_dated l :
  existsb dated l = true -> order_messages l = sorted msg_lt l.
Proof. unfold order_messages. fold dated. now intros ->. Qed.

Lemma order_messages_undated l :
  existsb dated l = false -> order_messages l = l.
Proof. unfold order_messages. fold dated. now intros ->. Qed.

Lemma order_messages_perm l : order_messages l ≡ₚ l.
Proof.
  destruct (existsb dated l) eqn:E.
  - rewrite order_messages_dated by done. apply sorted_perm.
  - now rewrite order_messages_undated.
Qed.

(** ** The loop over the documents of a thread *)

Lemma add_trace_nil w : add_trace [] w = w.
Proof. destruct w. unfold add_trace. simpl. now rewrite app_nil_r. Qed.

Lemma add_trace_app es1 es2 w :
  add_trace es2 (add_trace es1 w) = add_trace (es1 ++ es2) w.
Proof. unfold add_trace. simpl. now rewrite app_assoc. Qed.

Section RunProofs.
Variable rglob_message_html : Path -> list Path.
Variable folder_digest : Path -> str.
Variable soup : Path -> result DocumentView.
Variable uuid4 : nat -> str.

Lemma parse_steps docs cust msgs w :
  fold_left (parse_step soup) docs (cust, msgs, w)
  = (if truthy cust then cust
     else default [] (head (List.filter truthy (map (customer_of soup) docs))),
     msgs ++ flat_map (messages_of soup) docs,
     add_trace (flat_map (parse_events soup) docs) w).
Proof.
  revert cust msgs w. induction docs as [|fp docs IH]; intros cust msgs w.
  - simpl. rewrite app_nil_r, add_trace_nil. now destruct cust.
  - cbn [fold_left]. unfold parse_step at 2.
    unfold customer_of, messages_of, parse_events. cbn [map flat_map].
    destruct (parse_messenger_html soup fp) as [[c ms]|e].
    + rewrite IH. rewrite <- app_assoc.
      change (emit (Parsing fp) w) with (add_trace [Parsing fp] w).
      rewrite add_trace_app. simpl.
      destruct (truthy cust) eqn:Ec; simpl.
      * rewrite andb_false_r. now rewrite Ec.
      * rewrite andb_true_r. destruct (truthy c) eqn:E; simpl; [now rewrite E|].
        now rewrite Ec.
    + rewrite IH. unfold print.
      change (emit (Printed (MsgErrorProcessing fp e)) (emit (Parsing fp) w))
        with (add_trace [Printed (MsgErrorProcessing fp e)]
                (add_trace [Parsing fp] w)).
      rewrite !add_trace_app. simpl. reflexivity.
Qed.

(** ** One thread *)

Lemma process_thread_eq self w n key fs :
  let cid := resolved_id uuid4 (id_map self) w key in
  process_thread soup uuid4 (self, w, n) (key, fs)
  = ({| id_map_path := id_map_path self;
        id_map := <[key := cid]> (id_map self);
        rows := rows self ++ thread_rows soup cid fs |},
     add_trace (thread_events soup cid (key, fs))
       {| dirs := dirs w; files := files w;
          drawn := if id_map self !! key is Some _ then drawn w
                   else S (drawn w);
          trace := trace w |},
     n + Z.of_nat (length (thread_rows soup cid fs))).
Proof.
  intros cid. subst cid. unfold resolved_id, process_thread.
  unfold get_or_create_conversation_id.
  destruct (id_map self !! key) as [cid|] eqn:E; simpl.
  - rewrite parse_steps. simpl.
    rewrite (insert_id _ _ _ E).
    change (emit (Resolved key cid) w) with (add_trace [Resolved key cid] w).
    rewrite add_trace_app. unfold thread_events, thread_rows,
      thread_messages, thread_customer. simpl.
    destruct w; reflexivity.
  - rewrite parse_steps. simpl.
    unfold emit. simpl. unfold add_trace. simpl.
    unfold thread_events, thread_rows, thread_messages, thread_customer.
    simpl. rewrite <- app_assoc. reflexivity.
Qed.

Lemma resolved_id_lookup (m : gmap str str) w key :
  <[key := resolved_id uuid4 m w key]> m !! key
  = Some (resolved_id uuid4 m w key).
Proof. apply lookup_insert_eq. Qed.

Lemma resolved_id_grows (m : gmap str str) w key :
  m ⊆ <[key := resolved_id uuid4 m w key]> m.
Proof.
  unfold resolved_id. destruct (m !! key) as [v|] eqn:E; simpl.
  - now rewrite insert_id.
  - now apply insert_subseteq.
Qed.

(** ** The loop over the threads *)

Lemma after_threads_spec ts self w n :
  let self' := (after_threads soup uuid4 ts (self, w, n)).1.1 in
  let w' := (after_threads soup uuid4 ts (self, w, n)).1.2 in
  let cid_of := fun key => default ([] : str) (id_map self' !! key) in
  id_map_path self' = id_map_path self
  /\ id_map self ⊆ id_map self'
  /\ (forall key, is_Some (id_map self' !! key)
                  <-> is_Some (id_map self !! key) \/ key ∈ map fst ts)
  /\ rows self'
     = rows self ++ flat_map (fun t => thread_rows soup (cid_of t.1) t.2) ts
  /\ dirs w' = dirs w /\ files w' = files w
  /\ trace w'
     = trace w ++ flat_map (fun t => thread_events soup (cid_of t.1) t) ts
  /\ (after_threads soup uuid4 ts (self, w, n)).2
     = n + Z.of_nat (length (flat_map (fun t =>
                                         thread_rows soup (cid_of t.1) t.2) ts)).
Proof.
  revert self w n. induction ts as [|[key fs] ts IH]; intros self w n.
  - simpl. rewrite !app_nil_r. repeat split; try done; try lia.
    + intros H. now left.
    + intros [H|H]; [done|]. now apply elem_of_nil in H.
  - unfold after_threads. cbn [fold_left].
    rewrite process_thread_eq.
    set (cid := resolved_id uuid4 (id_map self) w key).
    set (self1 := {| id_map_path := id_map_path self;
                     id_map := <[key := cid]> (id_map self);
                     rows := rows self ++ thread_rows soup cid fs |}).
    set (w1 := add_trace _ _). set (n1 := n + _).
    specialize (IH self1 w1 n1). unfold after_threads in IH.
    cbv zeta in IH.
    destruct IH as (Hp & Hsub & Hdom & Hrows & Hd & Hf & Ht & Hn).
    set (st' := fold_left _ ts _) in *.
    assert (Hcid : id_map st'.1.1 !! key = Some cid).
    { eapply lookup_weaken; [|exact Hsub]. apply resolved_id_lookup. }
    cbv zeta. cbn [fst snd map flat_map app]. rewrite !Hcid. cbn [default from_option id].
    repeat split.
    + exact Hp.
    + etrans; [apply resolved_id_grows|exact Hsub].
    + intros H. apply Hdom in H as [H|H].
      * subst self1. cbn in H. destruct (decide (key = key0)) as [<-|Hne].
        -- right. apply elem_of_cons. now left.
        -- rewrite lookup_insert_ne in H by done. now left.
      * right. apply elem_of_cons. now right.
    + intros [H|H]; apply Hdom.
      * left. destruct H as [v Hv]. exists v.
        eapply lookup_weaken; [exact Hv|apply resolved_id_grows].
      * apply elem_of_cons in H as [->|H]; [|now right].
        left. subst self1. cbn. rewrite lookup_insert_eq. eauto.
    + rewrite Hrows. subst self1. cbn. now rewrite <- app_assoc.
    + rewrite Hd. reflexivity.
    + rewrite Hf. reflexivity.
    + rewrite Ht. subst w1. cbn. now rewrite <- app_assoc.
    + rewrite Hn. subst n1. rewrite length_app. lia.
Qed.

(** ** Grouping the documents into threads *)

Lemma setdefault_append_elem {V} k (v : V) d k' (vs : list V) :
  (k', vs) ∈ setdefault_append k v d ->
  (k', vs) ∈ d
  \/ k' = k /\ exists vs0, vs = vs0 ++ [v] /\ (vs0 = [] \/ (k, vs0) ∈ d).
Proof.
  induction d as [|[k0 vs0] d IH]; simpl.
  - intros H. apply list_elem_of_singleton in H. injection H as -> ->.
    right. split; [done|]. exists []. auto.
  - destruct (str_eqb k k0) eqn:E.
    + apply str_eqb_eq in E as <-.
      intros [[= -> ->]|H]%elem_of_cons.
      * right. split; [done|]. exists vs0. split; [done|]. right.
        apply elem_of_cons. now left.
      * left. apply elem_of_cons. now right.
    + intros [[= -> ->]|H]%elem_of_cons.
      * left. apply elem_of_cons. now left.
      * destruct (IH H) as [H'|(-> & vs1 & -> & [->|H'])].
        -- left. apply elem_of_cons. now right.
        -- right. split; [done|]. exists []. auto.
        -- right. split; [done|]. exists vs1. split; [done|]. right.
           apply elem_of_cons. now right.
Qed.

Lemma setdefault_append_has {V} k (v : V) d :
  exists vs, (k, vs) ∈ setdefault_append k v d /\ v ∈ vs.
Proof.
  induction d as [|[k0 vs0] d (vs & H1 & H2)]; simpl.
  - exists [v]. split; apply elem_of_cons; now left.
  - destruct (str_eqb k k0) eqn:E.
    + apply str_eqb_eq in E as <-. exists (vs0 ++ [v]).
      split; [apply elem_of_cons; now left|].
      apply elem_of_app. right. apply elem_of_cons. now left.
    + exists vs. split; [|done]. apply elem_of_cons. now right.
Qed.

Lemma setdefault_append_keeps {V} k (v : V) d k' x :
  (exists vs, (k', vs) ∈ d /\ x ∈ vs) ->
  exists vs, (k', vs) ∈ setdefault_append k v d /\ x ∈ vs.
Proof.
  induction d as [|[k0 vs0] d IH]; simpl.
  - intros (vs & H & _). now apply elem_of_nil in H.
  - intros (vs & [[= -> ->]|H]%elem_of_cons & Hx).
    + destruct (str_eqb k k0).
      * exists (vs0 ++ [v]). split; [apply elem_of_cons; now left|].
        apply elem_of_app. now left.
      * exists vs0. split; [apply elem_of_cons; now left|done].
    + destruct (str_eqb k k0).
      * exists vs. split; [apply elem_of_cons; now right|done].
      * destruct IH as (vs' & H1 & H2); [eauto|].
        exists vs'. split; [apply elem_of_cons; now right|done].
Qed.

(** Every document is in the thread of its key, and a thread holds only
    documents of its key. *)
Lemma group_threads_spec html_files :
  (forall key fs fp,
      (key, fs) ∈ group_threads folder_digest html_files -> fp ∈ fs ->
      folder_digest fp = key /\ fp ∈ html_files)
  /\ (forall fp, fp ∈ html_files ->
         exists fs, (folder_digest fp, fs)
                      ∈ group_threads folder_digest html_files
                    /\ fp ∈ fs).
Proof.
  unfold group_threads, thread_key_for_file.
  induction html_files as [|hp l IH] using rev_ind.
  - simpl. split; [intros ??? H; now apply elem_of_nil in H|].
    intros ? H. now apply elem_of_nil in H.
  - rewrite fold_left_app. cbn [fold_left]. destruct IH as [IH1 IH2]. split.
    + intros key fs fp H Hfp.
      apply setdefault_append_elem in H as [H|(-> & vs0 & -> & H)].
      * destruct (IH1 _ _ _ H Hfp) as [? ?]. split; [done|].
        apply elem_of_app. now left.
      * apply elem_of_app in Hfp as [Hfp|Hfp%list_elem_of_singleton].
        -- destruct H as [->|H]; [now apply elem_of_nil in Hfp|].
           destruct (IH1 _ _ _ H Hfp) as [? ?]. split; [done|].
           apply elem_of_app. now left.
        -- subst fp. split; [done|]. apply elem_of_app. right.
           apply elem_of_cons. now left.
    + intros fp [Hfp|Hfp%list_elem_of_singleton]%elem_of_app.
      * apply setdefault_append_keeps. now apply IH2.
      * subst fp. apply setdefault_append_has.
Qed.

End RunProofs.

(** ** A run *)

Section RunClaims.
Variable rglob_message_html : Path -> list Path.
Variable folder_digest : Path -> str.
Variable soup : Path -> result DocumentView.
Variable uuid4 : nat -> str.

Local Abbreviation find_htmls := (find_message_htmls rglob_message_html).
Local Abbreviation threads_of := (run_threads rglob_message_html folder_digest).
Local Abbreviation extractor_after :=
  (run_extractor rglob_message_html folder_digest soup uuid4).
Local Abbreviation world_after :=
  (run_world rglob_message_html folder_digest soup uuid4).
Local Abbreviation block_of :=
  (run_block rglob_message_html folder_digest soup uuid4).
Local Abbreviation process_dir :=
  (process_directory rglob_message_html folder_digest soup uuid4).

Lemma run_state_eq self input_dir w :
  after_threads soup uuid4 (threads_of input_dir)
    (self, print (MsgFound (Z.of_nat (length (find_htmls input_dir)))) w, 0)
  = (extractor_after self input_dir w, world_after self input_dir w,
     (process_threads rglob_message_html folder_digest soup uuid4
        self input_dir w).2.2).
Proof.
  unfold run_extractor, run_world, process_threads, after_threads,
    run_threads. cbn [fst snd].
  now destruct (fold_left _ _ _) as [[? ?] ?].
Qed.

(** What the loop over the threads leaves. *)
Lemma run_spec self input_dir w :
  let self' := extractor_after self input_dir w in
  let w' := world_after self input_dir w in
  id_map_path self' = id_map_path self
  /\ id_map self ⊆ id_map self'
  /\ (forall key, is_Some (id_map self' !! key)
                  <-> is_Some (id_map self !! key)
                      \/ key ∈ map fst (threads_of input_dir))
  /\ rows self'
     = rows self ++ flat_map (block_of self input_dir w) (threads_of input_dir)
  /\ dirs w' = dirs w /\ files w' = files w
  /\ trace w'
     = trace w
       ++ Printed (MsgFound (Z.of_nat (length (find_htmls input_dir))))
       :: flat_map (fun t => thread_events soup
                               (default ([] : str) (id_map self' !! t.1)) t)
                   (threads_of input_dir).
Proof.
  intros self' w'.
  pose proof (after_threads_spec soup uuid4 (threads_of input_dir) self
                (print (MsgFound (Z.of_nat (length (find_htmls input_dir)))) w)
                0) as H.
  cbv zeta in H. rewrite run_state_eq in H. cbn [fst snd] in H.
  destruct H as (H1 & H2 & H3 & H4 & H5 & H6 & H7 & _).
  split; [exact H1|]. split; [exact H2|]. split; [exact H3|].
  split; [exact H4|]. split; [exact H5|]. split; [exact H6|].
  subst self' w'. rewrite H7. cbn. now rewrite <- app_assoc.
Qed.

(** [process_directory] is the loop over the threads, then the saving of
    the ID map, then a report. *)
Lemma process_directory_eq self input_dir w :
  exists total conversations,
    process_dir self input_dir w
    = (w' ← save_id_map (id_map_path self)
                        (id_map (extractor_after self input_dir w))
                        (world_after self input_dir w);
       Ok (extractor_after self input_dir w,
           print (MsgExtracted total conversations) w')).
Proof.
  destruct (run_spec self input_dir w) as (Hp & _).
  revert Hp. unfold run_extractor, run_world, process_directory.
  destruct (process_threads _ _ _ _ _ _ _) as [ts [[self' w'] total]].
  cbn [fst snd]. intros ->. eauto.
Qed.

Lemma process_directory_ok self input_dir w self' w' :
  process_dir self input_dir w = Ok (self', w') ->
  self' = extractor_after self input_dir w
  /\ exists w2,
      save_id_map (id_map_path self) (id_map self')
                  (world_after self input_dir w) = Ok w2
      /\ dirs w' = dirs w2 /\ files w' = files w2.
Proof.
  destruct (process_directory_eq self input_dir w) as (t & c & ->).
  destruct (save_id_map _ _ _) as [w2|e] eqn:E; cbn; [|done].
  intros [= <- <-]. split; [done|]. exists w2. done.
Qed.

(** ** The file system *)

Lemma save_id_map_files path m w w' :
  save_id_map path m w = Ok w' ->
  files w' = <[path := IdMapJson m]> (files w)
  /\ dirs w' = (dirs w ∪ list_to_set (lineage (parent path)))
  /\ (path ∉ dirs w')
  /\ trace w' = trace w ++ [Wrote path].
Proof.
  unfold save_id_map, mkdir_parents, write_file. cbn.
  destruct (existsb _ _); cbn; [done|].
  destruct (bool_decide _) eqn:E; cbn; [done|].
  intros [= <-]. cbn. apply bool_decide_eq_false in E. done.
Qed.

(** What is saved is what the next run loads. *)
Lemma load_after_save path m w w' :
  save_id_map path m w = Ok w' -> load_id_map path w' = Ok m.
Proof.
  intros (Hf & _)%save_id_map_files. unfold load_id_map.
  rewrite Hf, lookup_insert_eq. rewrite bool_decide_eq_true_2; [done|].
  left. eauto.
Qed.

(** Saving succeeds where no file is in the way of the directories and
    no directory in the way of the file. *)
Lemma save_id_map_succeeds path m w :
  (forall a, a ∈ lineage (parent path) -> files w !! a = None) ->
  path ∉ dirs w -> path ∉ lineage (parent path) ->
  exists w', save_id_map path m w = Ok w'.
Proof.
  intros Hfree Hdir Hself. unfold save_id_map, mkdir_parents. cbn.
  destruct (existsb _ _) eqn:E.
  { apply existsb_exists in E as (a & Ha & Hs).
    apply bool_decide_eq_true in Hs. apply list_elem_of_In in Ha.
    rewrite (Hfree a Ha) in Hs. now destruct Hs. }
  cbn. unfold write_file. cbn.
  rewrite bool_decide_eq_false_2; [eauto|].
  rewrite elem_of_union, elem_of_list_to_set. tauto.
Qed.

(** ** Rows *)

Lemma make_row_media_only cid cust i m :
  media_only_ok (make_row cid cust i m).
Proof.
  unfold media_only_ok, make_row. cbn.
  destruct (strip (text m)) as [|c s]; cbn;
    destruct (has_image m), (has_link m); cbn; intuition congruence.
Qed.

Lemma enumerate_lookup {A} (l : list A) start i x :
  l !! i = Some x -> enumerate start l !! i = Some (start + Z.of_nat i, x).
Proof.
  revert start i. induction l as [|y l IH]; intros start [|i] H; try done.
  - injection H as ->. cbn. do 2 f_equal. lia.
  - change (enumerate (start + 1) l !! i = Some (start + Z.of_nat (S i), x)).
    rewrite (IH (start + 1) i H). do 2 f_equal. lia.
Qed.

Lemma enumerate_length {A} (l : list A) start :
  length (enumerate start l) = length l.
Proof. revert start. induction l; intros; cbn; auto. Qed.

Lemma enumerate_fst {A} (l : list A) start :
  map fst (enumerate start l)
  = map (fun i => start + Z.of_nat i) (seq 0 (length l)).
Proof.
  revert start. induction l as [|y l IH]; intros start; cbn; [done|].
  rewrite IH. f_equal; [f_equal; lia|].
  rewrite <- seq_shift, map_map. apply map_ext. intros. lia.
Qed.

Lemma thread_rows_msg_id cid fs :
  map row_msg_id (thread_rows soup cid fs)
  = one_to (length (thread_rows soup cid fs)).
Proof.
  unfold thread_rows. rewrite length_map, enumerate_length.
  set (l := order_messages _).
  transitivity (map fst (enumerate 1 l)).
  - rewrite map_map. apply map_ext. now intros [i m].
  - rewrite enumerate_fst. unfold one_to.
    rewrite <- seq_shift, map_map. apply map_ext. intros. lia.
Qed.

Lemma thread_rows_length cid fs :
  length (thread_rows soup cid fs) = length (thread_messages soup fs).
Proof.
  unfold thread_rows. rewrite length_map, enumerate_length.
  now rewrite order_messages_perm.
Qed.

Lemma thread_rows_lookup cid fs i m :
  order_messages (thread_messages soup fs) !! i = Some m ->
  thread_rows soup cid fs !! i
  = Some (make_row cid (thread_customer soup fs) (Z.of_nat (S i)) m).
Proof.
  intros H. unfold thread_rows. rewrite list_lookup_fmap.
  rewrite (enumerate_lookup _ 1 i m H). cbn. do 2 f_equal. lia.
Qed.

Lemma thread_rows_cid cid fs r :
  r ∈ thread_rows soup cid fs -> row_conversation_id r = cid.
Proof.
  unfold thread_rows. intros ([i m] & -> & _)%list_elem_of_fmap. done.
Qed.

Lemma thread_rows_media_only cid fs :
  Forall media_only_ok (thread_rows soup cid fs).
Proof.
  unfold thread_rows. apply Forall_forall.
  intros r ([i m] & -> & _)%list_elem_of_fmap. apply make_row_media_only.
Qed.

End RunClaims.

(** ** The trace of a run *)

Section TraceOrder.
Variable soup : Path -> result DocumentView.

Lemma parse_events_parsing fp fp' :
  Parsing fp ∈ parse_events soup fp' -> fp = fp'.
Proof.
  unfold parse_events. intros [[= ->]|H]%elem_of_cons; [done|].
  destruct (parse_messenger_html soup fp') as [[? ?]|e].
  - now apply elem_of_nil in H.
  - apply list_elem_of_singleton in H. discriminate.
Qed.

Lemma flat_parse_events_parsing fp docs :
  Parsing fp ∈ flat_map (parse_events soup) docs -> fp ∈ docs.
Proof.
  induction docs as [|d docs IH]; cbn [flat_map];
    [intros H; now apply elem_of_nil in H|].
  intros [H|H]%elem_of_app; apply elem_of_cons.
  - left. now apply parse_events_parsing.
  - right. now apply IH.
Qed.

(** A document is parsed after the identifier of its thread is
    resolved. *)
Lemma events_order (cid_of : str -> str) ts pre post fp :
  flat_map (fun t => thread_events soup (cid_of t.1) t) ts
  = pre ++ Parsing fp :: post ->
  exists t, t ∈ ts /\ fp ∈ sorted path_lt t.2
            /\ Resolved t.1 (cid_of t.1) ∈ pre.
Proof.
  revert pre. induction ts as [|t ts IH]; intros pre; cbn [flat_map].
  - intros H. now destruct pre.
  - intros H. apply app_eq_app in H as [l [[H1 H2]|[H1 H2]]].
    + destruct l as [|e l].
      * rewrite app_nil_r in H1. cbn in H2. symmetry in H2.
        destruct (IH [] H2) as (t' & _ & _ & H').
        now apply elem_of_nil in H'.
      * cbn in H2. injection H2 as <- Hpost. exists t.
        split; [apply elem_of_cons; now left|].
        unfold thread_events in H1.
        destruct pre as [|e pre]; [discriminate|].
        cbn in H1. injection H1 as <- H1. split.
        -- apply flat_parse_events_parsing. rewrite H1.
           apply elem_of_app. right. apply elem_of_cons. now left.
        -- apply elem_of_cons. now left.
    + destruct (IH l H2) as (t' & Ht' & Hfp & Hres). exists t'.
      split; [apply elem_of_cons; now right|]. split; [done|].
      rewrite H1. apply elem_of_app. now right.
Qed.

End TraceOrder.

(** ** Claims about a run *)

Lemma path_lt_asym a b : path_lt a b = true -> path_lt b a = false.
Proof. apply (ltb_asym _ (fun a b => bool_decide (a = b))). Qed.

Lemma path_lt_negtrans a b c :
  path_lt a b = false -> path_lt b c = false -> path_lt a c = false.
Proof. apply (strict_negtrans _ (fun a b => bool_decide (a = b))). Qed.

Lemma existsb_dated_true l :
  existsb dated l = true <-> exists m, m ∈ l /\ timestamp m <> None.
Proof.
  rewrite existsb_exists. unfold dated. split.
  - intros (m & Hm & H). exists m. split; [now apply list_elem_of_In|].
    apply negb_true_iff, bool_decide_eq_false in H. done.
  - intros (m & Hm & H). exists m. split; [now apply list_elem_of_In|].
    apply negb_true_iff, bool_decide_eq_false. done.
Qed.

Lemma msg_lt_cases a b :
  msg_lt a b = true
  <-> match timestamp a, timestamp b with
      | Some da, Some db => dt_lt da db = true
      | Some _, None => True
      | None, _ => False
      end.
Proof.
  destruct (timestamp a) as [da|] eqn:Ea, (timestamp b) as [db|] eqn:Eb.
  - now rewrite (msg_lt_dated a b da db Ea Eb).
  - rewrite msg_lt_dated_undated; [done| |]; unfold dated.
    + now rewrite Ea.
    + now rewrite Eb.
  - split; [|done]. intros H.
    assert (Hb : dated b = true) by (unfold dated; now rewrite Eb).
    assert (Ha : dated a = false) by (unfold dated; now rewrite Ea).
    pose proof (msg_lt_dated_undated b a Hb Ha) as H'.
    apply msg_lt_asym in H'. congruence.
  - split; [|done]. intros H. rewrite msg_lt_undated in H; [done| |];
      unfold dated; [now rewrite Ea | now rewrite Eb].
Qed.

Lemma flat_map_none {A B} (f : A -> list B) l :
  (forall x, In x l -> f x = []) -> flat_map f l = [].
Proof.
  induction l as [|y l IH]; cbn; [done|]. intros H.
  rewrite (H y) by now left. apply IH. intros x Hx. apply H. now right.
Qed.

Section Claims.
Variable rglob_message_html : Path -> list Path.
Variable folder_digest : Path -> str.
Variable soup : Path -> result DocumentView.
Variable uuid4 : nat -> str.

Local Abbreviation find_htmls := (find_message_htmls rglob_message_html).
Local Abbreviation threads_of := (run_threads rglob_message_html folder_digest).
Local Abbreviation extractor_after :=
  (run_extractor rglob_message_html folder_digest soup uuid4).
Local Abbreviation world_after :=
  (run_world rglob_message_html folder_digest soup uuid4).
Local Abbreviation block_of :=
  (run_block rglob_message_html folder_digest soup uuid4).
Local Abbreviation process_dir :=
  (process_directory rglob_message_html folder_digest soup uuid4).

(** C1: the final message order of a thread is the concatenation of the
    message lists of its documents, the documents taken in the order of
    their paths, and then, if at least one message has a timestamp, that
    list stably sorted by the key (timestamp is absent, timestamp): the
    undated messages come after all the dated ones, and messages with
    equal keys keep their relative order.  If no message has a
    timestamp, the concatenation is left as it is. *)
Theorem thread_message_order self w n key fs :
  let docs := sorted path_lt fs in
  let cat := flat_map (messages_of soup) docs in
  let final := order_messages cat in
  (exists cid cust,
      rows (process_thread soup uuid4 (self, w, n) (key, fs)).1.1
      = rows self
        ++ map (fun im => make_row cid cust im.1 im.2) (enumerate 1 final))
  /\ stable_sort_of path_lt fs docs
  /\ (forall a b,
         msg_lt a b = true
         <-> match timestamp a, timestamp b with
             | Some da, Some db => dt_lt da db = true
             | Some _, None => True
             | None, _ => False
             end)
  /\ ((exists m, m ∈ cat /\ timestamp m <> None) ->
      stable_sort_of msg_lt cat final
      /\ final = List.filter dated final
                 ++ List.filter (fun m => negb (dated m)) final)
  /\ ((forall m, m ∈ cat -> timestamp m = None) -> final = cat).
Proof.
  intros docs cat final. split; [|split; [|split; [|split]]].
  - rewrite process_thread_eq. cbn [fst rows]. eexists _, _. f_equal.
    unfold thread_rows. apply map_ext. now intros [i m].
  - apply sorted_stable; [apply path_lt_asym|apply path_lt_negtrans].
  - apply msg_lt_cases.
  - intros H%existsb_dated_true. subst final.
    rewrite order_messages_dated by exact H. split.
    + apply sorted_stable; [apply msg_lt_asym|apply msg_lt_negtrans].
    + apply sorted_dated_first.
      apply sorted_sorted; [apply msg_lt_asym|apply msg_lt_negtrans].
  - intros H. subst final. apply order_messages_undated.
    destruct (existsb dated cat) eqn:E; [|done].
    apply existsb_dated_true in E as (m & Hm & Hts). now apply H in Hm.
Qed.

(** C2: for every row that processing produces, [is_media_only] is 1 if
    and only if the cleaned text of the row is the empty string and at
    least one of [has_image] and [has_link] is 1. *)
Theorem rows_media_only_flag self input_dir w self' w' :
  process_dir self input_dir w = Ok (self', w') ->
  rows self'
  = rows self ++ flat_map (block_of self input_dir w) (threads_of input_dir)
  /\ Forall media_only_ok
       (flat_map (block_of self input_dir w) (threads_of input_dir)).
Proof.
  intros [-> _]%process_directory_ok.
  destruct (run_spec rglob_message_html folder_digest soup uuid4
              self input_dir w) as (_ & _ & _ & Hrows & _).
  split; [exact Hrows|].
  apply Forall_forall. intros r [t [_ Hr]]%list_elem_of_In%in_flat_map.
  pose proof (thread_rows_media_only soup
                (default ([] : str)
                   (id_map (extractor_after self input_dir w) !! t.1)) t.2)
    as H.
  rewrite Forall_forall in H. apply H. now apply list_elem_of_In.
Qed.

(** C3: the rows that a run adds are the blocks of its threads, one
    after the other; in the block of a thread with k messages the
    [msg_id] values are 1, 2, ..., k in this order, and the row at
    position i is the row of the message at position i of the thread's
    final order. *)
Theorem msg_ids_contiguous self input_dir w self' w' :
  process_dir self input_dir w = Ok (self', w') ->
  rows self'
  = rows self ++ flat_map (block_of self input_dir w) (threads_of input_dir)
  /\ forall key fs,
      (key, fs) ∈ threads_of input_dir ->
      let block := block_of self input_dir w (key, fs) in
      let final := order_messages (thread_messages soup fs) in
      length block = length (thread_messages soup fs)
      /\ map row_msg_id block = one_to (length block)
      /\ forall i m,
          final !! i = Some m ->
          exists r, block !! i = Some r
                    /\ row_msg_id r = Z.of_nat i + 1
                    /\ row_text r = strip (text m)
                    /\ row_conversation_id r
                       = default ([] : str) (id_map self' !! key).
Proof.
  intros [-> _]%process_directory_ok.
  destruct (run_spec rglob_message_html folder_digest soup uuid4
              self input_dir w) as (_ & _ & _ & Hrows & _).
  split; [exact Hrows|].
  intros key fs Hin block final. subst block final. unfold run_block.
  cbn [fst snd]. split; [apply thread_rows_length|].
  split; [apply thread_rows_msg_id|].
  intros i m Hm. eexists. split; [apply thread_rows_lookup; exact Hm|].
  cbn [make_row row_msg_id row_text row_conversation_id].
  repeat split. lia.
Qed.


(** C9: for every document that is discovered, the identifier of its
    thread key is in the ID map at the end of the loop, whatever its
    documents yield (a thread none of whose documents yields a message
    adds no row and still has its entry); the run ends by saving that
    map, and the writing of the file comes after everything else in the
    trace; and in the trace every parsing of a document comes after the
    resolution of the identifier of its thread. *)
Theorem id_resolved_before_parsing self input_dir w hp :
  hp ∈ find_htmls input_dir ->
  let key := thread_key_for_file folder_digest hp in
  let self' := extractor_after self input_dir w in
  let w' := world_after self input_dir w in
  (exists cid, id_map self' !! key = Some cid)
  /\ (exists fs, (key, fs) ∈ threads_of input_dir /\ hp ∈ fs
                 /\ ((forall fp, fp ∈ fs -> messages_of soup fp = []) ->
                     block_of self input_dir w (key, fs) = []))
  /\ (exists total conversations,
         process_dir self input_dir w
         = (w2 ← save_id_map (id_map_path self) (id_map self') w';
            Ok (self', print (MsgExtracted total conversations) w2)))
  /\ (forall w2,
         save_id_map (id_map_path self) (id_map self') w' = Ok w2 ->
         files w2 !! id_map_path self = Some (IdMapJson (id_map self'))
         /\ trace w2 = trace w' ++ [Wrote (id_map_path self)])
  /\ (forall pre post fp,
         trace w' = trace w ++ pre ++ Parsing fp :: post ->
         exists cid,
           Resolved (thread_key_for_file folder_digest fp) cid ∈ pre
           /\ id_map self' !! thread_key_for_file folder_digest fp
              = Some cid).
Proof.
  intros Hhp key self' w'.
  destruct (run_spec rglob_message_html folder_digest soup uuid4
              self input_dir w) as (_ & _ & Hdom & _ & _ & _ & Htrace).
  destruct (group_threads_spec folder_digest (find_htmls input_dir))
    as [Hkeys Hall].
  destruct (Hall hp Hhp) as (fs & Hfs & Hin).
  assert (Hthread : (key, fs) ∈ threads_of input_dir).
  { unfold run_threads. now rewrite sorted_perm. }
  assert (Hsome : forall t, t ∈ threads_of input_dir ->
            is_Some (id_map self' !! t.1)).
  { intros t Ht. apply Hdom. right. apply list_elem_of_fmap. eauto. }
  split; [|split; [|split; [|split]]].
  - destruct (Hsome _ Hthread) as [cid Hcid]. eauto.
  - exists fs. split; [done|]. split; [done|]. intros Hnone.
    unfold run_block, thread_rows, thread_messages. cbn [fst snd].
    assert (E : flat_map (messages_of soup) (sorted path_lt fs) = []).
    { apply flat_map_none. intros fp Hfp. apply Hnone.
      apply list_elem_of_In in Hfp. now rewrite sorted_perm in Hfp. }
    rewrite E. reflexivity.
  - apply process_directory_eq.
  - intros w2 (Hf & _ & _ & Ht)%save_id_map_files. rewrite Hf.
    split; [apply lookup_insert_eq|exact Ht].
  - intros pre post fp Hsplit. subst w'. rewrite Htrace in Hsplit.
    apply app_inv_head in Hsplit.
    destruct pre as [|e pre]; [discriminate|].
    cbn in Hsplit. injection Hsplit as <- Hsplit.
    apply (events_order soup
             (fun k => default ([] : str) (id_map self' !! k)))
      in Hsplit as (t & Ht & Hfp & Hres).
    rewrite sorted_perm in Hfp.
    assert (Ht' : t ∈ group_threads folder_digest (find_htmls input_dir)).
    { unfold run_threads in Ht. now rewrite sorted_perm in Ht. }
    destruct t as [k fs']. destruct (Hkeys k fs' fp Ht' Hfp) as [Hk _].
    unfold thread_key_for_file. rewrite Hk.
    destruct (Hsome _ Ht) as [cid Hcid]. cbn [fst] in *.
    exists cid. split; [|exact Hcid].
    apply elem_of_cons. right. rewrite Hcid in Hres. exact Hres.
Qed.

End Claims.

(** C10: when there is no row, the dataset writer prints its notice and
    returns, and the file system is as it was: neither the output file
    nor its parent directory is made. *)
Theorem save_to_csv_no_rows self output_path w :
  rows self = [] ->
  exists w',
    save_to_csv self output_path w = Ok w'
    /\ dirs w' = dirs w /\ files w' = files w
    /\ trace w' = trace w ++ [Printed MsgNoMessages].
Proof.
  intros H. unfold save_to_csv. rewrite H.
  exists (print MsgNoMessages w). repeat split.
Qed.

(** ** The sample export, run *)

Lemma sample_run_ok : sample_run = Ok sample_result.
Proof. vm_compute. reflexivity. Qed.

(** The five dated messages of the two documents of Alice come out in
    the order of their timestamps, the undated one after them, numbered
    from 1; the thread keeps the identifier the map had for it. *)
Example sample_rows :
  map (fun r => (row_conversation_id r, row_msg_id r, row_role r, row_text r))
      (rows sample_result.1)
  = [(lit "known-alice", 1, lit "customer", lit "hello");
     (lit "known-alice", 2, lit "assistant", lit "hi");
     (lit "known-alice", 3, lit "assistant", lit "price?");
     (lit "known-alice", 4, lit "customer", lit "thanks");
     (lit "known-alice", 5, lit "customer", []);
     (lit "known-alice", 6, lit "assistant", lit "note")].
Proof. vm_compute. reflexivity. Qed.

(** A message that is an image and nothing else. *)
Example sample_image_only_row :
  map (fun r => (row_text r, row_has_image r, row_image_count r,
                 row_is_media_only r))
      (List.filter (fun r => row_msg_id r =? 5) (rows sample_result.1))
  = [([], 1, 1, 1)].
Proof. vm_compute. reflexivity. Qed.

(** The thread whose document cannot be read has no row and has its
    entry in the map that is written. *)
Example sample_unreadable_thread :
  files sample_result.2 !! sample_id_map_path
  = Some (IdMapJson (id_map sample_result.1))
  /\ id_map sample_result.1 !! lit "data/carol" = Some (lit "uuid-0")
  /\ id_map sample_result.1 !! lit "data/alice" = Some (lit "known-alice").
Proof. repeat split; vm_compute; reflexivity. Qed.

Lemma rows_media_only_flag_witness :
  Forall media_only_ok (rows sample_result.1).
Proof.
  destruct (rows_media_only_flag sample_rglob sample_digest sample_soup
              sample_uuid4 sample_extractor (sample_path ["data"])
              sample_world sample_result.1 sample_result.2)
    as [E H].
  - vm_compute. reflexivity.
  - rewrite E. exact H.
Defined.

Lemma msg_ids_contiguous_witness :
  map row_msg_id
      (run_block sample_rglob sample_digest sample_soup sample_uuid4
         sample_extractor (sample_path ["data"]) sample_world
         (lit "data/alice", [alice_1; alice_2]))
  = one_to 6.
Proof.
  destruct (msg_ids_contiguous sample_rglob sample_digest sample_soup
              sample_uuid4 sample_extractor (sample_path ["data"])
              sample_world sample_result.1 sample_result.2)
    as [_ H].
  - vm_compute. reflexivity.
  - destruct (H (lit "data/alice") [alice_1; alice_2]) as (Hlen & Hids & _).
    + apply (bool_decide_unpack _). vm_compute. exact I.
    + rewrite Hids, Hlen. vm_compute. reflexivity.
Defined.

Lemma id_resolved_before_parsing_witness :
  exists cid,
    id_map (run_extractor sample_rglob sample_digest sample_soup sample_uuid4
              sample_extractor (sample_path ["data"]) sample_world)
    !! thread_key_for_file sample_digest carol_1 = Some cid.
Proof.
  refine (proj1 (id_resolved_before_parsing sample_rglob sample_digest
                   sample_soup sample_uuid4 sample_extractor
                   (sample_path ["data"]) sample_world carol_1 _)).
  apply (bool_decide_unpack _). vm_compute. exact I.
Defined.

Lemma save_to_csv_no_rows_witness :
  exists w',
    save_to_csv sample_extractor (sample_path ["out"; "cleaned_messages.csv"])
                sample_world = Ok w'
    /\ dirs w' = dirs sample_world /\ files w' = files sample_world
    /\ trace w' = trace sample_world ++ [Printed MsgNoMessages].
Proof.
  apply (save_to_csv_no_rows sample_extractor
           (sample_path ["out"; "cleaned_messages.csv"]) sample_world).
  reflexivity.
Defined.

(** ** Characters, case and classes *)

Ltac each_char c := destruct c as [[] [] [] [] [] [] [] []].

Lemma isspace_lower c : isspace (lower_char c) = isspace c.
Proof. each_char c; reflexivity. Qed.

Lemma isdigit_lower c : isdigit (lower_char c) = isdigit c.
Proof. each_char c; reflexivity. Qed.

Lemma lower_char_idem c : lower_char (lower_char c) = lower_char c.
Proof. each_char c; reflexivity. Qed.

Lemma isdigit_not_space c : isdigit c = true -> isspace c = false.
Proof. each_char c; (reflexivity || discriminate). Qed.

(** A digit is its own lower case, and nothing else is lowered to it. *)
Lemma lower_char_digit c : isdigit (lower_char c) = true -> lower_char c = c.
Proof. each_char c; (reflexivity || discriminate). Qed.

Lemma isdigit_cases c :
  isdigit c = true ->
  In c ["0"; "1"; "2"; "3"; "4"; "5"; "6"; "7"; "8"; "9"]%char.
Proof. each_char c; intros H; try discriminate H; cbn; tauto. Qed.

Lemma digit_val_range c : isdigit c = true -> 0 <= digit_val c <= 9.
Proof.
  intros H%isdigit_cases. cbn in H.
  repeat (destruct H as [<-|H]; [vm_compute; split; discriminate|]).
  destruct H.
Qed.

(** The letters of the meridiem. *)
Lemma lower_char_a c : lower_char c = "a"%char -> c = "a"%char \/ c = "A"%char.
Proof. each_char c; intros H; try discriminate H; auto. Qed.

Lemma lower_char_p c : lower_char c = "p"%char -> c = "p"%char \/ c = "P"%char.
Proof. each_char c; intros H; try discriminate H; auto. Qed.

Lemma lower_char_m c : lower_char c = "m"%char -> c = "m"%char \/ c = "M"%char.
Proof. each_char c; intros H; try discriminate H; auto. Qed.

(** The punctuation of the format has one case. *)
Lemma lower_char_comma c : lower_char c = ","%char -> c = ","%char.
Proof. each_char c; intros H; try discriminate H; auto. Qed.

Lemma lower_char_colon c : lower_char c = ":"%char -> c = ":"%char.
Proof. each_char c; intros H; try discriminate H; auto. Qed.

Lemma lower_char_blank c : lower_char c = " "%char -> c = " "%char.
Proof. each_char c; intros H; try discriminate H; auto. Qed.

(** ** Tokens and gaps *)

Lemma token_app a b : token a -> token b -> token (a ++ b).
Proof. unfold token. rewrite forallb_app. now intros -> ->. Qed.

Lemma token_digits s : forallb isdigit s = true -> token s.
Proof.
  unfold token. induction s as [|c s IH]; cbn; [done|].
  intros [Hc Hs]%andb_prop. rewrite (isdigit_not_space c Hc). cbn. auto.
Qed.

Lemma token_lower s : token (lower s) -> token s.
Proof.
  unfold token, lower. induction s as [|c s IH]; cbn; [done|].
  rewrite isspace_lower. intros [-> Hs]%andb_prop. cbn. auto.
Qed.

Lemma token_starts s : token s -> starts_space s = false.
Proof.
  unfold token. destruct s as [|c s]; cbn; [done|].
  intros [H _]%andb_prop. now apply negb_true_iff in H.
Qed.

Lemma token_rev s : token s -> token (rev s).
Proof.
  unfold token. rewrite !forallb_forall. intros H c Hc. apply H.
  now apply in_rev.
Qed.

Lemma token_ends s : token s -> ends_space s = false.
Proof. intros H. apply token_starts. now apply token_rev. Qed.

Lemma token_strip s : token s -> strip s = s.
Proof. intros H. apply strip_fixed; [now apply token_starts|now apply token_ends]. Qed.

Lemma starts_space_app a b :
  a <> [] -> starts_space (a ++ b) = starts_space a.
Proof. now destruct a. Qed.

Lemma ends_space_app a b :
  b <> [] -> ends_space (a ++ b) = ends_space b.
Proof.
  intros Hb. unfold ends_space. rewrite rev_app_distr.
  apply starts_space_app. intros E. apply (f_equal (@rev _)) in E.
  rewrite rev_involutive in E. done.
Qed.

Lemma rstrip_blank s w : blank w -> ends_space s = false ->
  rstrip (s ++ w) = s.
Proof.
  intros Hw Hs. unfold rstrip. rewrite rev_app_distr.
  rewrite lstrip_blank.
  - rewrite (lstrip_fixed _ Hs). apply rev_involutive.
  - unfold blank in *. rewrite forallb_forall in *. intros c Hc.
    apply Hw. now apply in_rev.
Qed.

(** Stripping a string that has a token at each end takes the blanks
    around it. *)
Lemma strip_blanks w0 s w5 :
  blank w0 -> blank w5 -> starts_space s = false -> ends_space s = false ->
  strip (w0 ++ s ++ w5) = s.
Proof.
  intros H0 H5 Hs He. unfold strip.
  rewrite lstrip_blank by done.
  destruct s as [|c s].
  - cbn. pose proof (lstrip_blank w5 [] H5) as E.
    rewrite app_nil_r in E. rewrite E. reflexivity.
  - rewrite (lstrip_fixed ((c :: s) ++ w5)) by exact Hs.
    now apply rstrip_blank.
Qed.

(** [split] reads a token up to the gap that follows it. *)
Lemma split_go_token tok cur rest :
  token tok -> split_go cur (tok ++ rest) = split_go (rev tok ++ cur) rest.
Proof.
  unfold token. revert cur. induction tok as [|c tok IH]; intros cur; cbn;
    [done|].
  intros [Hc Ht]%andb_prop. apply negb_true_iff in Hc. rewrite Hc.
  rewrite IH by done. now rewrite <- app_assoc.
Qed.

Lemma split_go_gap w cur rest :
  gap w -> cur <> [] ->
  split_go cur (w ++ rest) = rev cur :: split_go [] rest.
Proof.
  intros [Hne Hw] Hcur. destruct w as [|c w]; [done|].
  unfold blank in Hw. cbn in Hw. apply andb_prop in Hw as [Hc Hw].
  cbn. rewrite Hc. destruct cur as [|x cur]; [done|]. f_equal.
  clear -Hw. induction w as [|c w IH]; cbn; [done|].
  cbn in Hw. apply andb_prop in Hw as [-> Hw]. auto.
Qed.

Lemma split_go_end cur : cur <> [] -> split_go cur [] = [rev cur].
Proof. now destruct cur. Qed.

(** A token, then a gap: [split] gives the token and goes on. *)
Lemma split_token_gap tok w rest :
  token tok -> tok <> [] -> gap w ->
  split_go [] (tok ++ w ++ rest) = tok :: split_go [] rest.
Proof.
  intros Ht Hne Hw. rewrite split_go_token by done. rewrite app_nil_r.
  rewrite split_go_gap; [now rewrite rev_involutive|done|].
  intros E. apply (f_equal (@rev _)) in E. rewrite rev_involutive in E. done.
Qed.

Lemma split_token_end tok :
  token tok -> tok <> [] -> split_go [] tok = [tok].
Proof.
  intros Ht Hne. rewrite <- (app_nil_r tok) at 1.
  rewrite split_go_token by done. rewrite app_nil_r.
  rewrite split_go_end; [now rewrite rev_involutive|].
  intros E. apply (f_equal (@rev _)) in E. rewrite rev_involutive in E. done.
Qed.

(** ** The matcher and the language *)

Lemma take_consumed (w rest : str) :
  take (length (w ++ rest) - length rest) (w ++ rest) = w.
Proof.
  rewrite length_app. replace (length w + length rest - length rest)%nat
    with (length w) by lia.
  now rewrite take_app_length.
Qed.

Lemma rep_match_sound {R} ic c min s (k : str -> option R) x :
  rep_match ic c min s k = Some x ->
  exists w rest,
    s = w ++ rest /\ forallb (cls_match ic c) w = true
    /\ (min <= length w)%nat /\ k rest = Some x.
Proof.
  revert min. induction s as [|y s IH]; intros min; cbn.
  - destruct min; [|done]. intros H. exists [], []. cbn. auto with lia.
  - assert (Hstop : match min with O => k (y :: s) | S _ => None end = Some x ->
              exists w rest, y :: s = w ++ rest
                /\ forallb (cls_match ic c) w = true
                /\ (min <= length w)%nat /\ k rest = Some x).
    { destruct min; [|done]. intros H. exists [], (y :: s). cbn.
      auto with lia. }
    destruct (cls_match ic c y) eqn:Ey; [|exact Hstop].
    destruct (rep_match ic c (Nat.pred min) s k) as [x'|] eqn:E;
      [|exact Hstop].
    intros [= ->]. destruct (IH _ E) as (w & rest & -> & Hw & Hmin & Hk).
    exists (y :: w), rest. cbn. rewrite Ey, Hw. repeat split; [lia|done].
Qed.

(** What the matcher finds is in the language. *)
Lemma rmatch_sound {R} ic r :
  forall s g (k : str -> list str -> option R) x,
    rmatch ic r s g k = Some x ->
    exists w rest c,
      s = w ++ rest /\ accepts ic r w rest c /\ k rest (g ++ c) = Some x.
Proof.
  induction r as [|c|r1 IH1 r2 IH2|r1 IH1 r2 IH2|min c|r IH|];
    intros s g k x; cbn [rmatch].
  - intros H. exists [], s, []. rewrite (app_nil_r g).
    split; [done|]. split; [constructor|done].
  - destruct s as [|y s]; [done|].
    destruct (cls_match ic c y) eqn:E; [|done].
    intros H. exists [y], s, []. rewrite (app_nil_r g).
    split; [done|]. split; [now constructor|done].
  - intros H. apply IH1 in H as (w1 & rest1 & c1 & -> & H1 & H).
    apply IH2 in H as (w2 & rest & c2 & -> & H2 & H).
    exists (w1 ++ w2), rest, (c1 ++ c2).
    rewrite <- !app_assoc. rewrite <- app_assoc in H.
    split; [done|]. split; [now constructor|done].
  - destruct (rmatch ic r1 s g k) as [x'|] eqn:E.
    + intros [= ->]. apply IH1 in E as (w & rest & c & -> & H1 & H).
      exists w, rest, c. split; [done|]. split; [now apply acc_alt_l|done].
    + intros H. apply IH2 in H as (w & rest & c & -> & H2 & H).
      exists w, rest, c. split; [done|]. split; [now apply acc_alt_r|done].
  - intros H. apply rep_match_sound in H as (w & rest & -> & Hw & Hmin & H).
    exists w, rest, []. rewrite (app_nil_r g).
    split; [done|]. split; [now constructor|done].
  - intros H. apply IH in H as (w & rest & c & -> & H1 & H).
    rewrite take_consumed in H. exists w, rest, (c ++ [w]).
    rewrite <- app_assoc in H.
    split; [done|]. split; [now constructor|done].
  - destruct s as [|y [|z s]].
    + intros H. exists [], [], []. rewrite (app_nil_r g).
      split; [done|]. split; [constructor; auto|done].
    + destruct (char_eqb y "010") eqn:E; [|done].
      apply char_eqb_eq in E as ->. intros H. exists [], [NL], [].
      rewrite (app_nil_r g). split; [done|].
      split; [constructor; auto|done].
    + done.
Qed.

(** ** Matching what is expected

    Each lemma says: when the continuation accepts what is left after
    the expected text, the match succeeds with its answer. *)

Section Expected.
Context {R : Type}.
Implicit Types (k : str -> list str -> option R) (x : R).

Lemma rmatch_group ic r s g k :
  rmatch ic (Group r) s g k
  = rmatch ic r s g
      (fun s' g' => k s' (g' ++ [take (length s - length s') s])).
Proof. reflexivity. Qed.

Lemma rmatch_cat ic r1 r2 s g k :
  rmatch ic (Cat r1 r2) s g k
  = rmatch ic r1 s g (fun s' g' => rmatch ic r2 s' g' k).
Proof. reflexivity. Qed.

Lemma rmatch_chr ic c rest g k :
  lower_char c = c ->
  rmatch ic (chr c) (c :: rest) g k = k rest g.
Proof.
  intros Hc. cbn. destruct ic; [rewrite Hc|]; now rewrite char_eqb_refl.
Qed.

Lemma rmatch_space ic rest g k x :
  starts_space rest = false -> k rest g = Some x ->
  rmatch ic spaces (" "%char :: rest) g k = Some x.
Proof.
  intros Hrest Hk. cbn.
  destruct rest as [|y rest]; cbn; [now rewrite Hk|].
  cbn in Hrest. rewrite Hrest. now rewrite Hk.
Qed.

(** A word of letters, whatever their case. *)
Lemma rmatch_chars word w rest g k :
  lower w = word -> lower word = word ->
  rmatch true (chars word) (w ++ rest) g k = k rest g.
Proof.
  intros <-. revert rest g k. induction w as [|c w IH]; intros rest g k Hl.
  - reflexivity.
  - cbn in Hl. injection Hl as Hc Hw. cbn.
    rewrite Hc, char_eqb_refl. apply IH. exact Hw.
Qed.

Lemma rmatch_chars_fail word w rest g k :
  length w = length word -> lower word = word -> lower w <> word ->
  rmatch true (chars word) (w ++ rest) g k = None.
Proof.
  revert word. induction w as [|c w IH]; intros [|d word] Hlen Hword Hne;
    try done.
  cbn in Hword. injection Hword as Hd Hword. cbn. rewrite Hd.
  destruct (char_eqb (lower_char c) d) eqn:E; [|done].
  apply char_eqb_eq in E. apply IH; [cbn in Hlen; lia|done|].
  intros Hw. apply Hne. unfold lower in *. cbn. congruence.
Qed.

End Expected.

(** ** The groups of the format, on what is expected *)

Lemma pattern_ts_format : pattern _TS_FORMAT = Ok ts_regex.
Proof. vm_compute. reflexivity. Qed.

Lemma numeral_1_2 v s :
  numeral 1 2 v s ->
  (exists c, s = [c] /\ isdigit c = true /\ v = digit_val c)
  \/ (exists c1 c2, s = [c1; c2] /\ isdigit c1 = true /\ isdigit c2 = true
                    /\ v = 10 * digit_val c1 + digit_val c2).
Proof.
  intros (Hlen & Hd & Hv). destruct s as [|c1 [|c2 [|c3 s]]]; cbn in *;
    try lia.
  - left. exists c1. rewrite andb_true_r in Hd. unfold int_of_digits in Hv.
    cbn in Hv. repeat split; try done; try lia.
  - right. exists c1, c2. apply andb_prop in Hd as [H1 H2].
    rewrite andb_true_r in H2. unfold int_of_digits in Hv. cbn in Hv.
    repeat split; try done; try lia.
Qed.

Lemma numeral_4 v s :
  numeral 4 4 v s ->
  exists c1 c2 c3 c4,
    s = [c1; c2; c3; c4]
    /\ isdigit c1 = true /\ isdigit c2 = true
    /\ isdigit c3 = true /\ isdigit c4 = true
    /\ v = 1000 * digit_val c1 + 100 * digit_val c2
           + 10 * digit_val c3 + digit_val c4.
Proof.
  intros (Hlen & Hd & Hv).
  destruct s as [|c1 [|c2 [|c3 [|c4 [|c5 s]]]]]; cbn in Hlen; try lia.
  exists c1, c2, c3, c4. cbn in Hd.
  apply andb_prop in Hd as [H1 Hd]. apply andb_prop in Hd as [H2 Hd].
  apply andb_prop in Hd as [H3 Hd]. rewrite andb_true_r in Hd.
  unfold int_of_digits in Hv. cbn in Hv. repeat split; try done; try lia.
Qed.

Lemma numeral_token lo hi v s : numeral lo hi v s -> token s.
Proof. intros (_ & Hd & _). now apply token_digits. Qed.

Lemma numeral_nonempty hi v s : numeral 1 hi v s -> s <> [].
Proof. intros (Hlen & _). destruct s; cbn in Hlen; [lia|done]. Qed.

Lemma numeral_starts_digit lo hi v s rest :
  numeral (S lo) hi v s -> starts_space (s ++ rest) = false.
Proof.
  intros (Hlen & Hd & _). destruct s as [|c s]; cbn in *; [lia|].
  apply andb_prop in Hd as [Hc _]. now apply isdigit_not_space.
Qed.

(** One case for each digit. *)
Ltac each_digit H :=
  apply isdigit_cases in H; cbn in H;
  repeat (destruct H as [<-|H]); [..|destruct H].

(** The value of each digit in [H]. *)
Ltac digit_values H :=
  repeat match type of H with
         | context [digit_val ?c] =>
             tryif is_var c then fail
             else (let v := eval vm_compute in (digit_val c) in
                   change (digit_val c) with v in H)
         end.

Section ExpectedGroups.
Context {R : Type}.
Implicit Types (k : str -> list str -> option R) (x : R).

Lemma rmatch_one_of_from w rest g k ws r0 :
  Forall (fun v => length v = length w /\ lower v = v) ws ->
  rmatch true (fold_left (fun r v => Alt r (chars v)) ws r0) (w ++ rest) g k
  = match rmatch true r0 (w ++ rest) g k with
    | Some x => Some x
    | None => if existsb (str_eqb (lower w)) ws then k rest g else None
    end.
Proof.
  revert r0. induction ws as [|v ws IH]; intros r0 Hws; cbn [fold_left].
  - cbn. now destruct (rmatch true r0 (w ++ rest) g k).
  - apply Forall_cons in Hws as [[Hlen Hv] Hws]. rewrite IH by done.
    cbn [rmatch existsb].
    destruct (rmatch true r0 (w ++ rest) g k) as [x|]; [done|].
    destruct (str_eqb (lower w) v) eqn:E.
    + apply str_eqb_eq in E. rewrite (rmatch_chars v) by done. cbn.
      destruct (k rest g); [done|].
      now destruct (existsb (str_eqb (lower w)) ws).
    + rewrite rmatch_chars_fail; [done|done|done|].
      intros E'. apply str_eqb_eq in E'. congruence.
Qed.

(** A word among [words], in any case. *)
Lemma rmatch_one_of words w rest g k :
  Forall (fun v => length v = length w /\ lower v = v) words ->
  lower w ∈ words ->
  rmatch true (Group (one_of words)) (w ++ rest) g k = k rest (g ++ [w]).
Proof.
  intros Hws Hin. rewrite rmatch_group. destruct words as [|v ws]; [|].
  { now apply elem_of_nil in Hin. }
  apply Forall_cons in Hws as [[Hlen Hv] Hws].
  unfold one_of. rewrite rmatch_one_of_from by done.
  rewrite take_consumed.
  destruct (str_eqb (lower w) v) eqn:E.
  - apply str_eqb_eq in E. rewrite (rmatch_chars v) by done.
    rewrite take_consumed.
    destruct (k rest (g ++ [w])); [done|].
    now destruct (existsb (str_eqb (lower w)) ws).
  - rewrite rmatch_chars_fail; [|done|done|].
    + apply elem_of_cons in Hin as [Hin|Hin].
      { apply str_eqb_eq in Hin. congruence. }
      assert (existsb (str_eqb (lower w)) ws = true) as ->; [|done].
      apply existsb_exists. exists (lower w).
      split; [now apply list_elem_of_In|now apply str_eqb_eq].
    + intros E'. apply str_eqb_eq in E'. congruence.
Qed.

Lemma month_abbrev_length m mon : month_abbrev m mon -> length mon = 3%nat.
Proof.
  intros (Hm & H). apply (f_equal length) in H. unfold lower in H.
  rewrite length_map in H. rewrite H.
  assert (Hc : In m [1;2;3;4;5;6;7;8;9;10;11;12]) by (cbn; lia).
  cbn in Hc. repeat (destruct Hc as [<-|Hc]; [reflexivity|]). destruct Hc.
Qed.

Lemma month_abbrev_in m mon : month_abbrev m mon -> lower mon ∈ a_month.
Proof.
  intros (Hm & ->).
  assert (Hc : In m [1;2;3;4;5;6;7;8;9;10;11;12]) by (cbn; lia).
  cbn in Hc.
  repeat (destruct Hc as [<-|Hc];
          [apply (bool_decide_unpack _); vm_compute; exact I|]).
  destruct Hc.
Qed.

Lemma month_abbrev_index m mon :
  month_abbrev m mon -> index_of (lower mon) ([] :: a_month) = Some m.
Proof.
  intros (Hm & ->).
  assert (Hc : In m [1;2;3;4;5;6;7;8;9;10;11;12]) by (cbn; lia).
  cbn in Hc. repeat (destruct Hc as [<-|Hc]; [vm_compute; reflexivity|]).
  destruct Hc.
Qed.

Lemma rmatch_month m mon rest g k :
  month_abbrev m mon ->
  rmatch true (re_of "b") (mon ++ rest) g k = k rest (g ++ [mon]).
Proof.
  intros H. change (re_of "b") with (Group (one_of a_month)).
  apply rmatch_one_of; [|now apply (month_abbrev_in m)].
  rewrite (month_abbrev_length m mon H).
  repeat constructor.
Qed.

Lemma meridiem_length pm mer : meridiem pm mer -> length mer = 2%nat.
Proof.
  unfold meridiem. intros H. apply (f_equal length) in H. unfold lower in H.
  rewrite length_map in H. rewrite H. now destruct pm.
Qed.

Lemma rmatch_meridiem pm mer rest g k :
  meridiem pm mer ->
  rmatch true (re_of "p") (mer ++ rest) g k = k rest (g ++ [mer]).
Proof.
  intros H. change (re_of "p") with (Group (one_of am_pm)).
  apply rmatch_one_of.
  - rewrite (meridiem_length pm mer H). repeat constructor.
  - unfold meridiem in H. rewrite H.
    destruct pm; apply (bool_decide_unpack _); vm_compute; exact I.
Qed.

(** The group around an expected text. *)
Lemma rmatch_group_expected ic r w rest g k x :
  (forall K : str -> list str -> option R,
      K rest g = Some x -> rmatch ic r (w ++ rest) g K = Some x) ->
  k rest (g ++ [w]) = Some x ->
  rmatch ic (Group r) (w ++ rest) g k = Some x.
Proof.
  intros H Hk. rewrite rmatch_group. apply H. now rewrite take_consumed.
Qed.

Lemma rmatch_year v yyyy rest g k x :
  numeral 4 4 v yyyy ->
  k rest (g ++ [yyyy]) = Some x ->
  rmatch true (re_of "Y") (yyyy ++ rest) g k = Some x.
Proof.
  intros (c1 & c2 & c3 & c4 & -> & H1 & H2 & H3 & H4 & _)%numeral_4.
  change (re_of "Y") with (Group (inner (re_of "Y"))).
  apply rmatch_group_expected. intros K HK.
  change (inner (re_of "Y"))
    with (Cat digit (Cat digit (Cat digit digit))).
  unfold digit. cbn [rmatch app cls_match].
  now rewrite H1, H2, H3, H4.
Qed.

(** A numeral of one or two digits, followed by a character that is no
    digit: the alternatives before the one that reads the numeral fail
    on a character. *)
Lemma rmatch_day v dd rest g k x :
  numeral 1 2 v dd -> 1 <= v <= 31 ->
  k (","%char :: rest) (g ++ [dd]) = Some x ->
  rmatch true (re_of "d") (dd ++ ","%char :: rest) g k = Some x.
Proof.
  intros Hn Hv. change (re_of "d") with (Group (inner (re_of "d"))).
  apply rmatch_group_expected. intros K HK.
  apply numeral_1_2 in Hn as [(c & -> & Hc & ->)|(c1 & c2 & -> & H1 & H2 & ->)].
  - each_digit Hc; try (exfalso; digit_values Hv; lia);
      vm_compute; now rewrite HK.
  - each_digit H1; each_digit H2;
      try (exfalso; digit_values Hv; lia);
      vm_compute; now rewrite HK.
Qed.

Lemma rmatch_hour v hh rest g k x :
  numeral 1 2 v hh -> 1 <= v <= 12 ->
  k (":"%char :: rest) (g ++ [hh]) = Some x ->
  rmatch true (re_of "I") (hh ++ ":"%char :: rest) g k = Some x.
Proof.
  intros Hn Hv. change (re_of "I") with (Group (inner (re_of "I"))).
  apply rmatch_group_expected. intros K HK.
  apply numeral_1_2 in Hn as [(c & -> & Hc & ->)|(c1 & c2 & -> & H1 & H2 & ->)].
  - each_digit Hc; try (exfalso; digit_values Hv; lia);
      vm_compute; now rewrite HK.
  - each_digit H1; each_digit H2;
      try (exfalso; digit_values Hv; lia);
      vm_compute; now rewrite HK.
Qed.

Lemma rmatch_minute v mm rest g k x :
  numeral 1 2 v mm -> 0 <= v <= 59 ->
  k (":"%char :: rest) (g ++ [mm]) = Some x ->
  rmatch true (re_of "M") (mm ++ ":"%char :: rest) g k = Some x.
Proof.
  intros Hn Hv. change (re_of "M") with (Group (inner (re_of "M"))).
  apply rmatch_group_expected. intros K HK.
  apply numeral_1_2 in Hn as [(c & -> & Hc & ->)|(c1 & c2 & -> & H1 & H2 & ->)].
  - each_digit Hc; try (exfalso; digit_values Hv; lia);
      vm_compute; now rewrite HK.
  - each_digit H1; each_digit H2;
      try (exfalso; digit_values Hv; lia);
      vm_compute; now rewrite HK.
Qed.

Lemma rmatch_second v ss rest g k x :
  numeral 1 2 v ss -> 0 <= v <= 59 ->
  k (" "%char :: rest) (g ++ [ss]) = Some x ->
  rmatch true (re_of "S") (ss ++ " "%char :: rest) g k = Some x.
Proof.
  intros Hn Hv. change (re_of "S") with (Group (inner (re_of "S"))).
  apply rmatch_group_expected. intros K HK.
  apply numeral_1_2 in Hn as [(c & -> & Hc & ->)|(c1 & c2 & -> & H1 & H2 & ->)].
  - each_digit Hc; try (exfalso; digit_values Hv; lia);
      vm_compute; now rewrite HK.
  - each_digit H1; each_digit H2;
      try (exfalso; digit_values Hv; lia);
      vm_compute; now rewrite HK.
Qed.

End ExpectedGroups.

(** ** [strptime] on a timestamp with one space at each gap *)

Lemma _days_in_month_le year month : _days_in_month year month <= 31.
Proof.
  unfold _days_in_month. destruct (_ && _); [lia|].
  destruct (Z.to_nat month) as [|[|[|[|[|[|[|[|[|[|[|[|[|[|n]]]]]]]]]]]]]];
    cbn; lia.
Qed.


Lemma int_numeral lo hi v s : numeral (S lo) hi v s -> int s = Ok v.
Proof.
  intros Hn. pose proof (numeral_token _ _ _ _ Hn) as Ht.
  destruct Hn as (Hlen & Hd & Hv). unfold int.
  rewrite (token_strip s Ht), Hd.
  destruct s; cbn in Hlen; [lia|]. cbn [truthy andb]. now rewrite Hv.
Qed.

Lemma re_match_canonical t mon dd yyyy hh mm ss mer :
  valid_stamp t ->
  month_abbrev (st_month t) mon ->
  numeral 1 2 (st_day t) dd ->
  numeral 4 4 (st_year t) yyyy ->
  numeral 1 2 (st_hour t) hh ->
  numeral 1 2 (st_minute t) mm ->
  numeral 1 2 (st_second t) ss ->
  meridiem (st_pm t) mer ->
  re_match true ts_regex (canonical mon dd yyyy hh mm ss mer)
  = Some ([mon; dd; yyyy; hh; mm; ss; mer], []).
Proof.
  intros (Hy & Hmo & Hd & Hh & Hmi & Hs) Hmon Hdd Hyyyy Hhh Hmm Hss Hmer.
  pose proof (_days_in_month_le (st_year t) (st_month t)) as Hdim.
  unfold re_match, ts_regex, canonical. rewrite <- (app_nil_r mer) at 1.
  rewrite rmatch_cat, (rmatch_month (st_month t)) by done.
  rewrite rmatch_cat.
  apply rmatch_space; [now apply (numeral_starts_digit 0 2 (st_day t))|].
  cbv beta. rewrite rmatch_cat.
  apply (rmatch_day (st_day t)); [done|lia|].
  cbv beta. rewrite rmatch_cat, rmatch_chr by reflexivity.
  rewrite rmatch_cat.
  apply rmatch_space; [now apply (numeral_starts_digit 3 4 (st_year t))|].
  cbv beta. rewrite rmatch_cat.
  apply (rmatch_year (st_year t)); [done|].
  cbv beta. rewrite rmatch_cat.
  apply rmatch_space; [now apply (numeral_starts_digit 0 2 (st_hour t))|].
  cbv beta. rewrite rmatch_cat.
  apply (rmatch_hour (st_hour t)); [done|lia|].
  cbv beta. rewrite rmatch_cat, rmatch_chr by reflexivity.
  rewrite rmatch_cat.
  apply (rmatch_minute (st_minute t)); [done|lia|].
  cbv beta. rewrite rmatch_cat, rmatch_chr by reflexivity.
  rewrite rmatch_cat.
  apply (rmatch_second (st_second t)); [done|lia|].
  cbv beta. rewrite rmatch_cat.
  apply rmatch_space.
  { apply token_starts, token_lower. rewrite app_nil_r.
    unfold meridiem in Hmer. rewrite Hmer. now destruct (st_pm t). }
  cbv beta. rewrite rmatch_cat.
  rewrite (rmatch_meridiem (st_pm t)) by done.
  reflexivity.
Qed.

Lemma datetime_new_ok year month day hour minute second :
  1 <= year <= 9999 -> 1 <= month <= 12 ->
  1 <= day <= _days_in_month year month ->
  0 <= hour <= 23 -> 0 <= minute <= 59 -> 0 <= second <= 59 ->
  datetime_new year month day hour minute second
  = Ok {| dt_year := year; dt_month := month; dt_day := day;
          dt_hour := hour; dt_minute := minute; dt_second := second |}.
Proof.
  intros. unfold datetime_new, in_range.
  repeat match goal with
         | |- context [?a <=? ?b] =>
             replace (a <=? b) with true by (symmetry; apply Z.leb_le; lia)
         end.
  reflexivity.
Qed.

Lemma hour24_range t : 1 <= st_hour t <= 12 -> 0 <= hour24 t <= 23.
Proof.
  intros H. unfold hour24.
  pose proof (Z.mod_pos_bound (st_hour t) 12 ltac:(lia)).
  destruct (st_pm t); lia.
Qed.

Lemma convert_groups t mon dd yyyy hh mm ss mer :
  valid_stamp t ->
  month_abbrev (st_month t) mon ->
  numeral 1 2 (st_day t) dd ->
  numeral 4 4 (st_year t) yyyy ->
  numeral 1 2 (st_hour t) hh ->
  numeral 1 2 (st_minute t) mm ->
  numeral 1 2 (st_second t) ss ->
  meridiem (st_pm t) mer ->
  convert [mon; dd; yyyy; hh; mm; ss; mer] = Ok (stamp_datetime t).
Proof.
  intros (Hy & Hmo & Hd & Hh & Hmi & Hs) Hmon Hdd Hyyyy Hhh Hmm Hss Hmer.
  unfold convert. rewrite (month_abbrev_index _ _ Hmon).
  rewrite (int_numeral _ _ _ _ Hdd), (int_numeral _ _ _ _ Hyyyy),
    (int_numeral _ _ _ _ Hhh), (int_numeral _ _ _ _ Hmm),
    (int_numeral _ _ _ _ Hss).
  cbn [mbind result_bind]. unfold meridiem in Hmer. rewrite Hmer.
  pose proof (hour24_range t Hh) as H24. unfold stamp_datetime.
  unfold hour24 in *.
  destruct (st_pm t); cbn [nth am_pm map].
  - replace (str_eqb (lit "pm") (lit "am")) with false by reflexivity.
    replace (str_eqb (lit "pm") (lit "pm")) with true by reflexivity.
    destruct (Z.eqb_spec (st_hour t) 12) as [E|E]; cbn [negb].
    + rewrite datetime_new_ok by lia. rewrite E. reflexivity.
    + rewrite Z.mod_small in * by lia.
      rewrite datetime_new_ok by lia. reflexivity.
  - replace (str_eqb (lit "am") (lit "am")) with true by reflexivity.
    destruct (Z.eqb_spec (st_hour t) 12) as [E|E].
    + rewrite datetime_new_ok by lia. rewrite E. reflexivity.
    + rewrite Z.mod_small in * by lia.
      rewrite datetime_new_ok by lia. do 2 f_equal. lia.
Qed.

(** [strptime] reads a valid stamp written with single spaces. *)
Lemma strptime_canonical t mon dd yyyy hh mm ss mer :
  valid_stamp t ->
  month_abbrev (st_month t) mon ->
  numeral 1 2 (st_day t) dd ->
  numeral 4 4 (st_year t) yyyy ->
  numeral 1 2 (st_hour t) hh ->
  numeral 1 2 (st_minute t) mm ->
  numeral 1 2 (st_second t) ss ->
  meridiem (st_pm t) mer ->
  strptime (canonical mon dd yyyy hh mm ss mer) _TS_FORMAT
  = Ok (stamp_datetime t).
Proof.
  intros. unfold strptime. rewrite pattern_ts_format. cbn [mbind result_bind].
  rewrite (re_match_canonical t) by done. cbn [truthy].
  now apply convert_groups.
Qed.

(** ** Collapsing the whitespace and raising the meridiem *)

Lemma meridiem_cases pm mer :
  meridiem pm mer ->
  exists c1 c2,
    mer = [c1; c2]
    /\ (c1 = (if pm then "p" else "a")%char
        \/ c1 = (if pm then "P" else "A")%char)
    /\ (c2 = "m"%char \/ c2 = "M"%char).
Proof.
  intros H. pose proof (meridiem_length pm mer H) as Hlen.
  destruct mer as [|c1 [|c2 [|c3 mer]]]; try discriminate Hlen.
  exists c1, c2. split; [done|]. unfold meridiem, lower in H.
  destruct pm; cbn in H; injection H as H1 H2.
  - split; [now apply lower_char_p|now apply lower_char_m].
  - split; [now apply lower_char_a|now apply lower_char_m].
Qed.

Lemma meridiem_upper_ok pm mer : meridiem pm mer -> meridiem pm (upper mer).
Proof.
  intros (c1 & c2 & -> & H1 & H2)%meridiem_cases.
  destruct pm, H1 as [-> | ->], H2 as [-> | ->]; reflexivity.
Qed.

Lemma meridiem_token pm mer : meridiem pm mer -> token mer /\ mer <> [].
Proof.
  intros (c1 & c2 & -> & H1 & H2)%meridiem_cases.
  destruct pm, H1 as [-> | ->], H2 as [-> | ->]; split; done.
Qed.

Lemma month_token m mon : month_abbrev m mon -> token mon /\ mon <> [].
Proof.
  intros H. pose proof (month_abbrev_length m mon H) as Hlen.
  split; [|now destruct mon].
  apply token_lower. destruct H as (Hm & ->).
  assert (Hc : In m [1;2;3;4;5;6;7;8;9;10;11;12]) by (cbn; lia).
  cbn in Hc. repeat (destruct Hc as [<-|Hc]; [reflexivity|]). destruct Hc.
Qed.

Local Abbreviation sub_mer := (sub_go true meridiem_re meridiem_upper O).

(** No match starts on a character that is not whitespace. *)
Lemma sub_mer_other c s :
  isspace c = false -> sub_mer (c :: s) = c :: sub_mer s.
Proof.
  intros Hc. rewrite sub_go_here.
  assert (re_match true meridiem_re (c :: s) = None) as ->; [|done].
  unfold re_match, meridiem_re. cbn [rmatch rep_match cls_match].
  now rewrite Hc.
Qed.

Lemma sub_mer_token tok s : token tok -> sub_mer (tok ++ s) = tok ++ sub_mer s.
Proof.
  unfold token. induction tok as [|c tok IH]; cbn [app forallb]; [done|].
  intros [Hc Ht]%andb_prop. apply negb_true_iff in Hc.
  rewrite sub_mer_other by done. now rewrite IH.
Qed.

(** No match starts on a space that a digit follows. *)
Lemma sub_mer_space_digit c s :
  isdigit c = true ->
  sub_mer (" "%char :: c :: s) = " "%char :: sub_mer (c :: s).
Proof.
  intros Hc. rewrite sub_go_here.
  assert (re_match true meridiem_re (" "%char :: c :: s) = None) as ->;
    [|done].
  unfold re_match, meridiem_re. each_digit Hc; reflexivity.
Qed.

(** The match at the end. *)
Lemma sub_mer_end pm mer :
  meridiem pm mer -> sub_mer (" "%char :: mer) = " "%char :: upper mer.
Proof.
  intros (c1 & c2 & -> & H1 & H2)%meridiem_cases.
  destruct pm, H1 as [-> | ->], H2 as [-> | ->]; reflexivity.
Qed.

Lemma sub_mer_digit_token tok s :
  token tok -> (exists c tok', tok = c :: tok' /\ isdigit c = true) ->
  sub_mer (" "%char :: tok ++ s) = " "%char :: tok ++ sub_mer s.
Proof.
  intros Ht (c & tok' & -> & Hc). cbn [app].
  rewrite sub_mer_space_digit by done.
  change (c :: tok' ++ s) with ((c :: tok') ++ s).
  now rewrite sub_mer_token.
Qed.

Lemma numeral_head lo hi v s :
  numeral (S lo) hi v s -> exists c s', s = c :: s' /\ isdigit c = true.
Proof.
  intros (Hlen & Hd & _). destruct s as [|c s]; cbn in *; [lia|].
  apply andb_prop in Hd as [Hc _]. eauto.
Qed.

Lemma token_cons c s : isspace c = false -> token s -> token (c :: s).
Proof. unfold token. cbn. now intros -> ->. Qed.

(** A written stamp, normalized, is the stamp with one space at each gap
    and its meridiem in capitals. *)
Lemma normalized_written t raw :
  written t raw ->
  exists mon dd yyyy hh mm ss mer,
    normalized raw = canonical mon dd yyyy hh mm ss mer
    /\ strip raw <> []
    /\ month_abbrev (st_month t) mon
    /\ numeral 1 2 (st_day t) dd
    /\ numeral 4 4 (st_year t) yyyy
    /\ numeral 1 2 (st_hour t) hh
    /\ numeral 1 2 (st_minute t) mm
    /\ numeral 1 2 (st_second t) ss
    /\ meridiem (st_pm t) mer.
Proof.
  intros [mon dd yyyy hh mm ss mer w0 w1 w2 w3 w4 w5
            Hmon Hdd Hyyyy Hhh Hmm Hss Hmer H0 H1 H2 H3 H4 H5].
  exists mon, dd, yyyy, hh, mm, ss, (upper mer).
  destruct (month_token _ _ Hmon) as [Tmon Nmon].
  destruct (meridiem_token _ _ Hmer) as [Tmer Nmer].
  pose proof (numeral_token _ _ _ _ Hdd) as Tdd.
  pose proof (numeral_token _ _ _ _ Hyyyy) as Tyyyy.
  pose proof (numeral_token _ _ _ _ Hhh) as Thh.
  pose proof (numeral_token _ _ _ _ Hmm) as Tmm.
  pose proof (numeral_token _ _ _ _ Hss) as Tss.
  set (T2 := dd ++ lit ",").
  set (T4 := hh ++ lit ":" ++ mm ++ lit ":" ++ ss).
  assert (TT2 : token T2) by (apply token_app; done).
  assert (TT4 : token T4) by (repeat apply token_app; done).
  assert (NT2 : T2 <> []) by (subst T2; now destruct dd).
  assert (NT4 : T4 <> []) by (subst T4; now destruct hh).
  assert (Nyyyy : yyyy <> []).
  { destruct Hyyyy as (Hlen & _). destruct yyyy; cbn in Hlen; [lia|done]. }
  set (body := mon ++ w1 ++ T2 ++ w2 ++ yyyy ++ w3 ++ T4 ++ w4 ++ mer).
  assert (Hraw : w0 ++ mon ++ w1 ++ dd ++ lit "," ++ w2 ++ yyyy ++ w3
                 ++ hh ++ lit ":" ++ mm ++ lit ":" ++ ss ++ w4 ++ mer ++ w5
                 = w0 ++ body ++ w5).
  { subst body T2 T4. now rewrite <- !app_assoc. }
  rewrite Hraw. clear Hraw.
  assert (Hstrip : strip (w0 ++ body ++ w5) = body).
  { apply strip_blanks; try done.
    - subst body. rewrite starts_space_app by done. now apply token_starts.
    - subst body. rewrite !app_assoc. rewrite ends_space_app by done.
      now apply token_ends. }
  assert (Hsplit : split body = [mon; T2; yyyy; T4; mer]).
  { subst body. unfold split.
    rewrite split_token_gap by done. rewrite split_token_gap by done.
    rewrite split_token_gap by done. rewrite split_token_gap by done.
    now rewrite split_token_end. }
  unfold normalized. rewrite Hstrip, Hsplit.
  split; [|split].
  - unfold re_sub. cbn [join]. change (lit " ") with [" "%char].
    change (fun x => [" "%char] ++ x) with (cons " "%char).
    rewrite sub_mer_token by done. cbn [app].
    rewrite (sub_mer_digit_token T2).
    2: done.
    2: { destruct (numeral_head _ _ _ _ Hdd) as (c & s' & -> & Hc).
         subst T2. cbn. eauto. }
    rewrite (sub_mer_digit_token yyyy).
    2: done.
    2: { destruct (numeral_head _ _ _ _ Hyyyy) as (c & s' & -> & Hc). eauto. }
    rewrite (sub_mer_digit_token T4).
    2: done.
    2: { destruct (numeral_head _ _ _ _ Hhh) as (c & s' & -> & Hc).
         subst T4. cbn. eauto. }
    rewrite (sub_mer_end (st_pm t)) by done.
    subst T2 T4. unfold canonical. rewrite <- !app_assoc. reflexivity.
  - subst body. now destruct mon.
  - do 6 (split; [assumption|]). now apply (meridiem_upper_ok (st_pm t)).
Qed.

(** A valid stamp, written in the fixed format, is read. *)
Lemma safe_parse_written t raw :
  valid_stamp t -> written t raw ->
  _safe_parse_timestamp raw = Ok (Some (stamp_datetime t)).
Proof.
  intros Hv Hw.
  destruct (normalized_written t raw Hw)
    as (mon & dd & yyyy & hh & mm & ss & mer & Hn & Hne & H).
  destruct H as (Hmon & Hdd & Hyyyy & Hhh & Hmm & Hss & Hmer).
  unfold _safe_parse_timestamp.
  destruct (strip raw) as [|c s] eqn:E; [done|]. cbn [truthy negb].
  unfold normalized in Hn. rewrite E in Hn. rewrite Hn.
  now rewrite (strptime_canonical t).
Qed.

(** ** Datetimes and instants *)

Lemma _days_before_year_step y :
  _days_before_year (y + 1)
  = _days_before_year y + (if _is_leap y then 366 else 365).
Proof.
  unfold _days_before_year, _is_leap.
  replace (y + 1 - 1) with y by lia.
  destruct (Z.eqb_spec (y mod 4) 0) as [H4|H4];
    destruct (Z.eqb_spec (y mod 100) 0) as [H100|H100];
    destruct (Z.eqb_spec (y mod 400) 0) as [H400|H400];
    cbn [andb orb negb];
    Z.div_mod_to_equations; lia.
Qed.

Lemma _days_before_year_mono y y' :
  y <= y' -> _days_before_year y <= _days_before_year y'.
Proof.
  intros H. replace y' with (y + (y' - y)) by lia.
  assert (Hn : 0 <= y' - y) by lia. revert Hn.
  generalize (y' - y). clear. intros n Hn. revert n Hn.
  apply natlike_ind; [rewrite Z.add_0_r; lia|].
  intros n Hn IH. replace (y + Z.succ n) with (y + n + 1) by lia.
  rewrite _days_before_year_step. destruct (_is_leap (y + n)); lia.
Qed.

Lemma month_cases m :
  1 <= m <= 12 -> In m [1; 2; 3; 4; 5; 6; 7; 8; 9; 10; 11; 12].
Proof. cbn. lia. Qed.

Ltac month_nat :=
  repeat match goal with
         | |- context [Z.to_nat ?m] =>
             let v := eval vm_compute in (Z.to_nat m) in
             change (Z.to_nat m) with v
         end.

(** A day of a month is a day of the year. *)
Lemma day_of_year_range y m d :
  1 <= m <= 12 -> 1 <= d <= _days_in_month y m ->
  1 <= _days_before_month y m + d <= (if _is_leap y then 366 else 365).
Proof.
  intros Hm%month_cases. unfold _days_in_month, _days_before_month.
  cbn in Hm.
  repeat (destruct Hm as [<-|Hm];
          [month_nat; cbn; destruct (_is_leap y); cbn; lia|]).
  destruct Hm.
Qed.

(** The days of a month come before those of a later month. *)
Lemma day_of_year_mono y m d m' d' :
  1 <= m <= 12 -> 1 <= m' <= 12 -> m < m' ->
  1 <= d <= _days_in_month y m -> 1 <= d' ->
  _days_before_month y m + d < _days_before_month y m' + d'.
Proof.
  intros Hm%month_cases Hm'%month_cases.
  unfold _days_in_month, _days_before_month. cbn in Hm, Hm'.
  repeat (destruct Hm as [<-|Hm];
          [repeat (destruct Hm' as [<-|Hm'];
                   [month_nat; cbn; destruct (_is_leap y); cbn; lia|]);
           destruct Hm'|]).
  destruct Hm.
Qed.

Lemma _ymd2ord_year y m d y' m' d' :
  1 <= m <= 12 -> 1 <= d <= _days_in_month y m ->
  1 <= m' <= 12 -> 1 <= d' <= _days_in_month y' m' ->
  y < y' -> _ymd2ord y m d < _ymd2ord y' m' d'.
Proof.
  intros Hm Hd Hm' Hd' Hy. unfold _ymd2ord.
  pose proof (day_of_year_range y m d Hm Hd).
  pose proof (day_of_year_range y' m' d' Hm' Hd').
  pose proof (_days_before_year_step y).
  pose proof (_days_before_year_mono (y + 1) y' ltac:(lia)).
  destruct (_is_leap y); lia.
Qed.

(** Earlier by the fields is earlier in time. *)
Lemma dt_lt_instant a b :
  valid_datetime a -> valid_datetime b ->
  dt_lt a b = true -> dt_instant a < dt_instant b.
Proof.
  intros (Hy & Hm & Hd & Hh & Hmi & Hs) (Hy' & Hm' & Hd' & Hh' & Hmi' & Hs').
  unfold dt_lt, dt_fields, dt_instant. cbn [lex_lt].
  destruct a as [y m d h mi s], b as [y' m' d' h' mi' s']. cbn in *.
  destruct (Z.eqb_spec y y') as [<-|Ey].
  2: { intros H%Z.ltb_lt.
       pose proof (_ymd2ord_year y m d y' m' d' Hm Hd Hm' Hd' H). lia. }
  destruct (Z.eqb_spec m m') as [<-|Em].
  2: { intros H%Z.ltb_lt. unfold _ymd2ord.
       pose proof (day_of_year_mono y m d m' d' Hm Hm' H Hd ltac:(lia)).
       lia. }
  destruct (Z.eqb_spec d d') as [<-|Ed].
  2: { intros H%Z.ltb_lt. unfold _ymd2ord. lia. }
  destruct (Z.eqb_spec h h') as [<-|Eh]; [|intros H%Z.ltb_lt; lia].
  destruct (Z.eqb_spec mi mi') as [<-|Emi]; [|intros H%Z.ltb_lt; lia].
  destruct (Z.eqb_spec s s') as [<-|Es]; [done|intros H%Z.ltb_lt; lia].
Qed.

(** The order of the datetimes is the order of the instants. *)
Lemma dt_lt_iff_instant a b :
  valid_datetime a -> valid_datetime b ->
  dt_lt a b = true <-> dt_instant a < dt_instant b.
Proof.
  intros Ha Hb. split; [now apply dt_lt_instant|].
  intros H. destruct (dt_lt_total a b) as [Hlt|[->|Hgt]]; [done|lia|].
  apply (dt_lt_instant b a Hb Ha) in Hgt. lia.
Qed.

Lemma stamp_datetime_valid t : valid_stamp t -> valid_datetime (stamp_datetime t).
Proof.
  intros (Hy & Hm & Hd & Hh & Hmi & Hs). unfold valid_datetime. cbn.
  pose proof (hour24_range t Hh). tauto.
Qed.

(** ** Valid timestamps *)

(** C6: for every pair of raw timestamp strings A and B that are valid
    under the fixed format (any case of the letters, any whitespace where
    the format has a space, and around the whole), normalization of each
    succeeds, and if the instant denoted by A precedes the instant
    denoted by B then normalized(A) < normalized(B). *)
Theorem valid_timestamps_order a b A B :
  valid_stamp a -> written a A ->
  valid_stamp b -> written b B ->
  _safe_parse_timestamp A = Ok (Some (stamp_datetime a))
  /\ _safe_parse_timestamp B = Ok (Some (stamp_datetime b))
  /\ (instant a < instant b ->
      dt_lt (stamp_datetime a) (stamp_datetime b) = true).
Proof.
  intros Ha HA Hb HB.
  split; [now apply safe_parse_written|].
  split; [now apply safe_parse_written|].
  intros H. apply dt_lt_iff_instant; [| |exact H];
    now apply stamp_datetime_valid.
Qed.

Ltac solve_numeral :=
  split; [cbn; lia|]; split; vm_compute; reflexivity.

Ltac solve_blank := vm_compute; reflexivity.

Ltac solve_gap := split; [discriminate|vm_compute; reflexivity].

Lemma written_evening :
  written stamp_evening (lit "Jan 11, 2026 9:02:58 pm").
Proof.
  apply (Written stamp_evening (lit "Jan") (lit "11") (lit "2026")
           (lit "9") (lit "02") (lit "58") (lit "pm")
           [] (lit " ") (lit " ") (lit " ") (lit " ") []);
    try solve_numeral; try solve_blank; try solve_gap;
    try (split; [cbn; lia|reflexivity]).
Qed.

Lemma written_midnight :
  written stamp_midnight (lit "  jan  11,   2026 11:59:59   PM ").
Proof.
  apply (Written stamp_midnight (lit "jan") (lit "11") (lit "2026")
           (lit "11") (lit "59") (lit "59") (lit "PM")
           (lit "  ") (lit "  ") (lit "   ") (lit " ") (lit "   ") (lit " "));
    try solve_numeral; try solve_blank; try solve_gap;
    try (split; [cbn; lia|reflexivity]).
Qed.

Lemma valid_stamp_evening : valid_stamp stamp_evening.
Proof.
  unfold valid_stamp. cbn -[_days_in_month].
  change (_days_in_month 2026 1) with 31. lia.
Qed.

Lemma valid_stamp_midnight : valid_stamp stamp_midnight.
Proof.
  unfold valid_stamp. cbn -[_days_in_month].
  change (_days_in_month 2026 1) with 31. lia.
Qed.

Lemma valid_timestamps_order_witness :
  _safe_parse_timestamp (lit "Jan 11, 2026 9:02:58 pm")
  = Ok (Some (stamp_datetime stamp_evening))
  /\ _safe_parse_timestamp (lit "  jan  11,   2026 11:59:59   PM ")
     = Ok (Some (stamp_datetime stamp_midnight))
  /\ dt_lt (stamp_datetime stamp_evening) (stamp_datetime stamp_midnight)
     = true.
Proof.
  destruct (valid_timestamps_order stamp_evening stamp_midnight
              (lit "Jan 11, 2026 9:02:58 pm")
              (lit "  jan  11,   2026 11:59:59   PM ")
              valid_stamp_evening written_evening
              valid_stamp_midnight written_midnight) as (HA & HB & Hlt).
  split; [exact HA|]. split; [exact HB|].
  apply Hlt. vm_compute. reflexivity.
Defined.

(** ** What [strptime] reads is in the format *)

Lemma accepts_eps_inv ic w rest g :
  accepts ic Eps w rest g -> w = [] /\ g = [].
Proof. now inversion 1. Qed.

Lemma accepts_atom_inv ic c w rest g :
  accepts ic (Atom c) w rest g ->
  exists x, w = [x] /\ g = [] /\ cls_match ic c x = true.
Proof. inversion 1; subst. eauto. Qed.

Lemma accepts_cat_inv ic r1 r2 w rest g :
  accepts ic (Cat r1 r2) w rest g ->
  exists w1 w2 g1 g2,
    w = w1 ++ w2 /\ g = g1 ++ g2
    /\ accepts ic r1 w1 (w2 ++ rest) g1 /\ accepts ic r2 w2 rest g2.
Proof. inversion 1; subst. eauto 10. Qed.

Lemma accepts_alt_inv ic r1 r2 w rest g :
  accepts ic (Alt r1 r2) w rest g ->
  accepts ic r1 w rest g \/ accepts ic r2 w rest g.
Proof. inversion 1; subst; auto. Qed.

Lemma accepts_rep_inv ic min c w rest g :
  accepts ic (Rep min c) w rest g ->
  g = [] /\ forallb (cls_match ic c) w = true /\ (min <= length w)%nat.
Proof. inversion 1; subst. auto. Qed.

Lemma accepts_group_inv ic r w rest g :
  accepts ic (Group r) w rest g ->
  exists g', g = g' ++ [w] /\ accepts ic r w rest g'.
Proof. inversion 1; subst. eauto. Qed.

(** Take a derivation apart, down to the characters. *)
Ltac inv_accepts :=
  repeat match goal with
         | H : accepts _ (Cat _ _) _ _ _ |- _ =>
             apply accepts_cat_inv in H as (? & ? & ? & ? & -> & -> & ? & ?)
         | H : accepts _ (Alt _ _) _ _ _ |- _ =>
             apply accepts_alt_inv in H as [H|H]
         | H : accepts _ (Atom _) _ _ _ |- _ =>
             apply accepts_atom_inv in H as (? & -> & -> & H)
         | H : accepts _ Eps _ _ _ |- _ =>
             apply accepts_eps_inv in H as (-> & ->)
         | H : accepts _ (Group _) _ _ _ |- _ =>
             apply accepts_group_inv in H as (? & -> & H)
         | H : accepts _ (Rep _ _) _ _ _ |- _ =>
             apply accepts_rep_inv in H as (-> & H & ?)
         end.

Lemma accepts_chars word w rest g :
  accepts true (chars word) w rest g -> g = [] /\ lower w = lower word.
Proof.
  revert w g. induction word as [|c word IH]; intros w g H; cbn in H.
  - now apply accepts_eps_inv in H as (-> & ->).
  - apply accepts_cat_inv in H as (w1 & w2 & g1 & g2 & -> & -> & H1 & H2).
    apply accepts_atom_inv in H1 as (x & -> & -> & Hx).
    apply IH in H2 as (-> & Hw). split; [done|].
    cbn in Hx. apply char_eqb_eq in Hx. unfold lower in *. cbn. congruence.
Qed.

Lemma accepts_one_of_from ws r0 w rest g :
  accepts true (fold_left (fun r v => Alt r (chars v)) ws r0) w rest g ->
  accepts true r0 w rest g \/ (g = [] /\ lower w ∈ map lower ws).
Proof.
  revert r0. induction ws as [|v ws IH]; intros r0; cbn [fold_left map].
  - auto.
  - intros [[H|H]%accepts_alt_inv|(-> & H)]%IH.
    + now left.
    + right. apply accepts_chars in H as (-> & ->). split; [done|].
      apply elem_of_cons. now left.
    + right. split; [done|]. apply elem_of_cons. now right.
Qed.

Lemma accepts_one_of v ws w rest g :
  accepts true (Group (one_of (v :: ws))) w rest g ->
  g = [w] /\ lower w ∈ map lower (v :: ws).
Proof.
  intros (g' & -> & H)%accepts_group_inv. unfold one_of in H.
  apply accepts_one_of_from in H as [H|(-> & H)].
  - apply accepts_chars in H as (-> & ->). split; [done|].
    apply elem_of_cons. now left.
  - split; [done|]. cbn [map]. apply elem_of_cons. now right.
Qed.

Lemma accepts_month w rest g :
  accepts true (re_of "b") w rest g ->
  g = [w] /\ exists m, month_abbrev m w.
Proof.
  change (re_of "b") with (Group (one_of a_month)).
  intros (-> & H)%accepts_one_of. split; [done|].
  apply list_elem_of_In in H. cbn in H.
  destruct H as [H|[H|[H|[H|[H|[H|[H|[H|[H|[H|[H|[H|[]]]]]]]]]]]]].
  - exists 1. split; [lia|]. now rewrite <- H.
  - exists 2. split; [lia|]. now rewrite <- H.
  - exists 3. split; [lia|]. now rewrite <- H.
  - exists 4. split; [lia|]. now rewrite <- H.
  - exists 5. split; [lia|]. now rewrite <- H.
  - exists 6. split; [lia|]. now rewrite <- H.
  - exists 7. split; [lia|]. now rewrite <- H.
  - exists 8. split; [lia|]. now rewrite <- H.
  - exists 9. split; [lia|]. now rewrite <- H.
  - exists 10. split; [lia|]. now rewrite <- H.
  - exists 11. split; [lia|]. now rewrite <- H.
  - exists 12. split; [lia|]. now rewrite <- H.
Qed.

Lemma accepts_meridiem w rest g :
  accepts true (re_of "p") w rest g ->
  g = [w] /\ exists pm, meridiem pm w.
Proof.
  change (re_of "p") with (Group (one_of am_pm)).
  intros (-> & H)%accepts_one_of. split; [done|].
  apply list_elem_of_In in H. cbn in H. destruct H as [H|[H|[]]].
  - exists false. unfold meridiem. now rewrite <- H.
  - exists true. unfold meridiem. now rewrite <- H.
Qed.

(** A character in a range of digits, and a character that matches a
    digit. *)
Lemma range_digit lo hi x :
  isdigit lo = true -> isdigit hi = true ->
  cls_match true (CRange lo hi) x = true ->
  isdigit x = true /\ digit_val lo <= digit_val x <= digit_val hi.
Proof.
  unfold cls_match, isdigit, between, digit_val.
  rewrite !andb_true_iff, !N.leb_le. lia.
Qed.

Lemma chr_digit y x :
  isdigit y = true -> cls_match true (CChar y) x = true -> x = y.
Proof.
  intros Hy Hx. cbn in Hx. apply char_eqb_eq in Hx.
  assert (Hl : lower_char y = y).
  { apply lower_char_digit. now rewrite isdigit_lower. }
  rewrite Hl in Hx. rewrite <- Hx. symmetry. apply lower_char_digit.
  now rewrite Hx.
Qed.

Lemma numeral_one c : isdigit c = true -> numeral 1 2 (digit_val c) [c].
Proof.
  intros Hc. split; [cbn; lia|]. split; [cbn; now rewrite Hc|].
  unfold int_of_digits. cbn. lia.
Qed.

Lemma numeral_two c1 c2 :
  isdigit c1 = true -> isdigit c2 = true ->
  numeral 1 2 (10 * digit_val c1 + digit_val c2) [c1; c2].
Proof.
  intros H1 H2. split; [cbn; lia|]. split; [cbn; now rewrite H1, H2|].
  unfold int_of_digits. cbn. lia.
Qed.

(** Turn what is known of the characters into what is known of the
    digits. *)
Ltac digit_facts :=
  repeat match goal with
         | H : cls_match true (CRange ?lo ?hi) ?x = true |- _ =>
             apply (range_digit lo hi x eq_refl eq_refl) in H as [? H];
             digit_values H
         | H : cls_match true (CChar ?y) ?x = true |- _ =>
             apply (chr_digit y x eq_refl) in H; subst x
         | H : cls_match true CDigit ?x = true |- _ =>
             change (isdigit x = true) in H;
             pose proof (digit_val_range x H);
             revert H
         end; intros.

Ltac digit_values_goal :=
  repeat match goal with
         | |- context [digit_val ?c] =>
             tryif is_var c then fail
             else (let v := eval vm_compute in (digit_val c) in
                   change (digit_val c) with v)
         end.

Ltac numeral_goal :=
  first [ eexists; split; [apply numeral_one; first [assumption|reflexivity]|];
          digit_values_goal; lia
        | eexists; split; [apply numeral_two; first [assumption|reflexivity]|];
          digit_values_goal; lia ].

Lemma accepts_hour w rest g :
  accepts true (re_of "I") w rest g ->
  g = [w] /\ exists v, numeral 1 2 v w /\ 1 <= v <= 12.
Proof.
  change (re_of "I") with (Group (inner (re_of "I"))).
  intros (g' & -> & H)%accepts_group_inv.
  change (inner (re_of "I"))
    with (Alt (Cat (Atom (CChar "1")) (Atom (CRange "0" "2")))
         (Alt (Cat (Atom (CChar "0")) (Atom (CRange "1" "9")))
              (Atom (CRange "1" "9")))) in H.
  inv_accepts; digit_facts; (split; [reflexivity|]); numeral_goal.
Qed.

Lemma accepts_minute w rest g :
  accepts true (re_of "M") w rest g ->
  g = [w] /\ exists v, numeral 1 2 v w /\ 0 <= v <= 59.
Proof.
  change (re_of "M") with (Group (inner (re_of "M"))).
  intros (g' & -> & H)%accepts_group_inv.
  change (inner (re_of "M"))
    with (Alt (Cat (Atom (CRange "0" "5")) (Atom CDigit)) (Atom CDigit)) in H.
  inv_accepts; digit_facts; (split; [reflexivity|]); numeral_goal.
Qed.

Lemma accepts_second w rest g :
  accepts true (re_of "S") w rest g ->
  g = [w] /\ exists v, numeral 1 2 v w /\ 0 <= v <= 61.
Proof.
  change (re_of "S") with (Group (inner (re_of "S"))).
  intros (g' & -> & H)%accepts_group_inv.
  change (inner (re_of "S"))
    with (Alt (Cat (Atom (CChar "6")) (Atom (CRange "0" "1")))
         (Alt (Cat (Atom (CRange "0" "5")) (Atom CDigit)) (Atom CDigit)))
    in H.
  inv_accepts; digit_facts; (split; [reflexivity|]); numeral_goal.
Qed.

Lemma accepts_year w rest g :
  accepts true (re_of "Y") w rest g ->
  g = [w] /\ exists v, numeral 4 4 v w.
Proof.
  change (re_of "Y") with (Group (inner (re_of "Y"))).
  intros (g' & -> & H)%accepts_group_inv.
  change (inner (re_of "Y"))
    with (Cat (Atom CDigit) (Cat (Atom CDigit)
         (Cat (Atom CDigit) (Atom CDigit)))) in H.
  inv_accepts. split; [reflexivity|]. eexists.
  split; [cbn; lia|]. split; [|reflexivity].
  cbn in *. now rewrite H, H0, H1, H2.
Qed.

(** The day is a numeral, or a space and a digit (the alternative of [%d]
    for a day padded with a space). *)
Lemma accepts_day w rest g :
  accepts true (re_of "d") w rest g ->
  g = [w]
  /\ ((exists v, numeral 1 2 v w /\ 1 <= v <= 31)
      \/ exists c, w = [" "%char; c] /\ isdigit c = true
                   /\ 1 <= digit_val c <= 9).
Proof.
  change (re_of "d") with (Group (inner (re_of "d"))).
  intros (g' & -> & H)%accepts_group_inv.
  change (inner (re_of "d"))
    with (Alt (Cat (Atom (CChar "3")) (Atom (CRange "0" "1")))
         (Alt (Cat (Atom (CRange "1" "2")) (Atom CDigit))
         (Alt (Cat (Atom (CChar "0")) (Atom (CRange "1" "9")))
         (Alt (Atom (CRange "1" "9"))
              (Cat (Atom (CChar " ")) (Atom (CRange "1" "9"))))))) in H.
  apply accepts_alt_inv in H as [H|H];
    [|apply accepts_alt_inv in H as [H|H];
      [|apply accepts_alt_inv in H as [H|H];
        [|apply accepts_alt_inv in H as [H|H]]]].
  1-4: inv_accepts; digit_facts; (split; [reflexivity|]); left; numeral_goal.
  apply accepts_cat_inv in H as (w1 & w2 & g1 & g2 & -> & -> & H1 & H2).
  apply accepts_atom_inv in H1 as (x & -> & -> & Hx).
  apply accepts_atom_inv in H2 as (c & -> & -> & Hc).
  cbn in Hx. apply char_eqb_eq, lower_char_blank in Hx. subst x.
  apply (range_digit "1" "9" c eq_refl eq_refl) in Hc as [Hd Hc].
  digit_values Hc. split; [reflexivity|]. right. exists c. done.
Qed.

Lemma accepts_comma w rest g :
  accepts true (chr ",") w rest g -> w = lit "," /\ g = [].
Proof.
  intros (x & -> & -> & H)%accepts_atom_inv. cbn in H.
  now apply char_eqb_eq, lower_char_comma in H as ->.
Qed.

Lemma accepts_colon w rest g :
  accepts true (chr ":") w rest g -> w = lit ":" /\ g = [].
Proof.
  intros (x & -> & -> & H)%accepts_atom_inv. cbn in H.
  now apply char_eqb_eq, lower_char_colon in H as ->.
Qed.

Lemma accepts_spaces w rest g :
  accepts true spaces w rest g -> gap w /\ g = [].
Proof.
  intros (-> & H & Hlen)%accepts_rep_inv. split; [|done].
  split; [destruct w; cbn in Hlen; [lia|done]|exact H].
Qed.

Lemma datetime_new_inv year month day hour minute second d :
  datetime_new year month day hour minute second = Ok d ->
  valid_datetime d
  /\ d = {| dt_year := year; dt_month := month; dt_day := day;
            dt_hour := hour; dt_minute := minute; dt_second := second |}.
Proof.
  unfold datetime_new, in_range, valid_datetime.
  repeat match goal with
         | |- context [negb ((?a <=? ?b) && (?c <=? ?e))] =>
             destruct (Z.leb_spec a b); [|discriminate];
             destruct (Z.leb_spec c e); [|discriminate];
             cbn [andb negb]
         end.
  intros [= <-]. cbn. split; [lia|reflexivity].
Qed.

Lemma int_space_digit c :
  isdigit c = true -> int [" "%char; c] = int [c].
Proof.
  intros Hc. unfold int.
  assert (E : strip [" "%char; c] = [c]).
  { change [" "%char; c] with ([" "%char] ++ [c] ++ []).
    apply strip_blanks; try reflexivity; cbn; now apply isdigit_not_space. }
  rewrite E. rewrite (token_strip [c]); [done|].
  unfold token. cbn. now rewrite (isdigit_not_space c Hc).
Qed.

Lemma convert_day gb gd gd' gY gI gM gS gp :
  int gd = int gd' ->
  convert [gb; gd; gY; gI; gM; gS; gp] = convert [gb; gd'; gY; gI; gM; gS; gp].
Proof. unfold convert. now intros ->. Qed.

(** What [convert] accepts is a valid stamp. *)
Lemma convert_valid m mon vd dd vy yyyy vh hh vmi mm vs ss pm mer d :
  month_abbrev m mon -> numeral 1 2 vd dd -> numeral 4 4 vy yyyy ->
  numeral 1 2 vh hh -> 1 <= vh <= 12 ->
  numeral 1 2 vmi mm -> numeral 1 2 vs ss -> meridiem pm mer ->
  convert [mon; dd; yyyy; hh; mm; ss; mer] = Ok d ->
  let t := {| st_month := m; st_day := vd; st_year := vy; st_hour := vh;
              st_minute := vmi; st_second := vs; st_pm := pm |} in
  valid_stamp t /\ d = stamp_datetime t.
Proof.
  intros Hmon Hdd Hyyyy Hhh Hvh Hmm Hss Hmer Hc t.
  assert (Hv : valid_stamp t).
  { revert Hc. unfold convert. rewrite (month_abbrev_index _ _ Hmon).
    rewrite (int_numeral _ _ _ _ Hdd), (int_numeral _ _ _ _ Hyyyy),
      (int_numeral _ _ _ _ Hhh), (int_numeral _ _ _ _ Hmm),
      (int_numeral _ _ _ _ Hss).
    cbn [mbind result_bind].
    intros ((Hy & Hm & Hd & _ & Hmi & Hs) & ->)%datetime_new_inv.
    cbn in *. unfold valid_stamp. cbn. tauto. }
  split; [exact Hv|].
  rewrite (convert_groups t) in Hc by done. congruence.
Qed.

(** [strptime] accepts only valid stamps written in the format, and
    returns their datetime. *)
Lemma strptime_sound s d :
  strptime s _TS_FORMAT = Ok d ->
  exists t, valid_stamp t /\ written t s /\ d = stamp_datetime t.
Proof.
  unfold strptime. rewrite pattern_ts_format. cbn [mbind result_bind].
  destruct (re_match true ts_regex s) as [[g rest]|] eqn:E; [|done].
  destruct rest as [|c rest]; [|done]. cbn [truthy].
  unfold re_match in E.
  apply rmatch_sound in E as (w & rest & gs & -> & Hacc & [= <- ->]).
  rewrite app_nil_r. cbn [app].
  unfold ts_regex in Hacc. inv_accepts.
  repeat match goal with
         | H : accepts true (re_of "b") _ _ _ |- _ =>
             apply accepts_month in H as (-> & m & Hmon)
         | H : accepts true (re_of "d") _ _ _ |- _ =>
             apply accepts_day in H as (-> & Hday)
         | H : accepts true (re_of "Y") _ _ _ |- _ =>
             apply accepts_year in H as (-> & vy & Hyyyy)
         | H : accepts true (re_of "I") _ _ _ |- _ =>
             apply accepts_hour in H as (-> & vh & Hhh & Hvh)
         | H : accepts true (re_of "M") _ _ _ |- _ =>
             apply accepts_minute in H as (-> & vmi & Hmm & Hvmi)
         | H : accepts true (re_of "S") _ _ _ |- _ =>
             apply accepts_second in H as (-> & vs & Hss & Hvs)
         | H : accepts true (re_of "p") _ _ _ |- _ =>
             apply accepts_meridiem in H as (-> & pm & Hmer)
         | H : accepts true (chr ",") _ _ _ |- _ =>
             apply accepts_comma in H as (-> & ->)
         | H : accepts true (chr ":") _ _ _ |- _ =>
             apply accepts_colon in H as (-> & ->)
         | H : accepts true spaces _ _ _ |- _ =>
             apply accepts_spaces in H as (? & ->)
         end.
  cbn [app]. intros Hc.
  match goal with
  | |- context [written _ (?mon ++ ?w1 ++ ?dd ++ _ ++ ?w2 ++ ?yyyy ++ ?w3
                           ++ ?hh ++ _ ++ ?mm ++ _ ++ ?ss ++ ?w4 ++ ?mer ++ [])]
    => rename mon into Mon, dd into Dd, yyyy into Yyyy, hh into Hh,
         mm into Mm, ss into Ss, mer into Mer, w1 into W1, w2 into W2,
         w3 into W3, w4 into W4
  end.
  destruct Hday as [(vd & Hdd & Hvd)|(c & -> & Hcd & Hvc)].
  - destruct (convert_valid m Mon vd Dd vy Yyyy vh Hh vmi Mm vs Ss pm Mer d)
      as [Hv Hd]; try done.
    eexists. split; [exact Hv|]. split; [|exact Hd].
    apply (Written _ Mon Dd Yyyy Hh Mm Ss Mer [] W1 W2 W3 W4 []); done.
  - rewrite (convert_day _ _ [c]) in Hc by now apply int_space_digit.
    destruct (convert_valid m Mon (digit_val c) [c] vy Yyyy vh Hh vmi Mm
                vs Ss pm Mer d) as [Hv Hd]; try done.
    { now apply numeral_one. }
    eexists. split; [exact Hv|]. split; [|exact Hd].
    replace (Mon ++ W1 ++ [" "%char; c] ++ lit "," ++ W2 ++ Yyyy ++ W3
             ++ Hh ++ lit ":" ++ Mm ++ lit ":" ++ Ss ++ W4 ++ Mer ++ [])
      with ([] ++ Mon ++ (W1 ++ [" "%char]) ++ [c] ++ lit "," ++ W2 ++ Yyyy
            ++ W3 ++ Hh ++ lit ":" ++ Mm ++ lit ":" ++ Ss ++ W4 ++ Mer ++ [])
      by (cbn; now rewrite <- app_assoc).
    apply (Written _ Mon [c] Yyyy Hh Mm Ss Mer [] (W1 ++ [" "%char])
             W2 W3 W4 []); try done.
    + now apply numeral_one.
    + match goal with Hg : gap W1 |- _ => destruct Hg as [Hne Hb] end.
      split; [now destruct W1|].
      unfold blank in *. rewrite forallb_app, Hb. reflexivity.
Qed.

(** ** Malformed timestamps *)

Lemma safe_parse_blank raw :
  strip raw = [] -> _safe_parse_timestamp raw = Ok None.
Proof. intros H. unfold _safe_parse_timestamp. now rewrite H. Qed.

Lemma safe_parse_normalized raw :
  strip raw <> [] ->
  _safe_parse_timestamp raw
  = match strptime (normalized raw) _TS_FORMAT with
    | Ok d => Ok (Some d)
    | Raise _ => Ok None
    end.
Proof.
  intros H. unfold _safe_parse_timestamp, normalized.
  now destruct (strip raw).
Qed.

(** A present value comes from a string in the fixed format only. *)
Lemma safe_parse_present raw d :
  _safe_parse_timestamp raw = Ok (Some d) ->
  exists t, valid_stamp t /\ written t (normalized raw)
            /\ d = stamp_datetime t.
Proof.
  destruct (strip raw) as [|c s] eqn:E.
  - now rewrite safe_parse_blank.
  - rewrite safe_parse_normalized by now rewrite E.
    destruct (strptime (normalized raw) _TS_FORMAT) as [d'|e] eqn:Es; [|done].
    intros [= <-]. now apply strptime_sound.
Qed.

(** C5: for every input string that is empty or does not match the fixed
    timestamp format (once its whitespace is collapsed and its trailing
    meridiem is in capitals), timestamp normalization returns the absent
    value; and it raises on no input. *)
Theorem malformed_timestamp_absent raw :
  (exists r, _safe_parse_timestamp raw = Ok r)
  /\ (raw = [] \/ ~ fixed_format (normalized raw) ->
      _safe_parse_timestamp raw = Ok None).
Proof.
  split.
  - unfold _safe_parse_timestamp. destruct (negb _); [eauto|].
    destruct (strptime _ _); eauto.
  - intros [->|Hno]; [reflexivity|].
    destruct (_safe_parse_timestamp raw) as [[d|]|e] eqn:E.
    + exfalso. apply Hno.
      apply safe_parse_present in E as (t & Hv & Hw & _). now exists t.
    + reflexivity.
    + exfalso. revert E. unfold _safe_parse_timestamp.
      destruct (negb _); [done|]. now destruct (strptime _ _).
Qed.

(** A day that no month has, a second that no minute has, a year before
    the first, a word. *)
Example malformed_timestamps :
  map _safe_parse_timestamp
      [lit "Feb 30, 2026 9:02:58 pm"; lit "Jan 11, 2026 9:02:60 pm";
       lit "Jan 11, 0000 9:02:58 pm"; lit "Jan 11, 2026 13:02:58 pm";
       lit "Jan 11, 2026 9:02:58pm"; lit "yesterday"; lit "   "; []]
  = repeat (Ok None) 8.
Proof. vm_compute. reflexivity. Qed.

Lemma yesterday_not_in_format :
  ~ fixed_format (normalized (lit "yesterday")).
Proof.
  intros (t & Hv & Hw).
  change (normalized (lit "yesterday")) with (lit "yesterday") in Hw.
  pose proof (safe_parse_written t _ Hv Hw) as H.
  vm_compute in H. discriminate H.
Qed.

Lemma malformed_timestamp_absent_witness :
  _safe_parse_timestamp (lit "yesterday") = Ok None.
Proof.
  apply (proj2 (malformed_timestamp_absent (lit "yesterday"))).
  right. exact yesterday_not_in_format.
Defined.

(** * More on the extraction of a document *)

(** ** What a message body yields *)

Lemma count_links (links : list bool) (n : Z) :
  fold_left (fun (n : Z) (wraps_img : bool) => if wraps_img then n else n + 1)
            links n
  = n + Z.of_nat (length (List.filter negb links)).
Proof.
  revert n. induction links as [|a links IH]; intros n; cbn [fold_left].
  - cbn. lia.
  - rewrite IH. destruct a; cbn [List.filter negb length]; lia.
Qed.

Lemma filter_length_le {A} (f : A -> bool) l :
  (length (List.filter f l) <= length l)%nat.
Proof.
  induction l as [|a l IH]; cbn; [lia|]. destruct (f a); cbn; lia.
Qed.

Lemma filter_negb_nonempty (links : list bool) :
  List.filter negb links <> [] <-> false ∈ links.
Proof.
  induction links as [|a links IH]; cbn.
  - split; [done|]. intros H. now apply elem_of_nil in H.
  - destruct a; cbn.
    + rewrite IH. split.
      * intros H. apply elem_of_cons. now right.
      * intros [H|H]%elem_of_cons; [done|exact H].
    + split; [|done]. intros _. apply elem_of_cons. now left.
Qed.

(** X1: the counts of a message body: one image per [img] element; one
    link per anchor with a target that wraps no image, so never more
    links than anchors; a flag is set exactly when its count is
    positive; a section without a body yields the empty text and no
    count. *)
Theorem message_meta_counts (section : SectionView) :
  let imgs := from_option body_imgs [] (sec_body section) in
  let links := from_option body_links [] (sec_body section) in
  let '(text, has_image, image_count, has_link, link_count) :=
    _extract_message_text_and_meta section in
  image_count = Z.of_nat (length imgs)
  /\ link_count = Z.of_nat (length (List.filter negb links))
  /\ 0 <= link_count <= Z.of_nat (length links)
  /\ (has_image = true <-> imgs <> [])
  /\ (has_link = true <-> false ∈ links)
  /\ (has_image = true <-> 0 < image_count)
  /\ (has_link = true <-> 0 < link_count)
  /\ (sec_body section = None -> text = []).
Proof.
  unfold _extract_message_text_and_meta.
  destruct (sec_body section) as [body|]; cbn [from_option].
  - rewrite count_links, Z.add_0_l.
    pose proof (filter_length_le negb (body_links body)) as Hle.
    rewrite !Z.ltb_lt.
    assert (Himg : 0 < Z.of_nat (length (body_imgs body))
                   <-> body_imgs body <> []).
    { destruct (body_imgs body); cbn; [|split; [done|lia]].
      split; [lia|done]. }
    assert (Hlink : 0 < Z.of_nat (length (List.filter negb (body_links body)))
                    <-> false ∈ body_links body).
    { rewrite <- filter_negb_nonempty.
      destruct (List.filter negb (body_links body)); cbn; [|split; [done|lia]].
      split; [lia|done]. }
    repeat split; try lia; try done; try apply Himg; try apply Hlink.
  - cbn. repeat split; try lia; try done.
    intros H. now apply elem_of_nil in H.
Qed.

(** ** No long run of newlines is left *)

Lemma collapse_nil : collapse_newlines [] = [].
Proof. reflexivity. Qed.

Lemma no_triple_run (k : nat) (c : ascii) (a : str) :
  (k <= 2)%nat -> c <> NL ->
  (forall p q, a <> p ++ [NL; NL; NL] ++ q) ->
  forall p q, repeat NL k ++ c :: a <> p ++ [NL; NL; NL] ++ q.
Proof.
  intros Hk Hc Ha p q E.
  destruct k as [|[|[|k]]]; [| | |lia];
    destruct p as [|x [|y [|z p]]]; simplify_eq/=; try done.
  all: solve [ eapply (Ha []); reflexivity
             | eapply (Ha [_]); reflexivity
             | eapply (Ha [_; _]); reflexivity
             | eapply (Ha (_ :: _ :: _ :: _)); reflexivity
             | eapply (Ha (_ :: _ :: _)); reflexivity
             | eapply (Ha (_ :: _)); reflexivity
             | eapply Ha; reflexivity ].
Qed.

Lemma no_triple_repeat (k : nat) :
  (k <= 2)%nat -> forall p q, repeat NL k <> p ++ [NL; NL; NL] ++ q.
Proof.
  intros Hk p q E. apply (f_equal length) in E.
  rewrite repeat_length, !length_app in E. cbn in E. lia.
Qed.

Lemma collapse_no_triple (s : str) :
  forall p q, collapse_newlines s <> p ++ [NL; NL; NL] ++ q.
Proof.
  remember (length s) as n eqn:Hn. revert s Hn.
  induction n as [n IH] using lt_wf_ind. intros s Hn.
  destruct (nl_run_split s) as (k & t & -> & Ht).
  rewrite collapse_run by exact Ht.
  destruct t as [|c t].
  - rewrite collapse_nil, app_nil_r. apply no_triple_repeat. lia.
  - cbn in Ht. rewrite collapse_other by exact Ht.
    apply no_triple_run; [lia|now apply char_eqb_neq|].
    apply (IH (length t)); [|reflexivity].
    subst n. rewrite length_app. cbn. lia.
Qed.

Lemma strip_inside (s : str) : exists w1 w2, s = w1 ++ strip s ++ w2.
Proof.
  destruct (lstrip_suffix s) as (w1 & _ & E1).
  destruct (lstrip_suffix (rev (lstrip s))) as (w2 & _ & E2).
  exists w1, (rev w2). unfold strip, rstrip.
  rewrite <- rev_app_distr, <- E2, rev_involutive. exact E1.
Qed.

Lemma strip_no_triple (s : str) :
  (forall p q, s <> p ++ [NL; NL; NL] ++ q) ->
  forall p q, strip s <> p ++ [NL; NL; NL] ++ q.
Proof.
  intros H p q E. destruct (strip_inside s) as (w1 & w2 & Es).
  apply (H (w1 ++ p) (q ++ w2)). rewrite Es at 1. rewrite E.
  now rewrite <- !app_assoc.
Qed.

Lemma extract_text_clean (section : SectionView) :
  let text := (_extract_message_text_and_meta section).1.1.1.1 in
  (forall p q, text <> p ++ [NL; NL; NL] ++ q)
  /\ strip text = text.
Proof.
  cbv zeta. destruct (sec_body section) as [body|] eqn:E.
  - rewrite (extract_text section body E). unfold clean_text. split.
    + apply strip_no_triple, collapse_no_triple.
    + apply strip_idem.
  - unfold _extract_message_text_and_meta. rewrite E. cbn. split; [|done].
    intros [|? ?] q; discriminate.
Qed.

(** X2: the text of a message never holds three newline characters in a
    row, and stripping it again changes nothing. *)
Theorem message_text_is_clean (section : SectionView) :
  let text := (_extract_message_text_and_meta section).1.1.1.1 in
  (forall p q, text <> p ++ [NL; NL; NL] ++ q)
  /\ strip text = text.
Proof. apply extract_text_clean. Qed.

Lemma extract_flags (section : SectionView) :
  let '(text, has_image, image_count, has_link, link_count) :=
    _extract_message_text_and_meta section in
  has_image = (0 <? image_count) /\ has_link = (0 <? link_count)
  /\ 0 <= image_count /\ 0 <= link_count.
Proof.
  unfold _extract_message_text_and_meta.
  destruct (sec_body section) as [body|]; [|cbn; lia].
  rewrite count_links. repeat split; lia.
Qed.

(** ** The messages of a document *)

Lemma safe_parse_total (raw : str) :
  exists ts, _safe_parse_timestamp raw = Ok ts.
Proof.
  unfold _safe_parse_timestamp. destruct (negb _); [eauto|].
  destruct (strptime _ _); eauto.
Qed.

Lemma parse_section_ok (section : SectionView) :
  exists m, parse_section section = Ok m /\ message_of_section section m.
Proof.
  unfold parse_section, message_of_section.
  destruct (_extract_message_text_and_meta section) as [[[[t hi] ic] hl] lc].
  destruct (safe_parse_total (default [] (sec_footer section))) as [ts E].
  rewrite E. cbn. eexists. split; [reflexivity|]. cbn. done.
Qed.

Lemma parse_sections_ok (sections : list SectionView) :
  exists msgs, parse_sections sections = Ok msgs
               /\ Forall2 message_of_section sections msgs.
Proof.
  induction sections as [|section rest (msgs & E & H)]; cbn.
  - exists []. split; [done|constructor].
  - destruct (parse_section_ok section) as (m & Em & Hm).
    rewrite Em, E. cbn. exists (m :: msgs). split; [done|].
    now constructor.
Qed.

Section Documents.
Variable soup : Path -> result DocumentView.

Lemma parse_messenger_html_ok (html_path : Path) :
  match soup html_path with
  | Raise e => parse_messenger_html soup html_path = Raise e
  | Ok doc =>
      exists msgs,
        parse_messenger_html soup html_path
        = Ok (default [] (doc_h1 doc), msgs)
        /\ Forall2 message_of_section (doc_sections doc) msgs
        /\ length msgs = length (doc_sections doc)
  end.
Proof.
  unfold parse_messenger_html. destruct (soup html_path) as [doc|e]; cbn.
  - destruct (parse_sections_ok (doc_sections doc)) as (msgs & E & H).
    rewrite E. cbn. exists msgs. split; [done|]. split; [done|].
    symmetry. now apply Forall2_length in H.
  - reflexivity.
Qed.

(** X3: a document that can be read always parses: its title is the text
    of the heading, or the empty string without one, and it has one
    message per section, in the order of the sections, whatever the
    sections hold or lack. A document that cannot be read raises what
    reading it raised. *)
Theorem parse_messenger_html_sections (html_path : Path) :
  match soup html_path with
  | Raise e => parse_messenger_html soup html_path = Raise e
  | Ok doc =>
      exists msgs,
        parse_messenger_html soup html_path
        = Ok (default [] (doc_h1 doc), msgs)
        /\ Forall2 message_of_section (doc_sections doc) msgs
        /\ length msgs = length (doc_sections doc)
  end.
Proof. apply parse_messenger_html_ok. Qed.

Lemma parse_messenger_html_raise (html_path : Path) e :
  parse_messenger_html soup html_path = Raise e <-> soup html_path = Raise e.
Proof.
  pose proof (parse_messenger_html_ok html_path) as H.
  destruct (soup html_path) as [doc|e'].
  - destruct H as (msgs & -> & _). split; discriminate.
  - rewrite H. split; intros [= ->]; reflexivity.
Qed.

Lemma messages_of_document (html_path : Path) m :
  m ∈ messages_of soup html_path ->
  exists doc section,
    soup html_path = Ok doc /\ section ∈ doc_sections doc
    /\ message_of_section section m.
Proof.
  unfold messages_of. pose proof (parse_messenger_html_ok html_path) as H.
  destruct (soup html_path) as [doc|e].
  - destruct H as (msgs & -> & H & _). intros Hm.
    apply list_elem_of_lookup in Hm as [i Hi].
    destruct (Forall2_lookup_r _ _ _ _ _ H Hi) as (section & Hsec & Hs).
    exists doc, section. split; [done|]. split; [|done].
    now apply list_elem_of_lookup_2 in Hsec.
  - rewrite H. intros Hm. now apply elem_of_nil in Hm.
Qed.

Lemma messages_of_sections (html_path : Path) m :
  m ∈ messages_of soup html_path ->
  exists section, message_of_section section m.
Proof. intros (doc & section & _ & _ & H)%messages_of_document. eauto. Qed.

Lemma customer_of_document (html_path : Path) :
  customer_of soup html_path = []
  \/ exists doc, soup html_path = Ok doc
                 /\ customer_of soup html_path = default [] (doc_h1 doc).
Proof.
  unfold customer_of. pose proof (parse_messenger_html_ok html_path) as H.
  destruct (soup html_path) as [doc|e].
  - destruct H as (msgs & -> & _). right. eauto.
  - rewrite H. now left.
Qed.

End Documents.

(** * More on timestamps *)

Lemma safe_parse_valid raw d :
  _safe_parse_timestamp raw = Ok (Some d) -> valid_datetime d.
Proof.
  intros (t & Hv & _ & ->)%safe_parse_present.
  now apply stamp_datetime_valid.
Qed.

(** X4: a timestamp that is returned is the one the input writes: the
    input, once normalized, is in the fixed format for a date and a time
    of day that exist, and the value is that date with the hour on the
    clock of twenty-four hours, 12 AM being hour 0 and 12 PM hour 12. *)
Theorem parsed_timestamp_sound (raw : str) (d : datetime) :
  _safe_parse_timestamp raw = Ok (Some d) ->
  valid_datetime d
  /\ exists t,
      valid_stamp t /\ written t (normalized raw)
      /\ dt_year d = st_year t /\ dt_month d = st_month t
      /\ dt_day d = st_day t
      /\ dt_hour d = st_hour t mod 12 + (if st_pm t then 12 else 0)
      /\ dt_minute d = st_minute t /\ dt_second d = st_second t.
Proof.
  intros H. split; [now apply (safe_parse_valid raw)|].
  apply safe_parse_present in H as (t & Hv & Hw & ->).
  exists t. cbn. unfold hour24. done.
Qed.

Lemma parsed_timestamp_sound_witness :
  valid_datetime
    {| dt_year := 2026; dt_month := 1; dt_day := 12; dt_hour := 0;
       dt_minute := 0; dt_second := 1 |}
  /\ exists t,
      valid_stamp t
      /\ written t (normalized (lit " Jan 12, 2026  12:00:01 am"))
      /\ 2026 = st_year t /\ 1 = st_month t /\ 12 = st_day t
      /\ 0 = st_hour t mod 12 + (if st_pm t then 12 else 0)
      /\ 0 = st_minute t /\ 1 = st_second t.
Proof.
  apply (parsed_timestamp_sound (lit " Jan 12, 2026  12:00:01 am")
           {| dt_year := 2026; dt_month := 1; dt_day := 12; dt_hour := 0;
              dt_minute := 0; dt_second := 1 |}).
  vm_compute. reflexivity.
Defined.

(** X5: the order of two timestamps that are returned is the order of
    the instants they denote, and they are equal only for the same
    instant. *)
Theorem parsed_timestamps_chronological (A B : str) (da db : datetime) :
  _safe_parse_timestamp A = Ok (Some da) ->
  _safe_parse_timestamp B = Ok (Some db) ->
  (dt_lt da db = true <-> dt_instant da < dt_instant db)
  /\ (da = db <-> dt_instant da = dt_instant db).
Proof.
  intros Ha%safe_parse_valid Hb%safe_parse_valid.
  split; [now apply dt_lt_iff_instant|].
  split; [now intros ->|]. intros E.
  destruct (dt_lt_total da db) as [H|[H|H]]; [|exact H|].
  - apply dt_lt_instant in H; [lia|done|done].
  - apply dt_lt_instant in H; [lia|done|done].
Qed.

Lemma parsed_timestamps_chronological_witness :
  (dt_lt (stamp_datetime stamp_evening) (stamp_datetime stamp_midnight) = true
   <-> dt_instant (stamp_datetime stamp_evening)
       < dt_instant (stamp_datetime stamp_midnight))
  /\ (stamp_datetime stamp_evening = stamp_datetime stamp_midnight
      <-> dt_instant (stamp_datetime stamp_evening)
          = dt_instant (stamp_datetime stamp_midnight)).
Proof.
  apply (parsed_timestamps_chronological
           (lit "Jan 11, 2026 9:02:58 pm")
           (lit "  jan  11,   2026 11:59:59   PM ")).
  - vm_compute. reflexivity.
  - vm_compute. reflexivity.
Defined.

(** ** Whitespace *)

Lemma split_go_blank_end (cur w : str) :
  blank w -> split_go cur w = split_go cur [].
Proof.
  unfold blank. revert cur. induction w as [|c w IH]; intros cur; [done|].
  cbn. intros [Hc Hw]%andb_prop. rewrite Hc.
  destruct cur; [now rewrite IH|]. now rewrite IH.
Qed.

Lemma split_go_app_blank (cur s w : str) :
  blank w -> split_go cur (s ++ w) = split_go cur s.
Proof.
  intros Hw. revert cur. induction s as [|c s IH]; intros cur.
  - now apply split_go_blank_end.
  - cbn. destruct (isspace c); [|apply IH].
    destruct cur; now rewrite IH.
Qed.

Lemma split_blank_app (w s : str) :
  blank w -> split (w ++ s) = split s.
Proof.
  unfold blank, split. induction w as [|c w IH]; [done|].
  cbn. intros [Hc Hw]%andb_prop. rewrite Hc. now apply IH.
Qed.

Lemma blank_rev (w : str) : blank w -> blank (rev w).
Proof.
  unfold blank. rewrite !forallb_forall. intros H c Hc. apply H.
  now apply in_rev.
Qed.

Lemma strip_around (s : str) :
  exists w1 w2, blank w1 /\ blank w2 /\ s = w1 ++ strip s ++ w2.
Proof.
  destruct (lstrip_suffix s) as (w1 & Hw1 & E1).
  destruct (lstrip_suffix (rev (lstrip s))) as (w2 & Hw2 & E2).
  exists w1, (rev w2). split; [done|]. split; [now apply blank_rev|].
  unfold strip, rstrip.
  rewrite <- rev_app_distr, <- E2, rev_involutive. exact E1.
Qed.

Lemma split_strip (s : str) : split (strip s) = split s.
Proof.
  destruct (strip_around s) as (w1 & w2 & H1 & H2 & E).
  rewrite E at 2. rewrite split_blank_app by done.
  unfold split. now rewrite split_go_app_blank.
Qed.

Lemma split_go_nonempty (cur s : str) : cur <> [] -> split_go cur s <> [].
Proof.
  revert cur. induction s as [|c s IH]; intros cur Hcur; cbn.
  - now destruct cur.
  - destruct (isspace c); [now destruct cur|]. now apply IH.
Qed.

Lemma split_strip_nil (s : str) : strip s = [] <-> split s = [].
Proof.
  rewrite <- (split_strip s). pose proof (strip_starts s) as H.
  destruct (strip s) as [|c t]; [done|]. split; [done|].
  unfold split. cbn in *. rewrite H. intros E.
  now apply split_go_nonempty in E.
Qed.

(** X6: the timestamp of a footer depends only on the words of the
    footer, the maximal runs of characters that are not whitespace: two
    inputs with the same words, whatever whitespace stands between and
    around them, give the same result. *)
Theorem timestamp_depends_on_words (A B : str) :
  split A = split B -> _safe_parse_timestamp A = _safe_parse_timestamp B.
Proof.
  intros E. unfold _safe_parse_timestamp. cbv zeta.
  rewrite !split_strip, <- E.
  pose proof (split_strip_nil A) as HA. pose proof (split_strip_nil B) as HB.
  rewrite <- E in HB.
  destruct (strip A) as [|a A'], (strip B) as [|b B']; cbn [truthy negb].
  - reflexivity.
  - destruct HA as [HA _], HB as [_ HB]. now specialize (HB (HA eq_refl)).
  - destruct HB as [HB _], HA as [_ HA]. now specialize (HA (HB eq_refl)).
  - reflexivity.
Qed.

Lemma timestamp_depends_on_words_witness :
  _safe_parse_timestamp (lit "Jan 11, 2026 9:02:58 pm")
  = _safe_parse_timestamp (lit "  Jan  11,   2026 9:02:58   pm ").
Proof.
  apply (timestamp_depends_on_words (lit "Jan 11, 2026 9:02:58 pm")
           (lit "  Jan  11,   2026 9:02:58   pm ")).
  vm_compute. reflexivity.
Defined.

(** * Finding the documents and grouping them into threads *)

Lemma elem_of_filter_list {A} (f : A -> bool) (l : list A) (x : A) :
  x ∈ List.filter f l <-> x ∈ l /\ f x = true.
Proof. rewrite !list_elem_of_In. apply filter_In. Qed.

Lemma elem_of_sorted {A} (lt : A -> A -> bool) (l : list A) (x : A) :
  x ∈ sorted lt l <-> x ∈ l.
Proof. now rewrite (sorted_perm lt l). Qed.

Section Discovery.
Variable rglob_message_html : Path -> list Path.
Variable folder_digest : Path -> str.

Lemma find_message_htmls_elem (input_dir fp : Path) :
  fp ∈ find_message_htmls rglob_message_html input_dir
  <-> fp ∈ rglob_message_html input_dir /\ lit "photos" ∉ fp.
Proof.
  unfold find_message_htmls. rewrite elem_of_sorted, elem_of_filter_list.
  rewrite negb_true_iff, bool_decide_eq_false. done.
Qed.

(** X7: the documents found are the hits of the search that have no part
    named [photos], each as often as the search gives it, in the order
    of their paths. Since the parts of the input directory count too,
    nothing is found under a directory that has a part of that name. *)
Theorem find_message_htmls_found (input_dir : Path) :
  let hits := rglob_message_html input_dir in
  let found := find_message_htmls rglob_message_html input_dir in
  found ≡ₚ List.filter (fun fp => negb (bool_decide (lit "photos" ∈ fp))) hits
  /\ StronglySorted (not_gt path_lt) found
  /\ (forall fp, fp ∈ found <-> fp ∈ hits /\ lit "photos" ∉ fp)
  /\ (lit "photos" ∈ input_dir ->
      (forall fp, fp ∈ hits -> input_dir `prefix_of` fp) ->
      found = []).
Proof.
  cbv zeta. split; [apply sorted_perm|].
  split; [apply sorted_sorted; [apply path_lt_asym|apply path_lt_negtrans]|].
  split; [apply find_message_htmls_elem|].
  intros Hin Hpre. unfold find_message_htmls.
  rewrite filter_none; [reflexivity|].
  intros fp Hfp%list_elem_of_In. apply negb_false_iff, bool_decide_eq_true.
  destruct (Hpre fp Hfp) as [rest ->]. apply elem_of_app. now left.
Qed.

(** ** [setdefault] and [append] *)

Lemma setdefault_append_keys {V} (k : str) (v : V) d :
  map fst (setdefault_append k v d)
  = if bool_decide (k ∈ map fst d) then map fst d else map fst d ++ [k].
Proof.
  induction d as [|[k0 vs0] d IH]; cbn; [done|].
  destruct (str_eqb k k0) eqn:E.
  - apply str_eqb_eq in E as <-. cbn.
    rewrite bool_decide_eq_true_2; [done|]. apply elem_of_cons. now left.
  - assert (k <> k0) as Hne.
    { intros ->. unfold str_eqb in E. now rewrite bool_decide_eq_true_2 in E. }
    cbn. rewrite IH. destruct (bool_decide (k ∈ map fst d)) eqn:Ek.
    + apply bool_decide_eq_true in Ek.
      rewrite bool_decide_eq_true_2; [done|]. apply elem_of_cons. now right.
    + apply bool_decide_eq_false in Ek.
      rewrite bool_decide_eq_false_2; [done|].
      intros [H|H]%elem_of_cons; done.
Qed.

Lemma setdefault_append_entry {V} (k : str) (v : V) d k' vs :
  NoDup (map fst d) ->
  (k', vs) ∈ setdefault_append k v d ->
  (k' <> k /\ (k', vs) ∈ d)
  \/ (k' = k
      /\ ((exists vs0, (k, vs0) ∈ d /\ vs = vs0 ++ [v])
          \/ ((k ∉ map fst d) /\ vs = [v]))).
Proof.
  induction d as [|[k0 vs0] d IH]; cbn.
  - intros _ H%list_elem_of_singleton. injection H as -> ->.
    right. split; [done|]. right. split; [|done].
    intros H. now apply elem_of_nil in H.
  - intros Hnd. apply NoDup_cons in Hnd as [Hk0 Hnd].
    destruct (str_eqb k k0) eqn:E.
    + apply str_eqb_eq in E as <-.
      intros [[= -> ->]|H]%elem_of_cons.
      * right. split; [done|]. left. exists vs0. split; [|done].
        apply elem_of_cons. now left.
      * left. split; [|apply elem_of_cons; now right].
        intros ->. apply Hk0.
        apply (list_elem_of_fmap_2 fst) in H. exact H.
    + assert (k <> k0) as Hne.
      { intros ->. unfold str_eqb in E.
        now rewrite bool_decide_eq_true_2 in E. }
      intros [[= -> ->]|H]%elem_of_cons.
      * left. split; [done|]. apply elem_of_cons. now left.
      * destruct (IH Hnd H) as [[H1 H2]|[-> [(vs1 & H1 & ->)|[H1 ->]]]].
        -- left. split; [done|]. apply elem_of_cons. now right.
        -- right. split; [done|]. left. exists vs1. split; [|done].
           apply elem_of_cons. now right.
        -- right. split; [done|]. right. split; [|done].
           intros [H2|H2]%elem_of_cons; done.
Qed.

Lemma setdefault_append_all {V} (k : str) (v : V) d :
  flat_map snd (setdefault_append k v d) ≡ₚ flat_map snd d ++ [v].
Proof.
  induction d as [|[k0 vs0] d IH]; cbn; [done|].
  destruct (str_eqb k k0); cbn.
  - rewrite <- !app_assoc. apply Permutation_app_head, Permutation_app_comm.
  - rewrite IH. now rewrite app_assoc.
Qed.

Lemma group_threads_snoc (l : list Path) (hp : Path) :
  group_threads folder_digest (l ++ [hp])
  = setdefault_append (thread_key_for_file folder_digest hp) hp
      (group_threads folder_digest l).
Proof. unfold group_threads. now rewrite fold_left_app. Qed.

Lemma filter_snoc {A} (f : A -> bool) (l : list A) (x : A) :
  List.filter f (l ++ [x]) = List.filter f l ++ (if f x then [x] else []).
Proof. rewrite List.filter_app. cbn. now destruct (f x). Qed.

Lemma str_eqb_false (a b : str) : str_eqb a b = false <-> a <> b.
Proof. unfold str_eqb. now rewrite bool_decide_eq_false. Qed.

Lemma group_threads_partition (html_files : list Path) :
  let threads := group_threads folder_digest html_files in
  NoDup (map fst threads)
  /\ (forall key fs,
         (key, fs) ∈ threads ->
         fs <> []
         /\ fs = List.filter
                   (fun hp => str_eqb (thread_key_for_file folder_digest hp) key)
                   html_files)
  /\ (forall hp, hp ∈ html_files ->
                 thread_key_for_file folder_digest hp ∈ map fst threads)
  /\ flat_map snd threads ≡ₚ html_files.
Proof.
  cbv zeta. induction html_files as [|hp l IH] using rev_ind.
  - cbn. split; [constructor|]. split.
    { intros ?? H. now apply elem_of_nil in H. }
    split; [|done]. intros ? H. now apply elem_of_nil in H.
  - destruct IH as (Hnd & Hfs & Hkeys & Hall).
    rewrite group_threads_snoc.
    set (k := thread_key_for_file folder_digest hp) in *.
    set (d := group_threads folder_digest l) in *.
    assert (Hkeys' : map fst (setdefault_append k hp d)
                     = if bool_decide (k ∈ map fst d) then map fst d
                       else map fst d ++ [k])
      by apply setdefault_append_keys.
    split; [|split; [|split]].
    + rewrite Hkeys'. destruct (bool_decide (k ∈ map fst d)) eqn:E; [done|].
      apply bool_decide_eq_false in E. apply NoDup_app. split; [done|].
      split; [|apply NoDup_singleton].
      intros x Hx Hk%list_elem_of_singleton. now subst x.
    + intros key fs H. rewrite filter_snoc. fold k.
      apply (setdefault_append_entry _ _ _ _ _ Hnd) in H
        as [[H1 H2]|[-> [(vs0 & H1 & ->)|[H1 ->]]]].
      * destruct (Hfs _ _ H2) as [Hne ->]. split; [exact Hne|].
        rewrite (proj2 (str_eqb_false k key)) by done.
        now rewrite app_nil_r.
      * destruct (Hfs _ _ H1) as [Hne ->]. split.
        -- intros [E _]%app_eq_nil. done.
        -- now rewrite (proj2 (str_eqb_eq k k)).
      * rewrite (proj2 (str_eqb_eq k k)) by done. split.
        -- done.
        -- rewrite filter_none; [done|].
           intros hp' Hhp'%list_elem_of_In.
           apply str_eqb_false. intros E. apply H1. rewrite <- E.
           now apply Hkeys.
    + intros hp' [H|H%list_elem_of_singleton]%elem_of_app; rewrite Hkeys'.
      * apply Hkeys in H. destruct (bool_decide _); [done|].
        apply elem_of_app. now left.
      * subst hp'. fold k. destruct (bool_decide (k ∈ map fst d)) eqn:E.
        -- now apply bool_decide_eq_true in E.
        -- apply elem_of_app. right. now apply list_elem_of_singleton.
    + rewrite setdefault_append_all. now rewrite Hall.
Qed.

(** X8: grouping splits the documents into threads: the keys of the
    threads are distinct, a thread holds the documents of its key, all
    of them and in the order they were found, so no thread is empty, and
    each document is in the thread of its key. *)
Theorem threads_partition_documents (html_files : list Path) :
  let threads := group_threads folder_digest html_files in
  NoDup (map fst threads)
  /\ (forall key fs,
         (key, fs) ∈ threads ->
         fs <> []
         /\ fs = List.filter
                   (fun hp => str_eqb (thread_key_for_file folder_digest hp) key)
                   html_files)
  /\ (forall hp, hp ∈ html_files ->
                 thread_key_for_file folder_digest hp ∈ map fst threads)
  /\ flat_map snd threads ≡ₚ html_files.
Proof. apply group_threads_partition. Qed.

(** ** The threads of a run *)

Lemma run_threads_perm (input_dir : Path) :
  run_threads rglob_message_html folder_digest input_dir
  ≡ₚ group_threads folder_digest
       (find_message_htmls rglob_message_html input_dir).
Proof. apply sorted_perm. Qed.

Lemma run_threads_nodup (input_dir : Path) :
  NoDup (map fst (run_threads rglob_message_html folder_digest input_dir)).
Proof.
  rewrite (run_threads_perm input_dir).
  apply group_threads_partition.
Qed.

Lemma run_threads_files (input_dir : Path) :
  flat_map snd (run_threads rglob_message_html folder_digest input_dir)
  ≡ₚ find_message_htmls rglob_message_html input_dir.
Proof.
  etrans; [|apply group_threads_partition].
  apply Permutation_flat_map, run_threads_perm.
Qed.

Lemma strictly_sorted_keys {V} (l : list (str * V)) :
  StronglySorted (not_gt (fun x y => str_lt x.1 y.1)) l ->
  NoDup (map fst l) ->
  StronglySorted (fun a b => str_lt a b = true) (map fst l).
Proof.
  induction 1 as [|a l Hs IH Ha]; cbn; [constructor|].
  intros [Hni Hnd]%NoDup_cons. constructor; [now apply IH|].
  apply Forall_forall. intros kb Hkb.
  apply list_elem_of_fmap in Hkb as (b & -> & Hb).
  rewrite Forall_forall in Ha. specialize (Ha b).
  unfold not_gt in Ha.
  destruct (ltb_total (lt := str_lt) (eqb := str_eqb) a.1 b.1)
    as [H|[H|H]]; [done| |].
  - exfalso. apply Hni. rewrite H. now apply list_elem_of_fmap_2.
  - rewrite Ha in H; done.
Qed.

Lemma run_threads_sorted (input_dir : Path) :
  StronglySorted (fun a b => str_lt a b = true)
    (map fst (run_threads rglob_message_html folder_digest input_dir)).
Proof.
  apply strictly_sorted_keys; [|apply run_threads_nodup].
  apply sorted_sorted.
  - intros a b. apply (ltb_asym str_lt str_eqb).
  - intros a b c. apply (strict_negtrans str_lt str_eqb).
Qed.

End Discovery.

(** * The files a run reads and writes *)

Lemma lineage_elem (p a : Path) :
  a ∈ lineage p <-> exists n, (1 <= n <= length p)%nat /\ a = take n p.
Proof.
  unfold lineage. rewrite list_elem_of_fmap. split.
  - intros (n & -> & Hn). exists n. split; [|done].
    apply list_elem_of_In, in_seq in Hn. lia.
  - intros (n & Hn & ->). exists n. split; [done|].
    apply list_elem_of_In, in_seq. lia.
Qed.

Lemma lineage_not_self (p : Path) : p ∉ lineage (parent p).
Proof.
  intros (n & Hn & E)%lineage_elem. apply (f_equal length) in E.
  rewrite length_take in E. unfold parent in *.
  destruct p as [|x p] using rev_ind; [cbn in Hn; lia|].
  rewrite removelast_last in *. rewrite length_app in E. cbn in E. lia.
Qed.

Lemma mkdir_parents_ok (p : Path) (w : World) :
  (forall a, a ∈ lineage p -> files w !! a = None) ->
  mkdir_parents p w
  = Ok {| dirs := dirs w ∪ list_to_set (lineage p); files := files w;
          drawn := drawn w; trace := trace w |}.
Proof.
  intros Hfree. unfold mkdir_parents.
  destruct (existsb _ _) eqn:E; [|done].
  apply existsb_exists in E as (a & Ha & Hs).
  apply bool_decide_eq_true in Hs. apply list_elem_of_In in Ha.
  rewrite (Hfree a Ha) in Hs. now destruct Hs.
Qed.

Lemma mkdir_parents_inv (p : Path) (w w' : World) :
  mkdir_parents p w = Ok w' ->
  (forall a, a ∈ lineage p -> files w !! a = None)
  /\ w' = {| dirs := dirs w ∪ list_to_set (lineage p); files := files w;
             drawn := drawn w; trace := trace w |}.
Proof.
  unfold mkdir_parents. destruct (existsb _ _) eqn:E; [done|].
  intros [= <-]. split; [|done]. intros a Ha.
  destruct (files w !! a) eqn:Ea; [|done].
  assert (existsb (fun a => bool_decide (is_Some (files w !! a))) (lineage p)
          = true) as H; [|congruence].
  apply existsb_exists. exists a. split; [now apply list_elem_of_In|].
  apply bool_decide_eq_true. rewrite Ea. eauto.
Qed.

(** Making the directories of [path] and writing [path]. *)
Lemma write_under_parents (path : Path) (c : Content) (w : World) :
  ((exists w', (w1 ← mkdir_parents (parent path) w; write_file path c w1)
               = Ok w')
   <-> (forall a, a ∈ lineage (parent path) -> files w !! a = None)
       /\ path ∉ dirs w)
  /\ (forall w', (w1 ← mkdir_parents (parent path) w; write_file path c w1)
                 = Ok w' ->
        files w' = <[path := c]> (files w)
        /\ dirs w' = dirs w ∪ list_to_set (lineage (parent path))
        /\ drawn w' = drawn w
        /\ trace w' = trace w ++ [Wrote path]).
Proof.
  split.
  - split.
    + intros [w' H]. destruct (mkdir_parents _ _) as [w1|e] eqn:E; [|done].
      apply mkdir_parents_inv in E as [Hfree ->]. split; [done|].
      cbn in H. unfold write_file in H. cbn in H.
      destruct (bool_decide _) eqn:Ed; [done|].
      apply bool_decide_eq_false in Ed. set_solver.
    + intros [Hfree Hdir]. rewrite mkdir_parents_ok by done. cbn.
      unfold write_file. cbn. rewrite bool_decide_eq_false_2; [eauto|].
      pose proof (lineage_not_self path).
      rewrite elem_of_union, elem_of_list_to_set. tauto.
  - intros w'. destruct (mkdir_parents _ _) as [w1|e] eqn:E; [|done].
    apply mkdir_parents_inv in E as [Hfree ->]. cbn.
    unfold write_file. cbn. destruct (bool_decide _); [done|].
    intros [= <-]. done.
Qed.


Lemma save_id_map_ok_iff (path : Path) m (w : World) :
  (exists w', save_id_map path m w = Ok w')
  <-> (forall a, a ∈ lineage (parent path) -> files w !! a = None)
      /\ path ∉ dirs w.
Proof. apply (write_under_parents path (IdMapJson m) w). Qed.

Lemma save_id_map_again (path : Path) m m2 (w w' : World) :
  save_id_map path m w = Ok w' -> exists w2, save_id_map path m2 w' = Ok w2.
Proof.
  intros H. apply save_id_map_ok_iff.
  assert (exists w', save_id_map path m w = Ok w')
    as [Hfree Hdir]%save_id_map_ok_iff by eauto.
  apply save_id_map_files in H as (Hf & Hd & Hnd & _).
  split; [|done]. intros a Ha. rewrite Hf, lookup_insert_ne; [now apply Hfree|].
  intros <-. now apply lineage_not_self in Ha.
Qed.


(** ** The dataset *)

Lemma save_to_csv_rows (self : MessengerHTMLExtractor) (output_path : Path)
    (w : World) :
  rows self <> [] ->
  save_to_csv self output_path w
  = (w2 ← (w1 ← mkdir_parents (parent output_path) w;
           write_file output_path (CsvTable (rows self)) w1);
     Ok (print (MsgSaved (Z.of_nat (length (rows self))) output_path) w2)).
Proof.
  unfold save_to_csv. destruct (rows self) as [|r rs] eqn:E; [done|].
  intros _. destruct (mkdir_parents _ _); cbn; [|done].
  now destruct (write_file _ _ _).
Qed.

Lemma save_to_csv_ok (self : MessengerHTMLExtractor) (output_path : Path)
    (w w' : World) :
  rows self <> [] ->
  save_to_csv self output_path w = Ok w' ->
  (forall a, a ∈ lineage (parent output_path) -> files w !! a = None)
  /\ (output_path ∉ dirs w)
  /\ files w' = <[output_path := CsvTable (rows self)]> (files w)
  /\ dirs w' = dirs w ∪ list_to_set (lineage (parent output_path))
  /\ trace w'
     = trace w
       ++ [Wrote output_path;
           Printed (MsgSaved (Z.of_nat (length (rows self))) output_path)].
Proof.
  intros Hrows. rewrite (save_to_csv_rows self output_path w Hrows).
  destruct (write_under_parents output_path
              (CsvTable (rows self)) w) as (Hiff & Heff).
  destruct (w1 ← mkdir_parents (parent output_path) w;
            write_file output_path (CsvTable (rows self)) w1)
    as [w2|e] eqn:E; cbn; [|done].
  intros [= <-]. destruct (Heff w2 eq_refl) as (Hf & Hd & _ & Ht).
  destruct (proj1 Hiff) as [Hfree Hnd]; [eauto|].
  split; [exact Hfree|]. split; [exact Hnd|].
  cbn. rewrite Hf, Hd, Ht, <- app_assoc. done.
Qed.




(** * Conversation identifiers *)

Lemma subseteq_same_keys (m1 m2 : gmap str str) :
  m1 ⊆ m2 ->
  (forall k, is_Some (m2 !! k) -> is_Some (m1 !! k)) ->
  m2 = m1.
Proof.
  intros Hsub Hdom. apply map_eq. intros k.
  destruct (m1 !! k) as [v|] eqn:E.
  - now apply (lookup_weaken m1 m2).
  - destruct (m2 !! k) as [v|] eqn:E2; [|done].
    destruct (Hdom k) as [v' Hv']; [eauto|congruence].
Qed.

Lemma counting_uuid4_inj (i j : nat) :
  counting_uuid4 i = counting_uuid4 j -> i = j.
Proof.
  unfold counting_uuid4. intros H%app_inv_head.
  apply (f_equal length) in H. now rewrite !repeat_length in H.
Qed.

Section Identifiers.
Variable rglob_message_html : Path -> list Path.
Variable folder_digest : Path -> str.
Variable soup : Path -> result DocumentView.
Variable uuid4 : nat -> str.

Local Abbreviation find_htmls := (find_message_htmls rglob_message_html).
Local Abbreviation threads_of := (run_threads rglob_message_html folder_digest).
Local Abbreviation extractor_after :=
  (run_extractor rglob_message_html folder_digest soup uuid4).
Local Abbreviation world_after :=
  (run_world rglob_message_html folder_digest soup uuid4).
Local Abbreviation block_of :=
  (run_block rglob_message_html folder_digest soup uuid4).
Local Abbreviation process_dir :=
  (process_directory rglob_message_html folder_digest soup uuid4).

(** X11: resolving the identifier of a thread a second time gives the
    same identifier and changes nothing more: the key is bound to it,
    the other keys are bound as before, and the random source is asked
    once for an unknown key and not at all for a known one. *)
Theorem get_or_create_twice (m : gmap str str) (key : str) (w : World) :
  let '(cid, m', w') := get_or_create_conversation_id uuid4 m key w in
  get_or_create_conversation_id uuid4 m' key w' = (cid, m', w')
  /\ m' !! key = Some cid
  /\ (forall k, k <> key -> m' !! k = m !! k)
  /\ drawn w' = (if m !! key is Some _ then drawn w else S (drawn w))
  /\ dirs w' = dirs w /\ files w' = files w /\ trace w' = trace w.
Proof.
  unfold get_or_create_conversation_id.
  destruct (m !! key) as [cid|] eqn:E.
  - rewrite E. done.
  - rewrite lookup_insert_eq. split; [done|]. split; [done|].
    split; [|done]. intros k Hk. now apply lookup_insert_ne.
Qed.

(** ** The identifiers a run hands out *)

Lemma process_thread_drawn self w n key fs :
  drawn (process_thread soup uuid4 (self, w, n) (key, fs)).1.2
  = if id_map self !! key is Some _ then drawn w else S (drawn w).
Proof. rewrite process_thread_eq. reflexivity. Qed.

Lemma after_threads_cons t ts st :
  after_threads soup uuid4 (t :: ts) st
  = after_threads soup uuid4 ts (process_thread soup uuid4 st t).
Proof. reflexivity. Qed.

Lemma after_threads_new_ids ts self w n :
  NoDup (map fst ts) ->
  let st := after_threads soup uuid4 ts (self, w, n) in
  let new_keys :=
    List.filter (fun k => bool_decide (id_map self !! k = None)) (map fst ts) in
  drawn st.1.2 = (drawn w + length new_keys)%nat
  /\ forall j k, new_keys !! j = Some k ->
                 id_map st.1.1 !! k = Some (uuid4 (drawn w + j)).
Proof.
  revert self w n. induction ts as [|[key fs] ts IH]; intros self w n Hnd.
  - cbn. split; [lia|]. intros j k H. done.
  - cbn [map fst] in Hnd. apply NoDup_cons in Hnd as [Hkey Hnd].
    cbv zeta. rewrite after_threads_cons.
    pose proof (process_thread_eq soup uuid4 self w n key fs) as Hstep.
    cbv zeta in Hstep. rewrite Hstep.
    set (cid := resolved_id uuid4 (id_map self) w key) in *.
    set (self1 := {| id_map_path := id_map_path self;
                     id_map := <[key := cid]> (id_map self);
                     rows := rows self ++ thread_rows soup cid fs |}).
    set (w1 := add_trace _ _). set (n1 := n + _).
    destruct (IH self1 w1 n1 Hnd) as [Hd Hids].
    pose proof (after_threads_spec soup uuid4 ts self1 w1 n1) as Hspec.
    cbv zeta in Hspec. destruct Hspec as (_ & Hsub & _).
    assert (Hfilter :
      List.filter (fun k => bool_decide (id_map self1 !! k = None)) (map fst ts)
      = List.filter (fun k => bool_decide (id_map self !! k = None))
                    (map fst ts)).
    { apply filter_ext_in. intros k Hk%list_elem_of_In. subst self1. cbn.
      rewrite lookup_insert_ne; [done|]. now intros ->. }
    rewrite Hfilter in Hd, Hids. cbn [map fst List.filter].
    subst w1. cbn [drawn add_trace] in Hd, Hids.
    destruct (id_map self !! key) as [c|] eqn:E.
    + rewrite bool_decide_eq_false_2 by done. done.
    + rewrite bool_decide_eq_true_2 by done. cbn [length]. split; [lia|].
      intros [|j] k Hk.
      * injection Hk as <-. rewrite Nat.add_0_r.
        rewrite (lookup_weaken _ _ key cid (lookup_insert_eq _ _ _) Hsub).
        subst cid. unfold resolved_id. now rewrite E.
      * rewrite (Hids j k Hk). do 2 f_equal. lia.
Qed.

Lemma process_threads_eq self input_dir w :
  process_threads rglob_message_html folder_digest soup uuid4
    self input_dir w
  = (group_threads folder_digest (find_htmls input_dir),
     (extractor_after self input_dir w, world_after self input_dir w,
      Z.of_nat (length (flat_map (block_of self input_dir w)
                                 (threads_of input_dir))))).
Proof.
  pose proof (run_state_eq rglob_message_html folder_digest soup uuid4
                self input_dir w) as Hst.
  pose proof (after_threads_spec soup uuid4 (threads_of input_dir) self
                (print (MsgFound (Z.of_nat (length (find_htmls input_dir)))) w)
                0) as H.
  cbv zeta in H. destruct H as (_ & _ & _ & _ & _ & _ & _ & Hn).
  rewrite Hst in Hn. cbn [fst snd] in Hn. rewrite Z.add_0_l in Hn.
  unfold run_block, run_extractor, run_world in *.
  destruct (process_threads _ _ _ _ _ _ _) as [ts [[self' w'] total]] eqn:E.
  cbn [fst snd] in *. subst total.
  unfold process_threads in E. injection E as <- _. reflexivity.
Qed.

(** [process_directory], its loop put aside. *)
Lemma process_directory_unfold self input_dir w :
  process_dir self input_dir w
  = (w2 ← save_id_map (id_map_path self)
                      (id_map (extractor_after self input_dir w))
                      (world_after self input_dir w);
     Ok (extractor_after self input_dir w,
         print (MsgExtracted
                  (Z.of_nat (length (flat_map (block_of self input_dir w)
                                              (threads_of input_dir))))
                  (Z.of_nat (length (threads_of input_dir))))
               w2)).
Proof.
  unfold process_directory. rewrite process_threads_eq.
  destruct (run_spec rglob_message_html folder_digest soup uuid4
              self input_dir w) as (-> & _).
  rewrite (Permutation_length
             (run_threads_perm rglob_message_html folder_digest input_dir)).
  reflexivity.
Qed.

Lemma process_directory_inv self input_dir w self' w' :
  process_dir self input_dir w = Ok (self', w') ->
  self' = extractor_after self input_dir w
  /\ exists w2,
      save_id_map (id_map_path self) (id_map self')
                  (world_after self input_dir w) = Ok w2
      /\ w' = print (MsgExtracted
                       (Z.of_nat (length (flat_map (block_of self input_dir w)
                                                   (threads_of input_dir))))
                       (Z.of_nat (length (threads_of input_dir))))
                    w2.
Proof.
  rewrite process_directory_unfold.
  destruct (save_id_map _ _ _) as [w2|e] eqn:E; cbn; [|done].
  intros [= <- <-]. split; [done|]. exists w2. done.
Qed.

Lemma world_after_drawn self input_dir w :
  let new_keys :=
    List.filter (fun k => bool_decide (id_map self !! k = None))
                (map fst (threads_of input_dir)) in
  drawn (world_after self input_dir w) = (drawn w + length new_keys)%nat
  /\ forall j k, new_keys !! j = Some k ->
                 id_map (extractor_after self input_dir w) !! k
                 = Some (uuid4 (drawn w + j)).
Proof.
  pose proof (after_threads_new_ids (threads_of input_dir) self
                (print (MsgFound (Z.of_nat (length (find_htmls input_dir)))) w)
                0 (run_threads_nodup _ _ input_dir)) as H.
  cbv zeta in H.
  rewrite (run_state_eq rglob_message_html folder_digest soup uuid4) in H.
  exact H.
Qed.

Lemma save_id_map_drawn path m w w' :
  save_id_map path m w = Ok w' -> drawn w' = drawn w.
Proof.
  intros H. now apply (write_under_parents path (IdMapJson m) w) in H.
Qed.

(** X12: the threads of a run are taken in the strict order of their
    keys, and the random source is asked once for each thread the ID map
    does not know, in that order: the [j]-th unknown thread gets the
    [j]-th identifier drawn in the run. A thread the map knows keeps its
    identifier and costs no draw. *)
Theorem new_identifiers_in_key_order self input_dir w self' w' :
  process_dir self input_dir w = Ok (self', w') ->
  let keys := map fst (threads_of input_dir) in
  let new_keys :=
    List.filter (fun k => bool_decide (id_map self !! k = None)) keys in
  StronglySorted (fun a b => str_lt a b = true) keys
  /\ drawn w' = (drawn w + length new_keys)%nat
  /\ (forall j k, new_keys !! j = Some k ->
                  id_map self' !! k = Some (uuid4 (drawn w + j)))
  /\ (forall k cid, id_map self !! k = Some cid ->
                    id_map self' !! k = Some cid).
Proof.
  intros (-> & w2 & Hsave & ->)%process_directory_inv. cbv zeta.
  split; [apply run_threads_sorted|].
  destruct (world_after_drawn self input_dir w) as [Hd Hids].
  split; [|split].
  - cbn. now rewrite (save_id_map_drawn _ _ _ _ Hsave).
  - exact Hids.
  - intros k cid Hk.
    destruct (run_spec rglob_message_html folder_digest soup uuid4
                self input_dir w) as (_ & Hsub & _).
    now apply (lookup_weaken _ _ _ _ Hk Hsub).
Qed.

End Identifiers.

Lemma is_ok_pair {A B} (r : result (A * B)) (d : A * B) :
  is_ok r = true ->
  r = Ok ((match r with Ok x => x | Raise _ => d end).1,
          (match r with Ok x => x | Raise _ => d end).2).
Proof. destruct r as [[a b]|e]; [reflexivity|discriminate]. Qed.

Lemma two_threads_run_ok :
  two_threads_run = Ok (two_threads_result.1, two_threads_result.2).
Proof.
  apply (is_ok_pair two_threads_run (fresh_extractor, sample_world)).
  vm_compute. reflexivity.
Qed.

Lemma sample_run_pair : sample_run = Ok (sample_result.1, sample_result.2).
Proof. rewrite sample_run_ok. now destruct sample_result. Qed.

Lemma new_identifiers_in_key_order_witness :
  id_map two_threads_result.1 !! lit "data/alice" = Some (counting_uuid4 0)
  /\ id_map two_threads_result.1 !! lit "data/bob" = Some (counting_uuid4 1)
  /\ drawn two_threads_result.2 = 2%nat.
Proof.
  destruct (new_identifiers_in_key_order two_threads_rglob sample_digest
              two_threads_soup counting_uuid4 fresh_extractor
              (sample_path ["data"]) sample_world two_threads_result.1
              two_threads_result.2 two_threads_run_ok)
    as (_ & Hd & Hids & _).
  split; [apply (Hids 0%nat); vm_compute; reflexivity|].
  split; [apply (Hids 1%nat); vm_compute; reflexivity|].
  rewrite Hd. vm_compute. reflexivity.
Defined.

(** * Identifiers across threads and across runs *)

Section Distinct.
Variable rglob_message_html : Path -> list Path.
Variable folder_digest : Path -> str.
Variable soup : Path -> result DocumentView.
Variable uuid4 : nat -> str.

Local Abbreviation find_htmls := (find_message_htmls rglob_message_html).
Local Abbreviation threads_of := (run_threads rglob_message_html folder_digest).
Local Abbreviation extractor_after :=
  (run_extractor rglob_message_html folder_digest soup uuid4).
Local Abbreviation world_after :=
  (run_world rglob_message_html folder_digest soup uuid4).
Local Abbreviation block_of :=
  (run_block rglob_message_html folder_digest soup uuid4).
Local Abbreviation process_dir :=
  (process_directory rglob_message_html folder_digest soup uuid4).

(** No two keys of [m] have the same identifier. *)
Local Abbreviation one_to_one m :=
  (forall (k1 k2 c : str), m !! k1 = Some c -> m !! k2 = Some c -> k1 = k2).

(** The identifiers the random source gives from its [n]-th on are not
    in [m]. *)
Local Abbreviation unused_from n m :=
  (forall (k : str) (i : nat), (n <= i)%nat -> m !! k <> Some (uuid4 i)).

Lemma after_threads_distinct ts self w n :
  (forall i j, uuid4 i = uuid4 j -> i = j) ->
  unused_from (drawn w) (id_map self) ->
  one_to_one (id_map self) ->
  let st := after_threads soup uuid4 ts (self, w, n) in
  one_to_one (id_map st.1.1) /\ unused_from (drawn st.1.2) (id_map st.1.1).
Proof.
  intros Hinj. revert self w n.
  induction ts as [|[key fs] ts IH]; intros self w n Hfresh Hone.
  - cbn. done.
  - cbv zeta. rewrite after_threads_cons.
    pose proof (process_thread_eq soup uuid4 self w n key fs) as Hstep.
    cbv zeta in Hstep. rewrite Hstep. clear Hstep.
    apply IH; cbn [id_map drawn add_trace]; unfold resolved_id;
      destruct (id_map self !! key) as [c|] eqn:E; cbn [default from_option id].
    + rewrite insert_id by done. exact Hfresh.
    + intros k i Hi. destruct (decide (k = key)) as [->|Hne].
      * rewrite lookup_insert_eq. intros [= H%Hinj]. lia.
      * rewrite lookup_insert_ne by done. apply Hfresh. lia.
    + rewrite insert_id by done. exact Hone.
    + intros k1 k2 c.
      destruct (decide (k1 = key)) as [->|H1], (decide (k2 = key)) as [->|H2];
        [done| | |].
      * rewrite lookup_insert_eq, lookup_insert_ne by done.
        intros [= <-] H. now apply Hfresh in H.
      * rewrite lookup_insert_eq, lookup_insert_ne by done.
        intros H [= <-]. now apply Hfresh in H.
      * rewrite !lookup_insert_ne by done. apply Hone.
Qed.

(** X13: when the random source never repeats itself and none of the
    identifiers it is still to give is in the ID map, a run keeps the
    map one-to-one: no two thread keys share a conversation identifier.
    The same holds of the map and the source after the run, so it holds
    of the next run as well. *)
Theorem conversation_ids_distinct self input_dir w self' w' :
  (forall i j, uuid4 i = uuid4 j -> i = j) ->
  (forall k i, (drawn w <= i)%nat -> id_map self !! k <> Some (uuid4 i)) ->
  (forall k1 k2 c,
      id_map self !! k1 = Some c -> id_map self !! k2 = Some c -> k1 = k2) ->
  process_directory rglob_message_html folder_digest soup uuid4
    self input_dir w = Ok (self', w') ->
  (forall k1 k2 c,
      id_map self' !! k1 = Some c -> id_map self' !! k2 = Some c -> k1 = k2)
  /\ (forall k i, (drawn w' <= i)%nat -> id_map self' !! k <> Some (uuid4 i)).
Proof.
  intros Hinj Hfresh Hone (-> & w2 & Hsave & ->)%process_directory_inv.
  pose proof (after_threads_distinct (threads_of input_dir) self
                (print (MsgFound (Z.of_nat (length (find_htmls input_dir)))) w)
                0 Hinj Hfresh Hone) as H.
  cbv zeta in H.
  rewrite (run_state_eq rglob_message_html folder_digest soup uuid4) in H.
  cbn [fst snd] in H. destruct H as [H1 H2]. split; [exact H1|].
  cbn. rewrite (save_id_map_drawn _ _ _ _ Hsave). exact H2.
Qed.

(** ** A second run *)

Lemma extractor_after_known self input_dir w :
  (forall key, key ∈ map fst (threads_of input_dir) ->
               is_Some (id_map self !! key)) ->
  id_map (extractor_after self input_dir w) = id_map self
  /\ drawn (world_after self input_dir w) = drawn w.
Proof.
  intros Hknown.
  destruct (run_spec rglob_message_html folder_digest soup uuid4
              self input_dir w) as (_ & Hsub & Hdom & _).
  split.
  - apply subseteq_same_keys; [exact Hsub|].
    intros k [H|H]%Hdom; [exact H|now apply Hknown].
  - destruct (world_after_drawn rglob_message_html folder_digest soup uuid4
                self input_dir w) as [Hd _].
    rewrite Hd, filter_none; [cbn; lia|].
    intros k Hk%list_elem_of_In. apply bool_decide_eq_false.
    destruct (Hknown k Hk) as [c Hc]. congruence.
Qed.

(** A run after a run that succeeded, with an extractor that holds the
    ID map the first one has left. *)
Lemma run_again self input_dir w self1 w1 selfx :
  process_dir self input_dir w = Ok (self1, w1) ->
  id_map selfx = id_map self1 ->
  id_map_path selfx = id_map_path self ->
  exists self2 w2,
    process_dir selfx input_dir w1 = Ok (self2, w2)
    /\ id_map self2 = id_map self1
    /\ rows self1
       = rows self
         ++ flat_map (block_of self input_dir w) (threads_of input_dir)
    /\ rows self2
       = rows selfx
         ++ flat_map (block_of self input_dir w) (threads_of input_dir)
    /\ drawn w2 = drawn w1
    /\ files w2 = files w1.
Proof.
  intros Hrun Hmapx Hpathx.
  pose proof Hrun as (-> & w1a & Hsave & ->)%process_directory_inv.
  set (self1 := extractor_after self input_dir w) in *.
  set (w1 := print _ w1a).
  destruct (run_spec rglob_message_html folder_digest soup uuid4
              self input_dir w) as (_ & _ & Hdom1 & Hrows1 & _).
  fold self1 in Hdom1, Hrows1.
  destruct (extractor_after_known selfx input_dir w1) as [Hmap2 Hdrawn2].
  { intros key Hkey. rewrite Hmapx. apply Hdom1. now right. }
  rewrite Hmapx in Hmap2.
  destruct (run_spec rglob_message_html folder_digest soup uuid4
              selfx input_dir w1) as (_ & _ & _ & Hrows2 & Hd2 & Hf2 & _).
  pose proof (save_id_map_files _ _ _ _ Hsave) as (Hf1 & _).
  assert (exists w2a,
             save_id_map (id_map_path self) (id_map self1)
                         (world_after selfx input_dir w1)
             = Ok w2a) as [w2a Hsave2].
  { apply save_id_map_ok_iff. rewrite Hd2, Hf2.
    apply (save_id_map_ok_iff (id_map_path self) (id_map self1) w1a).
    apply (save_id_map_again _ (id_map self1) (id_map self1) _ _ Hsave). }
  exists (extractor_after selfx input_dir w1),
    (print (MsgExtracted
              (Z.of_nat (length (flat_map (block_of selfx input_dir w1)
                                          (threads_of input_dir))))
              (Z.of_nat (length (threads_of input_dir))))
           w2a).
  split; [|split; [|split; [|split; [|split]]]].
  - rewrite process_directory_unfold, Hpathx, Hmap2. now rewrite Hsave2.
  - exact Hmap2.
  - exact Hrows1.
  - rewrite Hrows2. f_equal.
    apply flat_map_ext. intros t. unfold run_block.
    fold (extractor_after selfx input_dir w1). rewrite Hmap2. reflexivity.
  - cbn. rewrite (save_id_map_drawn _ _ _ _ Hsave2). exact Hdrawn2.
  - cbn. pose proof (save_id_map_files _ _ _ _ Hsave2) as (-> & _).
    rewrite Hf2. cbn. rewrite Hf1. apply insert_insert_eq.
Qed.

(** X14: after a run of an extractor that had no row, a new extractor
    made for the same path loads the ID map the run has written, and
    running it on the same export succeeds, draws no new identifier,
    leaves the ID map and the files as they are, and produces the same
    rows, so every conversation keeps its identifier. *)
Theorem rerun_is_stable (input_dir : Path) (w : World) self0 self1 w1 :
  rows self0 = [] ->
  process_directory rglob_message_html folder_digest soup uuid4
    self0 input_dir w = Ok (self1, w1) ->
  exists self0' self2 w2,
    __init__ (id_map_path self0) w1 = Ok self0'
    /\ process_directory rglob_message_html folder_digest soup uuid4
         self0' input_dir w1 = Ok (self2, w2)
    /\ id_map self2 = id_map self1
    /\ rows self2 = rows self1
    /\ drawn w2 = drawn w1
    /\ files w2 = files w1.
Proof.
  intros Hrows0 Hrun.
  set (self0' := {| id_map_path := id_map_path self0; id_map := id_map self1;
                    rows := [] |}).
  destruct (run_again self0 input_dir w self1 w1 self0' Hrun eq_refl eq_refl)
    as (self2 & w2 & Hrun2 & Hmap & Hrows1 & Hrows2 & Hd & Hf).
  exists self0', self2, w2.
  split; [|split; [exact Hrun2|split; [exact Hmap|split; [|done]]]].
  - apply process_directory_inv in Hrun as (-> & w1a & Hsave & ->).
    unfold __init__.
    change (load_id_map ?p (print ?m w1a)) with (load_id_map p w1a).
    now rewrite (load_after_save _ _ _ _ Hsave).
  - rewrite Hrows2, Hrows1, Hrows0. reflexivity.
Qed.

(** X15: an extractor accumulates its rows: [process_directory] never
    removes one, and a second call on the same extractor and the same
    export succeeds, keeps the ID map and the files, and appends the
    rows of the first call once more. *)
Theorem process_directory_twice self input_dir w self1 w1 :
  process_directory rglob_message_html folder_digest soup uuid4
    self input_dir w = Ok (self1, w1) ->
  exists new_rows self2 w2,
    rows self1 = rows self ++ new_rows
    /\ process_directory rglob_message_html folder_digest soup uuid4
         self1 input_dir w1 = Ok (self2, w2)
    /\ rows self2 = rows self ++ new_rows ++ new_rows
    /\ id_map self2 = id_map self1
    /\ files w2 = files w1.
Proof.
  intros Hrun.
  destruct (run_again self input_dir w self1 w1 self1 Hrun eq_refl)
    as (self2 & w2 & Hrun2 & Hmap & Hrows1 & Hrows2 & Hd & Hf).
  { now apply process_directory_inv in Hrun as (-> & _);
      destruct (run_spec rglob_message_html folder_digest soup uuid4
                  self input_dir w) as (-> & _). }
  exists (flat_map (block_of self input_dir w) (threads_of input_dir)),
    self2, w2.
  split; [exact Hrows1|]. split; [exact Hrun2|].
  split; [|done]. rewrite Hrows2, Hrows1. now rewrite <- app_assoc.
Qed.

End Distinct.

Lemma conversation_ids_distinct_witness :
  exists c1 c2,
    id_map two_threads_result.1 !! lit "data/alice" = Some c1
    /\ id_map two_threads_result.1 !! lit "data/bob" = Some c2
    /\ c1 <> c2.
Proof.
  exists (counting_uuid4 0), (counting_uuid4 1).
  split; [vm_compute; reflexivity|]. split; [vm_compute; reflexivity|].
  intros E.
  destruct (conversation_ids_distinct two_threads_rglob sample_digest
              two_threads_soup counting_uuid4 fresh_extractor
              (sample_path ["data"]) sample_world two_threads_result.1
              two_threads_result.2 counting_uuid4_inj) as [Hone _].
  - intros k i _. cbn. now rewrite lookup_empty.
  - intros k1 k2 c. cbn. now rewrite lookup_empty.
  - exact two_threads_run_ok.
  - assert (lit "data/alice" = lit "data/bob") as H; [|discriminate H].
    apply (Hone _ _ (counting_uuid4 0)); [vm_compute; reflexivity|].
    rewrite E. vm_compute. reflexivity.
Defined.

Lemma rerun_is_stable_witness :
  exists self0' self2 w2,
    __init__ sample_id_map_path two_threads_result.2 = Ok self0'
    /\ process_directory two_threads_rglob sample_digest two_threads_soup
         counting_uuid4 self0' (sample_path ["data"]) two_threads_result.2
       = Ok (self2, w2)
    /\ id_map self2 = id_map two_threads_result.1
    /\ rows self2 = rows two_threads_result.1
    /\ drawn w2 = drawn two_threads_result.2
    /\ files w2 = files two_threads_result.2.
Proof.
  apply (rerun_is_stable two_threads_rglob sample_digest two_threads_soup
           counting_uuid4 (sample_path ["data"]) sample_world
           fresh_extractor).
  - reflexivity.
  - exact two_threads_run_ok.
Defined.

Lemma process_directory_twice_witness :
  exists new_rows self2 w2,
    rows two_threads_result.1 = rows fresh_extractor ++ new_rows
    /\ process_directory two_threads_rglob sample_digest two_threads_soup
         counting_uuid4 two_threads_result.1 (sample_path ["data"])
         two_threads_result.2
       = Ok (self2, w2)
    /\ rows self2 = rows fresh_extractor ++ new_rows ++ new_rows
    /\ id_map self2 = id_map two_threads_result.1
    /\ files w2 = files two_threads_result.2.
Proof.
  apply (process_directory_twice two_threads_rglob sample_digest
           two_threads_soup counting_uuid4 fresh_extractor
           (sample_path ["data"]) sample_world).
  exact two_threads_run_ok.
Defined.

(** * More on a run *)

Lemma elem_of_flat_map {A B} (f : A -> list B) (l : list A) (y : B) :
  y ∈ flat_map f l <-> exists x, x ∈ l /\ y ∈ f x.
Proof.
  rewrite list_elem_of_In, in_flat_map. split.
  - intros (x & H1 & H2). exists x. now rewrite !list_elem_of_In.
  - intros (x & H1 & H2). exists x. now rewrite <- !list_elem_of_In.
Qed.

Lemma flat_map_pointwise_perm {A B} (f g : A -> list B) (l : list A) :
  (forall x, f x ≡ₚ g x) -> flat_map f l ≡ₚ flat_map g l.
Proof.
  intros H. induction l as [|x l IH]; cbn; [done|].
  now apply Permutation_app.
Qed.

Lemma flat_map_flat_map {A B C} (f : B -> list C) (g : A -> list B) l :
  flat_map f (flat_map g l) = flat_map (fun x => flat_map f (g x)) l.
Proof.
  induction l as [|x l IH]; cbn; [done|]. now rewrite flat_map_app, IH.
Qed.

Lemma map_flat_map {A B C} (h : B -> C) (f : A -> list B) l :
  map h (flat_map f l) = flat_map (fun x => map h (f x)) l.
Proof.
  induction l as [|x l IH]; cbn; [done|]. now rewrite map_app, IH.
Qed.

Lemma enumerate_elem {A} (l : list A) start i x :
  (i, x) ∈ enumerate start l -> start <= i /\ x ∈ l.
Proof.
  revert start. induction l as [|y l IH]; intros start; cbn.
  - intros H. now apply elem_of_nil in H.
  - intros [[= -> ->]|H]%elem_of_cons.
    + split; [lia|]. apply elem_of_cons. now left.
    + apply IH in H as [H1 H2]. split; [lia|]. apply elem_of_cons. now right.
Qed.

Lemma enumerate_snd {A} (l : list A) start :
  map snd (enumerate start l) = l.
Proof.
  revert start. induction l as [|y l IH]; intros start; cbn; [done|].
  now rewrite IH.
Qed.

Section RunMore.
Variable rglob_message_html : Path -> list Path.
Variable folder_digest : Path -> str.
Variable soup : Path -> result DocumentView.
Variable uuid4 : nat -> str.

Local Abbreviation find_htmls := (find_message_htmls rglob_message_html).
Local Abbreviation threads_of := (run_threads rglob_message_html folder_digest).
Local Abbreviation extractor_after :=
  (run_extractor rglob_message_html folder_digest soup uuid4).
Local Abbreviation world_after :=
  (run_world rglob_message_html folder_digest soup uuid4).
Local Abbreviation block_of :=
  (run_block rglob_message_html folder_digest soup uuid4).
Local Abbreviation process_dir :=
  (process_directory rglob_message_html folder_digest soup uuid4).

(** ** When a run fails *)


(** ** What a run reports *)

Lemma run_threads_keys input_dir key :
  key ∈ map fst (threads_of input_dir)
  <-> exists hp, hp ∈ find_htmls input_dir
                 /\ thread_key_for_file folder_digest hp = key.
Proof.
  rewrite (run_threads_perm rglob_message_html folder_digest input_dir).
  destruct (group_threads_partition folder_digest (find_htmls input_dir))
    as (_ & Hfs & Hkeys & _).
  split.
  - intros ([k fs] & -> & H)%list_elem_of_fmap.
    destruct (Hfs _ _ H) as [Hne Hfilter].
    destruct fs as [|hp fs]; [done|]. exists hp.
    assert (hp ∈ hp :: fs) as Hin by (apply elem_of_cons; now left).
    rewrite Hfilter in Hin.
    apply elem_of_filter_list in Hin as [? ?%str_eqb_eq].
    done.
  - intros (hp & Hhp & <-). now apply Hkeys.
Qed.

(** X17: the lines of a run and its counts. A successful run appends
    rows to those the extractor had, and prints first the number of
    documents found and last, after the ID map is written, the number of
    rows it has appended and the number of conversations, which is the
    number of distinct thread keys among the documents found. *)
Theorem process_directory_report self input_dir w self' w' :
  process_dir self input_dir w = Ok (self', w') ->
  let found := find_htmls input_dir in
  let threads := threads_of input_dir in
  exists new_rows,
    rows self' = rows self ++ new_rows
    /\ trace w'
       = trace w
         ++ [Printed (MsgFound (Z.of_nat (length found)))]
         ++ flat_map (fun t => thread_events soup
                                 (default ([] : str) (id_map self' !! t.1)) t)
                     threads
         ++ [Wrote (id_map_path self);
             Printed (MsgExtracted (Z.of_nat (length new_rows))
                                   (Z.of_nat (length threads)))]
    /\ NoDup (map fst threads)
    /\ (forall key,
           key ∈ map fst threads
           <-> exists hp, hp ∈ found
                          /\ thread_key_for_file folder_digest hp = key).
Proof.
  intros (-> & w2 & Hsave & ->)%process_directory_inv. cbv zeta.
  exists (flat_map (block_of self input_dir w) (threads_of input_dir)).
  destruct (run_spec rglob_message_html folder_digest soup uuid4
              self input_dir w) as (_ & _ & _ & Hrows & _ & _ & Ht).
  split; [exact Hrows|]. split; [|split].
  - cbn. apply save_id_map_files in Hsave as (_ & _ & _ & ->).
    rewrite Ht. rewrite <- !app_assoc. cbn. reflexivity.
  - apply run_threads_nodup.
  - apply run_threads_keys.
Qed.

(** ** No message is lost *)

Lemma thread_rows_payload cid fs :
  map row_payload (thread_rows soup cid fs)
  = map message_payload (order_messages (thread_messages soup fs)).
Proof.
  unfold thread_rows. set (l := order_messages _).
  rewrite <- (enumerate_snd l 1) at 2. rewrite !map_map.
  apply map_ext. now intros [i m].
Qed.

Lemma thread_messages_perm fs :
  thread_messages soup fs ≡ₚ flat_map (messages_of soup) fs.
Proof.
  unfold thread_messages. apply Permutation_flat_map, sorted_perm.
Qed.

Lemma block_payload self input_dir w t :
  map row_payload (block_of self input_dir w t)
  ≡ₚ map message_payload (flat_map (messages_of soup) t.2).
Proof.
  unfold run_block. rewrite thread_rows_payload.
  apply Permutation_map. rewrite order_messages_perm.
  apply thread_messages_perm.
Qed.

(** X18: the rows a run appends are the messages of the documents found
    that can be read, each message once: what the rows carry of their
    messages, the stripped text, the flags and the counts, is what the
    messages hold, up to the order. *)
Theorem rows_match_messages self input_dir w self' w' :
  process_dir self input_dir w = Ok (self', w') ->
  exists new_rows,
    rows self' = rows self ++ new_rows
    /\ map row_payload new_rows
       ≡ₚ map message_payload
            (flat_map (messages_of soup) (find_htmls input_dir))
    /\ length new_rows
       = length (flat_map (messages_of soup) (find_htmls input_dir)).
Proof.
  intros (-> & _)%process_directory_inv.
  exists (flat_map (block_of self input_dir w) (threads_of input_dir)).
  destruct (run_spec rglob_message_html folder_digest soup uuid4
              self input_dir w) as (_ & _ & _ & Hrows & _).
  split; [exact Hrows|].
  assert (Hperm :
    map row_payload (flat_map (block_of self input_dir w) (threads_of input_dir))
    ≡ₚ map message_payload
         (flat_map (messages_of soup) (find_htmls input_dir))).
  { rewrite map_flat_map.
    rewrite (flat_map_pointwise_perm _
               (fun t => map message_payload
                           (flat_map (messages_of soup) t.2)))
      by apply block_payload.
    rewrite <- map_flat_map. apply Permutation_map.
    rewrite <- (flat_map_flat_map (messages_of soup) snd).
    apply Permutation_flat_map, run_threads_files. }
  split; [exact Hperm|].
  apply Permutation_length in Hperm. now rewrite !length_map in Hperm.
Qed.

(** ** Documents that cannot be read *)

Lemma parse_events_elem fp e fp' :
  Printed (MsgErrorProcessing fp e) ∈ parse_events soup fp'
  <-> fp' = fp /\ soup fp = Raise e.
Proof.
  unfold parse_events. rewrite elem_of_cons.
  pose proof (parse_messenger_html_raise soup fp') as Hr.
  destruct (parse_messenger_html soup fp') as [r|e'] eqn:E.
  - split.
    + intros [H|H]; [done|]. now apply elem_of_nil in H.
    + intros [-> H]. apply Hr in H. done.
  - split.
    + intros [H|H%list_elem_of_singleton]; [done|].
      injection H as -> ->. split; [done|]. now apply Hr.
    + intros [-> H]. apply Hr in H. injection H as ->. right.
      now apply list_elem_of_singleton.
Qed.

Lemma thread_events_error cid t fp e :
  Printed (MsgErrorProcessing fp e) ∈ thread_events soup cid t
  <-> fp ∈ t.2 /\ soup fp = Raise e.
Proof.
  unfold thread_events. rewrite elem_of_cons, elem_of_flat_map. split.
  - intros [H|(fp' & Hin & [-> H]%parse_events_elem)]; [done|].
    split; [|done]. now apply elem_of_sorted in Hin.
  - intros [Hin H]. right. exists fp. split; [now apply elem_of_sorted|].
    now apply parse_events_elem.
Qed.

Lemma thread_events_parsing cid t fp :
  Parsing fp ∈ thread_events soup cid t <-> fp ∈ t.2.
Proof.
  unfold thread_events. rewrite elem_of_cons, elem_of_flat_map. split.
  - intros [H|(fp' & Hin & H)]; [done|].
    apply parse_events_parsing in H as ->. now apply elem_of_sorted in Hin.
  - intros Hin. right. exists fp. split; [now apply elem_of_sorted|].
    unfold parse_events. apply elem_of_cons. now left.
Qed.

Lemma run_threads_file input_dir fp :
  (exists t, t ∈ threads_of input_dir /\ fp ∈ t.2)
  <-> fp ∈ find_htmls input_dir.
Proof.
  rewrite <- (run_threads_files rglob_message_html folder_digest input_dir).
  now rewrite elem_of_flat_map.
Qed.

(** X19: reading is tried on every document found and on no other, and a
    document that cannot be read does not stop the run: the run prints
    the error of a document exactly for the documents found whose
    reading raises it. *)
Theorem unreadable_documents_reported self input_dir w self' w' :
  process_directory rglob_message_html folder_digest soup uuid4
    self input_dir w = Ok (self', w') ->
  exists events,
    trace w' = trace w ++ events
    /\ (forall fp,
           Parsing fp ∈ events
           <-> fp ∈ find_message_htmls rglob_message_html input_dir)
    /\ (forall fp e,
           Printed (MsgErrorProcessing fp e) ∈ events
           <-> fp ∈ find_message_htmls rglob_message_html input_dir
               /\ soup fp = Raise e).
Proof.
  intros (-> & w2 & Hsave & ->)%process_directory_inv.
  destruct (run_spec rglob_message_html folder_digest soup uuid4
              self input_dir w) as (_ & _ & _ & _ & _ & _ & Ht).
  eexists. split.
  - cbn. apply save_id_map_files in Hsave as (_ & _ & _ & ->).
    rewrite Ht. rewrite <- !app_assoc. reflexivity.
  - split.
    + intros fp. rewrite <- run_threads_file.
      rewrite !elem_of_app, elem_of_cons, elem_of_flat_map.
      rewrite !list_elem_of_singleton. split.
      * intros [[H|(t & Hin & H%thread_events_parsing)]|[H|H]]; try done.
        eauto.
      * intros (t & Hin & H). left. right. exists t. split; [done|].
        now apply thread_events_parsing.
    + intros fp e. rewrite <- run_threads_file.
      rewrite !elem_of_app, elem_of_cons, elem_of_flat_map.
      rewrite !list_elem_of_singleton. split.
      * intros [[H|(t & Hin & [H1 H2]%thread_events_error)]|[H|H]]; try done.
        eauto.
      * intros [(t & Hin & H) He]. left. right. exists t.
        split; [done|]. now apply thread_events_error.
Qed.

(** ** Rows *)

Lemma thread_rows_elem cid fs r :
  r ∈ thread_rows soup cid fs ->
  exists i m fp section,
    r = make_row cid (thread_customer soup fs) i m
    /\ 1 <= i /\ fp ∈ fs /\ m ∈ messages_of soup fp
    /\ message_of_section section m.
Proof.
  unfold thread_rows. intros ([i m] & -> & H)%list_elem_of_fmap.
  apply enumerate_elem in H as [Hi Hm].
  rewrite order_messages_perm in Hm. unfold thread_messages in Hm.
  apply elem_of_flat_map in Hm as (fp & Hfp%elem_of_sorted & Hm).
  destruct (messages_of_sections soup fp m Hm) as [section Hs].
  exists i, m, fp, section. done.
Qed.

Lemma make_row_well_formed cid cust i m section :
  message_of_section section m ->
  let r := make_row cid cust i m in
  row_has_image r = int_of_bool (0 <? row_image_count r)
  /\ row_has_link r = int_of_bool (0 <? row_link_count r)
  /\ 0 <= row_image_count r /\ 0 <= row_link_count r
  /\ row_text r = text m
  /\ strip (row_text r) = row_text r
  /\ (forall p q, row_text r <> p ++ [NL; NL; NL] ++ q)
  /\ (row_role r = lit "customer" \/ row_role r = lit "assistant").
Proof.
  intros (_ & _ & Hx). cbv zeta. unfold make_row.
  cbn [row_has_image row_has_link row_image_count row_link_count row_text
       row_role].
  pose proof (extract_flags section) as Hflags.
  pose proof (extract_text_clean section) as Hclean. cbv zeta in Hclean.
  rewrite <- Hx in Hflags, Hclean. cbn [fst] in Hclean.
  destruct Hflags as (-> & -> & H1 & H2). destruct Hclean as [H3 H4].
  rewrite H4. repeat split; try done. apply infer_role_cases.
Qed.

(** X20: every row a run appends is well formed: a flag is 1 exactly
    when its count is positive and 0 otherwise, the counts are not
    negative, the text has no whitespace around it and no three newlines
    in a row, the role is one of the two, and the message number is at
    least 1. *)
Theorem rows_well_formed self input_dir w self' w' :
  process_dir self input_dir w = Ok (self', w') ->
  exists new_rows,
    rows self' = rows self ++ new_rows
    /\ Forall (fun r =>
                 row_has_image r = int_of_bool (0 <? row_image_count r)
                 /\ row_has_link r = int_of_bool (0 <? row_link_count r)
                 /\ 0 <= row_image_count r /\ 0 <= row_link_count r
                 /\ strip (row_text r) = row_text r
                 /\ (forall p q, row_text r <> p ++ [NL; NL; NL] ++ q)
                 /\ (row_role r = lit "customer"
                     \/ row_role r = lit "assistant")
                 /\ 1 <= row_msg_id r)
              new_rows.
Proof.
  intros (-> & _)%process_directory_inv.
  exists (flat_map (block_of self input_dir w) (threads_of input_dir)).
  destruct (run_spec rglob_message_html folder_digest soup uuid4
              self input_dir w) as (_ & _ & _ & Hrows & _).
  split; [exact Hrows|]. apply Forall_forall. intros r.
  intros (t & _ & Hr)%elem_of_flat_map. unfold run_block in Hr.
  apply thread_rows_elem in Hr as (i & m & fp & section & -> & Hi & _ & _ & Hs).
  destruct (make_row_well_formed
              (default ([] : str) (id_map (extractor_after self input_dir w) !! t.1))
              (thread_customer soup t.2) i m section Hs)
    as (H1 & H2 & H3 & H4 & _ & H5 & H6 & H7).
  done.
Qed.

(** ** Roles *)

(** X21: the customer of a thread is the first title that is not empty
    among its documents that can be read, in the order of their paths;
    the titles of the later documents are not looked at. The role of
    each row of the thread is inferred from the sender of its message
    and that name; where no document has a title, every row is the
    assistant's. *)
Theorem thread_roles self w n key fs :
  let docs := sorted path_lt fs in
  let titles := List.filter truthy (map (customer_of soup) docs) in
  let customer := default [] (head titles) in
  let final := order_messages (flat_map (messages_of soup) docs) in
  exists new_rows,
    rows (process_thread soup uuid4 (self, w, n) (key, fs)).1.1
    = rows self ++ new_rows
    /\ map row_role new_rows
       = map (fun m => infer_role (sender_name m) customer) final
    /\ (titles = [] ->
        Forall (fun r => row_role r = lit "assistant") new_rows).
Proof.
  cbv zeta. rewrite process_thread_eq. cbn [fst rows].
  eexists. split; [reflexivity|].
  unfold thread_rows, thread_customer, thread_messages.
  set (l := order_messages _). split.
  - rewrite <- (enumerate_snd l 1) at 2. rewrite !map_map.
    apply map_ext. now intros [i m].
  - intros ->. apply Forall_forall. intros r ([i m] & -> & _)%list_elem_of_fmap.
    cbn. unfold infer_role. now rewrite andb_false_r.
Qed.

(** ** An empty input *)

(** X22: where no document is found, [process_directory] leaves the
    extractor as it is, rows and ID map, and still writes the ID map
    file; it prints that 0 documents were found and that 0 messages of 0
    conversations were extracted. It raises only if saving the ID map
    raises, and then what the save raised. *)
Theorem process_directory_nothing_found self input_dir w :
  find_message_htmls rglob_message_html input_dir = [] ->
  match process_directory rglob_message_html folder_digest soup uuid4
          self input_dir w with
  | Ok (self', w') =>
      self' = self
      /\ files w' = <[id_map_path self := IdMapJson (id_map self)]> (files w)
      /\ trace w'
         = trace w ++ [Printed (MsgFound 0); Wrote (id_map_path self);
                       Printed (MsgExtracted 0 0)]
  | Raise e =>
      save_id_map (id_map_path self) (id_map self) (print (MsgFound 0) w)
      = Raise e
  end.
Proof.
  intros Hnone. unfold process_directory, process_threads.
  rewrite Hnone. cbn [length group_threads sorted fold_left Z.of_nat].
  destruct (save_id_map _ _ _) as [w2|e] eqn:E; cbn [mbind result_bind].
  - apply save_id_map_files in E as (Hf & _ & _ & Ht).
    split; [done|]. cbn in *. rewrite Hf, Ht. split; [done|].
    now rewrite <- !app_assoc.
  - reflexivity.
Qed.

(** ** Folders *)

(** X23: the thread key of a document is computed from its folder; when
    it depends on nothing else, two documents found in the same folder
    are in the same thread, and all the rows of that thread carry the
    one identifier the ID map has for it at the end of the run, one row
    for each message of the documents of the thread that can be read. *)
Theorem same_folder_same_conversation self input_dir w self' w' hp1 hp2 :
  (forall a b, parent a = parent b ->
               thread_key_for_file folder_digest a
               = thread_key_for_file folder_digest b) ->
  process_directory rglob_message_html folder_digest soup uuid4
    self input_dir w = Ok (self', w') ->
  hp1 ∈ find_message_htmls rglob_message_html input_dir ->
  hp2 ∈ find_message_htmls rglob_message_html input_dir ->
  parent hp1 = parent hp2 ->
  exists key fs cid,
    (key, fs) ∈ threads_of input_dir /\ hp1 ∈ fs /\ hp2 ∈ fs
    /\ id_map self' !! key = Some cid
    /\ Forall (fun r => row_conversation_id r = cid)
              (block_of self input_dir w (key, fs))
    /\ length (block_of self input_dir w (key, fs))
       = length (flat_map (messages_of soup) fs).
Proof.
  intros Hfolder (-> & _)%process_directory_inv H1 H2 Hpar.
  set (key := thread_key_for_file folder_digest hp1).
  assert (key ∈ map fst (threads_of input_dir)) as Hkey.
  { apply run_threads_keys. eauto. }
  apply list_elem_of_fmap in Hkey as ([k fs] & Hk & Hin). cbn in Hk. subst k.
  pose proof Hin as Hg.
  rewrite (run_threads_perm rglob_message_html folder_digest input_dir) in Hg.
  apply (group_threads_partition folder_digest) in Hg as [_ Hfs].
  destruct (run_spec rglob_message_html folder_digest soup uuid4
              self input_dir w) as (_ & _ & Hdom & _).
  destruct (proj2 (Hdom key)) as [cid Hcid].
  { right. now apply (list_elem_of_fmap_2 fst) in Hin. }
  exists key, fs, cid. split; [exact Hin|].
  split; [|split; [|split; [exact Hcid|split]]].
  - rewrite Hfs. apply elem_of_filter_list. split; [done|].
    now apply str_eqb_eq.
  - rewrite Hfs. apply elem_of_filter_list. split; [done|].
    apply str_eqb_eq. symmetry. now apply Hfolder.
  - apply Forall_forall. intros r Hr. unfold run_block in Hr. cbn in Hr.
    apply thread_rows_cid in Hr. rewrite Hr.
    fold (extractor_after self input_dir w).
    now rewrite Hcid.
  - unfold run_block. cbn [fst snd].
    rewrite (thread_rows_length soup).
    apply Permutation_length, thread_messages_perm.
Qed.

End RunMore.

Lemma process_directory_report_witness :
  exists new_rows,
    rows two_threads_result.1 = rows fresh_extractor ++ new_rows
    /\ last (trace two_threads_result.2)
       = Some (Printed (MsgExtracted (Z.of_nat (length new_rows)) 2)).
Proof.
  destruct (process_directory_report two_threads_rglob sample_digest
              two_threads_soup counting_uuid4 fresh_extractor
              (sample_path ["data"]) sample_world two_threads_result.1
              two_threads_result.2 two_threads_run_ok)
    as (new_rows & Hrows & Ht & _).
  exists new_rows. split; [exact Hrows|].
  rewrite Ht, !last_app. reflexivity.
Defined.

Lemma rows_match_messages_witness :
  exists new_rows,
    rows sample_result.1 = rows sample_extractor ++ new_rows
    /\ length new_rows = 6%nat.
Proof.
  destruct (rows_match_messages sample_rglob sample_digest sample_soup
              sample_uuid4 sample_extractor (sample_path ["data"])
              sample_world sample_result.1 sample_result.2)
    as (new_rows & Hrows & _ & Hlen).
  - exact sample_run_pair.
  - exists new_rows. split; [exact Hrows|]. rewrite Hlen.
    vm_compute. reflexivity.
Defined.

Lemma unreadable_documents_reported_witness :
  Printed (MsgErrorProcessing carol_1 OSError) ∈ trace sample_result.2.
Proof.
  destruct (unreadable_documents_reported sample_rglob sample_digest
              sample_soup sample_uuid4 sample_extractor
              (sample_path ["data"]) sample_world sample_result.1
              sample_result.2)
    as (events & Ht & _ & Herr).
  - exact sample_run_pair.
  - rewrite Ht. apply elem_of_app. right. apply Herr. split.
    + apply (bool_decide_unpack _). vm_compute. exact I.
    + vm_compute. reflexivity.
Defined.

Lemma rows_well_formed_witness :
  Forall (fun r => row_has_image r = int_of_bool (0 <? row_image_count r)
                   /\ 1 <= row_msg_id r)
         (rows sample_result.1).
Proof.
  destruct (rows_well_formed sample_rglob sample_digest sample_soup
              sample_uuid4 sample_extractor (sample_path ["data"])
              sample_world sample_result.1 sample_result.2)
    as (new_rows & Hrows & H).
  - exact sample_run_pair.
  - rewrite Hrows. cbn [rows sample_extractor app].
    eapply Forall_impl; [exact H|]. cbn. intros r Hr. tauto.
Defined.

Lemma same_folder_same_conversation_witness :
  exists key fs cid,
    (key, fs) ∈ run_threads sample_rglob sample_digest (sample_path ["data"])
    /\ alice_1 ∈ fs /\ alice_2 ∈ fs
    /\ id_map sample_result.1 !! key = Some cid
    /\ Forall (fun r => row_conversation_id r = cid)
              (run_block sample_rglob sample_digest sample_soup sample_uuid4
                 sample_extractor (sample_path ["data"]) sample_world
                 (key, fs))
    /\ length (run_block sample_rglob sample_digest sample_soup sample_uuid4
                 sample_extractor (sample_path ["data"]) sample_world
                 (key, fs))
       = length (flat_map (messages_of sample_soup) fs).
Proof.
  apply (same_folder_same_conversation sample_rglob sample_digest sample_soup
           sample_uuid4 sample_extractor (sample_path ["data"]) sample_world
           sample_result.1 sample_result.2 alice_1 alice_2).
  - intros a b E. unfold thread_key_for_file, sample_digest. now rewrite E.
  - exact sample_run_pair.
  - apply (bool_decide_unpack _). vm_compute. exact I.
  - apply (bool_decide_unpack _). vm_compute. exact I.
  - reflexivity.
Defined.

Lemma process_directory_nothing_found_witness :
  match process_directory photos_rglob sample_digest sample_soup sample_uuid4
          sample_extractor (sample_path ["data"]) sample_world with
  | Ok (self', w') =>
      self' = sample_extractor
      /\ files w'
         = <[id_map_path sample_extractor
             := IdMapJson (id_map sample_extractor)]> (files sample_world)
      /\ trace w'
         = trace sample_world
           ++ [Printed (MsgFound 0); Wrote (id_map_path sample_extractor);
               Printed (MsgExtracted 0 0)]
  | Raise e =>
      save_id_map (id_map_path sample_extractor) (id_map sample_extractor)
                  (print (MsgFound 0) sample_world)
      = Raise e
  end.
Proof.
  apply (process_directory_nothing_found photos_rglob sample_digest
           sample_soup sample_uuid4 sample_extractor (sample_path ["data"])
           sample_world).
  vm_compute. reflexivity.
Defined.

(** * The command line *)

Section MainProofs.
Variable rglob_message_html : Path -> list Path.
Variable folder_digest : Path -> str.
Variable soup : Path -> result DocumentView.
Variable uuid4 : nat -> str.

Local Abbreviation process_dir :=
  (process_directory rglob_message_html folder_digest soup uuid4).
Local Abbreviation run_main :=
  (main rglob_message_html folder_digest soup uuid4).

(** [main] where the input directory exists. *)
Lemma main_unfold (args : Args) (w : World) :
  path_exists (args_input_dir args) w = true ->
  run_main args w
  = (m0 ← load_id_map (args_id_map args) w;
     r ← process_dir {| id_map_path := args_id_map args; id_map := m0;
                        rows := [] |}
                     (args_input_dir args) w;
     w2 ← save_to_csv r.1 (args_output args) r.2;
     Ok (0, w2,
         match rows r.1 with
         | [] => []
         | _ :: _ => [MsgExtractedRows (Z.of_nat (length (rows r.1)))]
         end)).
Proof.
  intros H. unfold main, __init__. rewrite H. cbn [negb].
  destruct (load_id_map _ _) as [m0|e]; cbn [mbind result_bind]; [|done].
  now destruct (process_directory _ _ _ _ _ _ _) as [[self' w1]|e].
Qed.

(** X24: where the input directory does not exist, [main] returns 2,
    having read and written nothing, whatever stands at the path of the
    ID map, and having printed its error and nothing else.  Where it
    exists, [main] returns no other code than 0; it returns 0 when the
    ID map is loaded, the directory processed and the dataset saved
    without an exception, and it raises exactly what the first of these
    three steps to raise has raised. *)
Theorem main_exit_code (args : Args) (w : World) :
  let input_dir := args_input_dir args in
  let fresh m0 :=
    {| id_map_path := args_id_map args; id_map := m0; rows := [] |} in
  (path_exists input_dir w = false ->
   main rglob_message_html folder_digest soup uuid4 args w
   = Ok (2, w, [MsgInputMissing input_dir]))
  /\ (path_exists input_dir w = true ->
      (forall code w' out,
          main rglob_message_html folder_digest soup uuid4 args w
          = Ok (code, w', out) ->
          code = 0)
      /\ (forall m0 self' w1 w2,
             load_id_map (args_id_map args) w = Ok m0 ->
             process_dir (fresh m0) input_dir w = Ok (self', w1) ->
             save_to_csv self' (args_output args) w1 = Ok w2 ->
             exists out,
               main rglob_message_html folder_digest soup uuid4 args w
               = Ok (0, w2, out))
      /\ (forall e,
             main rglob_message_html folder_digest soup uuid4 args w
             = Raise e
             <-> load_id_map (args_id_map args) w = Raise e
                 \/ exists m0,
                     load_id_map (args_id_map args) w = Ok m0
                     /\ (process_dir (fresh m0) input_dir w = Raise e
                         \/ exists self' w1,
                             process_dir (fresh m0) input_dir w
                             = Ok (self', w1)
                             /\ save_to_csv self' (args_output args) w1
                                = Raise e))).
Proof.
  cbv beta zeta. split.
  - intros H. unfold main. now rewrite H.
  - intros H. rewrite (main_unfold args w H).
    destruct (load_id_map _ _) as [m0|e0]; cbn [mbind result_bind].
    2: { split; [done|]. split; [done|]. intros e. split.
         - intros [= ->]. now left.
         - intros [[= ->]|(m & Hm & _)]; done. }
    destruct (process_directory _ _ _ _ _ _ _) as [[self' w1]|e1] eqn:Hrun;
      cbn [mbind result_bind fst snd].
    2: { split; [done|]. split.
         - intros m s x y [= <-] Hp. rewrite Hrun in Hp. done.
         - intros e. split.
           + intros [= ->]. right. exists m0. split; [done|]. now left.
           + intros [He|(m & [= <-] & [Hp|(s & x & Hp & _)])];
               [done|rewrite Hrun in Hp; now injection Hp as ->
               |rewrite Hrun in Hp; done]. }
    destruct (save_to_csv _ _ _) as [w2|e2] eqn:Hcsv;
      cbn [mbind result_bind].
    + split; [now intros ??? [= <- _ _]|]. split.
      * intros m s x y [= <-] Hp Hs. rewrite Hrun in Hp.
        injection Hp as <- <-. rewrite Hcsv in Hs. injection Hs as <-. eauto.
      * intros e. split; [done|].
        intros [He|(m & [= <-] & [Hp|(s & x & Hp & Hs)])];
          [done|rewrite Hrun in Hp; done|].
        rewrite Hrun in Hp. injection Hp as <- <-. rewrite Hcsv in Hs. done.
    + split; [done|]. split.
      * intros m s x y [= <-] Hp Hs. rewrite Hrun in Hp.
        injection Hp as <- <-. rewrite Hcsv in Hs. done.
      * intros e. split.
        -- intros [= ->]. right. exists m0. split; [done|]. right.
           exists self', w1. done.
        -- intros [He|(m & [= <-] & [Hp|(s & x & Hp & Hs)])];
             [done|rewrite Hrun in Hp; done|].
           rewrite Hrun in Hp. injection Hp as <- <-. rewrite Hcsv in Hs.
           now injection Hs as ->.
Qed.

(** X25: a run of [main] on an existing input directory, with the ID
    map loaded as [m0], that returns has returned 0; it has processed
    the input directory with a new extractor that holds [m0] and has
    no row, and has written the ID map the run has left.  It has written
    the dataset, with the rows of this run and no other, only if there
    is a row, and then it prints their number.  With no row, the ID map
    is the only file written.  Where the two paths are the same, the
    dataset has replaced the ID map. *)
Theorem main_writes_files (args : Args) (w w' : World) m0 code out :
  path_exists (args_input_dir args) w = true ->
  load_id_map (args_id_map args) w = Ok m0 ->
  main rglob_message_html folder_digest soup uuid4 args w
  = Ok (code, w', out) ->
  code = 0
  /\ exists self' w1,
      process_dir {| id_map_path := args_id_map args; id_map := m0;
                     rows := [] |}
                  (args_input_dir args) w
      = Ok (self', w1)
      /\ (rows self' = [] ->
          files w'
          = <[args_id_map args := IdMapJson (id_map self')]> (files w)
          /\ out = [])
      /\ (rows self' <> [] ->
          files w'
          = <[args_output args := CsvTable (rows self')]>
              (<[args_id_map args := IdMapJson (id_map self')]> (files w))
          /\ out = [MsgExtractedRows (Z.of_nat (length (rows self')))]).
Proof.
  intros Hexists Hload. rewrite (main_unfold args w Hexists), Hload.
  cbn [mbind result_bind].
  destruct (process_directory _ _ _ _ _ _ _) as [[self' w1]|e] eqn:Hrun;
    cbn [mbind result_bind fst snd]; [|done].
  destruct (save_to_csv _ _ _) as [w2|e] eqn:Hcsv;
    cbn [mbind result_bind]; [|done].
  intros [= <- <- <-]. split; [done|]. exists self', w1. split; [done|].
  pose proof Hrun as (-> & w1a & Hsave & ->)%process_directory_inv.
  cbn [id_map_path] in Hsave.
  apply save_id_map_files in Hsave as (Hf & _).
  destruct (run_spec rglob_message_html folder_digest soup uuid4
              {| id_map_path := args_id_map args; id_map := m0; rows := [] |}
              (args_input_dir args) w) as (_ & _ & _ & _ & _ & Hfw & _).
  rewrite Hfw in Hf. split.
  - intros Hrows. unfold save_to_csv in Hcsv. rewrite Hrows in Hcsv |- *.
    injection Hcsv as <-. cbn. done.
  - intros Hrows.
    destruct (save_to_csv_ok _ _ _ _ Hrows Hcsv) as (_ & _ & -> & _).
    cbn [files print emit]. rewrite Hf. split; [done|]. now destruct (rows _).
Qed.

End MainProofs.

Lemma returned_zero (r : result (Z * World * list MainMessage))
    (d : Z * World * list MainMessage) :
  match r with Ok (code, _, _) => code =? 0 | Raise _ => false end = true ->
  r = Ok (0, (match r with Ok x => x | Raise _ => d end).1.2,
          (match r with Ok x => x | Raise _ => d end).2).
Proof.
  destruct r as [[[code w] out]|e]; [|discriminate].
  now intros ->%Z.eqb_eq.
Qed.

Lemma sample_main_ok :
  sample_main
  = Ok (0, sample_main_result.1.2, sample_main_result.2).
Proof.
  apply (returned_zero sample_main (1, data_world, [])).
  vm_compute. reflexivity.
Qed.

Lemma main_writes_files_witness :
  0 = 0
  /\ exists self' w1,
      process_directory two_threads_rglob sample_digest two_threads_soup
        counting_uuid4
        {| id_map_path := default_id_map; id_map := ∅; rows := [] |}
        (sample_path ["data"]) data_world
      = Ok (self', w1)
      /\ (rows self' = [] ->
          files sample_main_result.1.2
          = <[default_id_map := IdMapJson (id_map self')]> (files data_world)
          /\ sample_main_result.2 = [])
      /\ (rows self' <> [] ->
          files sample_main_result.1.2
          = <[default_output := CsvTable (rows self')]>
              (<[default_id_map := IdMapJson (id_map self')]>
                 (files data_world))
          /\ sample_main_result.2
             = [MsgExtractedRows (Z.of_nat (length (rows self')))]).
Proof.
  apply (main_writes_files two_threads_rglob sample_digest two_threads_soup
           counting_uuid4 (parse_args (sample_path ["data"]) None None)
           data_world sample_main_result.1.2 ∅ 0 sample_main_result.2).
  - vm_compute. reflexivity.
  - reflexivity.
  - exact sample_main_ok.
Defined.

(** * The role of every message *)

Section Roles.
Variable soup : Path -> result DocumentView.
Variable uuid4 : nat -> str.

Lemma strip_default (o : option str) :
  (forall s, o = Some s -> strip s = s) -> strip (default [] o) = default [] o.
Proof. destruct o as [s|]; cbn; [intros H; now apply H|done]. Qed.

Lemma sender_trimmed (fs : list Path) (m : ParsedMessage) :
  (forall fp doc, fp ∈ fs -> soup fp = Ok doc -> labels_trimmed doc) ->
  m ∈ thread_messages soup fs ->
  strip (sender_name m) = sender_name m.
Proof.
  intros Hdocs Hm. unfold thread_messages in Hm.
  apply elem_of_flat_map in Hm as (fp & Hfp%elem_of_sorted & Hm).
  apply messages_of_document in Hm as (doc & section & Hdoc & Hsec & Hs).
  destruct Hs as (-> & _). apply strip_default. intros s Hh2.
  now apply (proj2 (Hdocs fp doc Hfp Hdoc) section).
Qed.

Lemma head_filter_elem {A} (f : A -> bool) (l : list A) (x : A) :
  head (List.filter f l) = Some x -> x ∈ l.
Proof.
  intros H. assert (x ∈ List.filter f l) as Hin.
  { destruct (List.filter f l); [done|]. injection H as ->.
    apply elem_of_cons. now left. }
  now apply elem_of_filter_list in Hin.
Qed.

Lemma customer_trimmed (fs : list Path) :
  (forall fp doc, fp ∈ fs -> soup fp = Ok doc -> labels_trimmed doc) ->
  strip (thread_customer soup fs) = thread_customer soup fs.
Proof.
  intros Hdocs. unfold thread_customer.
  destruct (head _) as [c|] eqn:E; [|done]. cbn.
  apply head_filter_elem in E.
  apply list_elem_of_fmap in E as (fp & -> & Hfp%elem_of_sorted).
  destruct (customer_of_document soup fp) as [->|(doc & Hdoc & ->)]; [done|].
  apply strip_default. apply (Hdocs fp doc Hfp Hdoc).
Qed.

(** C7: for every message of a thread, the role of its row is
    "customer" if and only if the sender label of the message and the
    customer name of the thread are both non-empty and equal under
    case-insensitive comparison, and "assistant" in every other case.
    The labels are texts of [get_text(strip=True)], so they have no
    whitespace around them.  With customer name "Jane Doe", the sender
    "jane doe" is the customer and "Support Team" the assistant. *)
Theorem message_role_customer_iff self w n key fs :
  (forall fp doc, fp ∈ fs -> soup fp = Ok doc -> labels_trimmed doc) ->
  let docs := sorted path_lt fs in
  let customer_name :=
    default [] (head (List.filter truthy (map (customer_of soup) docs))) in
  let final := order_messages (flat_map (messages_of soup) docs) in
  (exists new_rows,
      rows (process_thread soup uuid4 (self, w, n) (key, fs)).1.1
      = rows self ++ new_rows
      /\ length new_rows = length final
      /\ forall i m r,
          final !! i = Some m -> new_rows !! i = Some r ->
          (row_role r = lit "customer"
           <-> sender_name m <> [] /\ customer_name <> []
               /\ lower (sender_name m) = lower customer_name)
          /\ (row_role r <> lit "customer" <-> row_role r = lit "assistant")
          /\ row_role r = role_as_specified (sender_name m) customer_name)
  /\ infer_role (lit "jane doe") (lit "Jane Doe") = lit "customer"
  /\ infer_role (lit "Support Team") (lit "Jane Doe") = lit "assistant".
Proof.
  intros Hdocs. cbv zeta. split; [|split; vm_compute; reflexivity].
  rewrite process_thread_eq. cbn [fst rows].
  set (cid := resolved_id uuid4 (id_map self) w key).
  exists (thread_rows soup cid fs). split; [reflexivity|].
  fold (thread_messages soup fs). fold (thread_customer soup fs).
  split.
  { unfold thread_rows. now rewrite length_map, enumerate_length. }
  intros i m r Hm Hr.
  rewrite (thread_rows_lookup soup cid fs i m Hm) in Hr. injection Hr as <-.
  cbn [row_role make_row].
  assert (Hs : strip (sender_name m) = sender_name m).
  { apply (sender_trimmed fs); [exact Hdocs|].
    rewrite <- (order_messages_perm (thread_messages soup fs)).
    now apply list_elem_of_lookup_2 in Hm. }
  pose proof (customer_trimmed fs Hdocs) as Hc.
  split; [|split].
  - rewrite infer_role_customer. now rewrite Hs, Hc.
  - destruct (infer_role_cases (sender_name m) (thread_customer soup fs))
      as [H|H]; rewrite H; split; done.
  - now apply infer_role_trimmed.
Qed.

End Roles.

Lemma sample_labels_trimmed fp doc :
  fp ∈ [alice_1; alice_2] -> sample_soup fp = Ok doc -> labels_trimmed doc.
Proof.
  intros Hfp Hdoc.
  assert (fp = alice_1 \/ fp = alice_2) as [-> | ->].
  { apply elem_of_cons in Hfp. destruct Hfp as [->|Hfp]; [now left|].
    apply list_elem_of_singleton in Hfp. now right. }
  - vm_compute in Hdoc. injection Hdoc as <-. split.
    + intros t [= <-]. vm_compute. reflexivity.
    + intros section sender Hsec Hh2. cbn in Hsec.
      repeat (apply elem_of_cons in Hsec; destruct Hsec as [->|Hsec];
              [injection Hh2 as <-; vm_compute; reflexivity|]).
      now apply elem_of_nil in Hsec.
  - vm_compute in Hdoc. injection Hdoc as <-. split.
    + intros t [=].
    + intros section sender Hsec Hh2. cbn in Hsec.
      repeat (apply elem_of_cons in Hsec; destruct Hsec as [->|Hsec];
              [injection Hh2 as <-; vm_compute; reflexivity|]).
      now apply elem_of_nil in Hsec.
Qed.

Lemma message_role_customer_iff_witness :
  (exists new_rows,
      rows (process_thread sample_soup sample_uuid4
              (sample_extractor, sample_world, 0)
              (lit "data/alice", [alice_1; alice_2])).1.1
      = rows sample_extractor ++ new_rows
      /\ length new_rows
         = length (order_messages
                     (flat_map (messages_of sample_soup)
                               (sorted path_lt [alice_1; alice_2]))))
  /\ infer_role (lit "jane doe") (lit "Jane Doe") = lit "customer"
  /\ infer_role (lit "Support Team") (lit "Jane Doe") = lit "assistant".
Proof.
  destruct (message_role_customer_iff sample_soup sample_uuid4
              sample_extractor sample_world 0 (lit "data/alice")
              [alice_1; alice_2] sample_labels_trimmed)
    as ((new_rows & Hrows & Hlen & _) & Hex).
  split; [|exact Hex]. exists new_rows. split; [exact Hrows|exact Hlen].
Defined.
